(** * BabbarMCP: the orchestration core of [src/index.ts]

    A shallow embedding of the scoring, classification, caching and
    fan-out code of the Babbar MCP server and of its composite tools, with
    the properties proved about it.

    Conventions of the embedding.
    - A JavaScript number that the code only adds, multiplies and compares is
      the rational it denotes ([Q], exact arithmetic); keyword positions and
      volumes are integers ([Z]).  Where the code itself tests for [NaN] or
      an infinity, the type [JsNum.num] carries them.
    - A field of an untyped API row that may be missing is an [option].
    - [Array.prototype.sort] is a stable sort driven by the sign of the
      comparator (ECMAScript 2019).
    - An object used as a table of counters is a finite map; an
      insertion-ordered [Map] whose order matters is an association list.
    - A loop that may not end is run on a bounded number of iterations and
      answers [None] when they do not suffice. *)

From Stdlib Require Import QArith Qround Lqa PrimFloat.
From stdpp Require Import gmap strings list sorting pretty.


(* ===================================================================== *)
(** * JavaScript helpers *)
(* ===================================================================== *)

Module Js.

(** [a || b] on optional strings: the empty string and [undefined] are
    falsy. *)
Definition or_str (a : option string) (b : string) : string :=
  match a with
  | Some s => if String.eqb s "" then b else s
  | None => b
  end.

(** [a || b] on optional integers: [0] and [undefined] are falsy. *)
Definition or_int (a : option Z) (b : Z) : Z :=
  match a with
  | Some n => if (n =? 0)%Z then b else n
  | None => b
  end.

(** [a ?? b]: only [undefined]/[null] fall through. *)
Definition nullish {A} (a : option A) (b : A) : A :=
  match a with Some x => x | None => b end.

(** [x || y] on two comparator results: the first non-zero one. *)
Definition or_cmpZ (x y : Z) : Z := if (x =? 0)%Z then y else x.
Definition or_cmpQ (x y : Q) : Q := if Qeq_bool x 0%Q then y else x.

Section Sort.
Context {A : Type}.

(** [le a b]: the comparator does not ask to put [b] before [a], i.e.
    [cmp(a, b) <= 0]. *)
Variable le : A -> A -> bool.

Fixpoint insert_sorted (x : A) (l : list A) : list A :=
  match l with
  | [] => [x]
  | y :: l' => if le x y then x :: y :: l' else y :: insert_sorted x l'
  end.

(** Stable insertion sort: elements are inserted from the right, and an
    element stays in front of the equal elements that followed it. *)
Fixpoint sort (l : list A) : list A :=
  match l with
  | [] => []
  | x :: l' => insert_sorted x (sort l')
  end.
End Sort.

(** [arr.sort(cmp)] for an integer-valued comparator. *)
Definition sortZ {A} (cmp : A -> A -> Z) : list A -> list A :=
  sort (fun a b => (cmp a b <=? 0)%Z).

(** [arr.sort(cmp)] for a rational-valued comparator. *)
Definition sortQ {A} (cmp : A -> A -> Q) : list A -> list A :=
  sort (fun a b => Qle_bool (cmp a b) 0%Q).

(** [arr.slice(0, n)]; a negative bound counts from the end. *)
Definition slice0 {A} (n : Z) (l : list A) : list A :=
  if (0 <=? n)%Z then take (Z.to_nat n) l
  else take (length l - Z.to_nat (- n)) l.

(** ** Facts about the sort *)

Section SortFacts.
Context {A : Type} (le : A -> A -> bool).

Lemma insert_sorted_perm (x : A) (l : list A) : insert_sorted le x l ≡ₚ x :: l.
Proof.
  induction l as [|y l IH]; cbn [insert_sorted]; [reflexivity|].
  destruct (le x y); [reflexivity|].
  rewrite IH. apply Permutation_swap.
Qed.

Lemma sort_perm (l : list A) : sort le l ≡ₚ l.
Proof.
  induction l as [|x l IH]; cbn [sort]; [reflexivity|].
  rewrite insert_sorted_perm. by rewrite IH.
Qed.

Hypothesis le_total : forall a b, le a b = false -> le b a = true.
Hypothesis le_trans : forall a b c, le a b = true -> le b c = true -> le a c = true.

Lemma insert_sorted_sorted (x : A) (l : list A) :
  StronglySorted (fun a b => le a b = true) l ->
  StronglySorted (fun a b => le a b = true) (insert_sorted le x l).
Proof.
  induction 1 as [|y l Hs IH Hy]; cbn [insert_sorted].
  - repeat constructor.
  - destruct (le x y) eqn:E.
    + constructor; [by constructor|].
      constructor; [exact E|].
      eapply Forall_impl; [exact Hy|]. intros z Hz. by eapply le_trans.
    + constructor; [exact IH|].
      rewrite insert_sorted_perm. constructor; [by apply le_total | exact Hy].
Qed.

Lemma sort_sorted (l : list A) :
  StronglySorted (fun a b => le a b = true) (sort le l).
Proof.
  induction l as [|x l IH]; cbn [sort]; [constructor|].
  by apply insert_sorted_sorted.
Qed.

End SortFacts.

Lemma elem_of_slice0 {A} (n : Z) (l : list A) (x : A) : x ∈ slice0 n l -> x ∈ l.
Proof.
  unfold slice0. destruct (0 <=? n)%Z; intros H;
    apply elem_of_take in H as (i & Hi & _); by eapply list_elem_of_lookup_2.
Qed.

Lemma StronglySorted_impl {A} (R S : A -> A -> Prop) (l : list A) :
  (forall a b, R a b -> S a b) -> StronglySorted R l -> StronglySorted S l.
Proof.
  intros HRS. induction 1 as [|x l Hs IH Hx]; constructor; [exact IH|].
  eapply Forall_impl; [exact Hx|]. auto.
Qed.

(** A sort by a comparator whose "no swap" answers form a total preorder
    [R] leaves the array sorted for [R]. *)
Lemma sortQ_sorted {A} (cmp : A -> A -> Q) (R : A -> A -> Prop) (l : list A) :
  (forall a b, Qle_bool (cmp a b) 0 = true <-> R a b) ->
  (forall a b, R a b \/ R b a) ->
  (forall a b c, R a b -> R b c -> R a c) ->
  StronglySorted R (sortQ cmp l).
Proof.
  intros HR Htotal Htrans.
  eapply StronglySorted_impl; [intros a b; apply HR|].
  apply sort_sorted.
  - intros a b H. apply HR. destruct (Htotal a b) as [Hab|Hba]; [|exact Hba].
    apply HR in Hab. congruence.
  - intros a b c Hab Hbc. apply HR in Hab, Hbc. apply HR. by eapply Htrans.
Qed.

Lemma elem_of_sortQ {A} (cmp : A -> A -> Q) (l : list A) (x : A) :
  x ∈ sortQ cmp l <-> x ∈ l.
Proof. unfold sortQ. by rewrite sort_perm. Qed.

(** ** Facts about [slice] *)

Lemma slice0_take {A} (n : Z) (l : list A) : exists k, slice0 n l = take k l.
Proof. unfold slice0. destruct (0 <=? n)%Z; eauto. Qed.

Lemma length_slice0 {A} (n : Z) (l : list A) :
  (0 <= n)%Z -> (Z.of_nat (length (slice0 n l)) <= n)%Z.
Proof.
  intros Hn. unfold slice0. destruct (Z.leb_spec 0 n); [|lia].
  rewrite length_take. lia.
Qed.

Lemma length_slice0_le {A} (n : Z) (l : list A) : (length (slice0 n l) <= length l)%nat.
Proof.
  destruct (slice0_take n l) as [k ->]. rewrite length_take. lia.
Qed.

Lemma NoDup_take {A} (k : nat) (l : list A) : NoDup l -> NoDup (take k l).
Proof.
  intros H. rewrite <- (take_drop k l) in H. by apply NoDup_app in H as [H _].
Qed.

Lemma NoDup_slice0 {A} (n : Z) (l : list A) : NoDup l -> NoDup (slice0 n l).
Proof. destruct (slice0_take n l) as [k ->]. apply NoDup_take. Qed.

Lemma StronglySorted_slice0 {A} (R : A -> A -> Prop) (n : Z) (l : list A) :
  StronglySorted R l -> StronglySorted R (slice0 n l).
Proof.
  destruct (slice0_take n l) as [k ->]. intros H.
  rewrite <- (take_drop k l) in H. by apply StronglySorted_app_1_l in H.
Qed.

Lemma elem_of_sortZ {A} (cmp : A -> A -> Z) (l : list A) (x : A) :
  x ∈ sortZ cmp l <-> x ∈ l.
Proof. unfold sortZ. by rewrite sort_perm. Qed.

(** A sort by an integer-valued comparator whose "no swap" answers form a
    total preorder [R] leaves the array sorted for [R]. *)
Lemma sortZ_sorted {A} (cmp : A -> A -> Z) (R : A -> A -> Prop) (l : list A) :
  (forall a b, (cmp a b <=? 0)%Z = true <-> R a b) ->
  (forall a b, R a b \/ R b a) ->
  (forall a b c, R a b -> R b c -> R a c) ->
  StronglySorted R (sortZ cmp l).
Proof.
  intros HR Htotal Htrans.
  eapply StronglySorted_impl; [intros a b; apply HR|].
  apply sort_sorted.
  - intros a b H. apply HR. destruct (Htotal a b) as [Hab|Hba]; [|exact Hba].
    apply HR in Hab. congruence.
  - intros a b c Hab Hbc. apply HR in Hab, Hbc. apply HR. by eapply Htrans.
Qed.

(** ** Lengths *)

Lemma length_omap_le {A B} (f : A -> option B) (l : list A) :
  (length (omap f l) <= length l)%nat.
Proof.
  induction l as [|x l IH]; [reflexivity|].
  cbn [omap list_omap]. destruct (f x); cbn [length]; lia.
Qed.

Lemma length_concat_le {A} (ls : list (list A)) (k : nat) :
  Forall (fun l => length l <= k)%nat ls -> (length (concat ls) <= k * length ls)%nat.
Proof.
  induction 1 as [|l ls Hl _ IH]; cbn [concat length]; [lia|].
  rewrite length_app. lia.
Qed.

Lemma elem_of_concat {A} (ls : list (list A)) (x : A) :
  x ∈ concat ls <-> exists l, x ∈ l /\ l ∈ ls.
Proof.
  rewrite list_elem_of_In, in_concat. split; intros (l & H1 & H2); exists l.
  - by rewrite !list_elem_of_In.
  - by rewrite <- !list_elem_of_In.
Qed.

(** A sort leaves the array sorted for every transitive relation that the
    comparator refines, whether or not the comparator is itself an order. *)
Lemma sort_sorted_weak {A} (le : A -> A -> bool) (R : A -> A -> Prop) (l : list A) :
  (forall a b, le a b = true -> R a b) ->
  (forall a b, le a b = false -> R b a) ->
  (forall a b c, R a b -> R b c -> R a c) ->
  StronglySorted R (sort le l).
Proof.
  intros Hle Hgt Htrans.
  assert (Hins : forall x l, StronglySorted R l -> StronglySorted R (insert_sorted le x l)).
  { intros x l0. induction 1 as [|y l' Hs IH Hy]; cbn [insert_sorted].
    - repeat constructor.
    - destruct (le x y) eqn:E.
      + constructor; [by constructor|].
        constructor; [by apply Hle|].
        eapply Forall_impl; [exact Hy|]. intros z Hz. eapply Htrans; [|exact Hz]. by apply Hle.
      + constructor; [exact IH|].
        rewrite insert_sorted_perm. constructor; [by apply Hgt | exact Hy]. }
  induction l as [|x l IH]; cbn [sort]; [constructor|]. by apply Hins.
Qed.

End Js.

(* ===================================================================== *)
(** * Competitor relevance scorer ([calculateCompetitorRelevance]) *)
(* ===================================================================== *)

Module Relevance.

Record RelevanceAssessment := {
  commonCount : nat;
  commonRatio : Q;
  relevanceScore : Q;
  isRelevant : bool
}.

Definition Qgtb (x y : Q) : bool := negb (Qle_bool x y).

Definition calculateCompetitorRelevance
    (baseKeywords : gset string) (competitorKeywords : list string)
    (similarityScore : Q) : RelevanceAssessment :=
  let commonKeywords := filter (fun kw => kw ∈ baseKeywords) competitorKeywords in
  let commonCount := length commonKeywords in
  let commonRatio :=
    if (0 <? length competitorKeywords)%nat
    then (inject_Z (Z.of_nat commonCount) / inject_Z (Z.of_nat (length competitorKeywords)))%Q
    else 0%Q in
  let relevanceScore := (similarityScore * (6 # 10) + commonRatio * 100 * (4 # 10))%Q in
  let isRelevant := (10 <=? commonCount)%nat && Qgtb relevanceScore 50%Q in
  {| commonCount := commonCount; commonRatio := commonRatio;
     relevanceScore := relevanceScore; isRelevant := isRelevant |}.

(** The competitor list of the worked example: one hundred keywords
    [k0 .. k99], of which the base entity ranks on the first twelve. *)
Definition example_keyword (i : nat) : string :=
  String (Ascii.ascii_of_nat 107)
    (String (Ascii.ascii_of_nat (48 + i / 10))
       (String (Ascii.ascii_of_nat (48 + i mod 10)) "")).
Definition example_competitor : list string := map example_keyword (seq 0 100).
Definition example_base : gset string := list_to_set (map example_keyword (seq 0 12)).

Lemma Qgtb_lt (x y : Q) : Qgtb x y = true <-> (y < x)%Q.
Proof.
  unfold Qgtb. rewrite negb_true_iff. split.
  - intros H. apply Qnot_le_lt. intros Hle.
    apply Qle_bool_iff in Hle. congruence.
  - intros H. destruct (Qle_bool x y) eqn:E; [|reflexivity].
    apply Qle_bool_iff in E. exfalso. exact (Qlt_not_le _ _ H E).
Qed.



(** ** Ranges *)

Lemma commonRatio_range (base : gset string) (comp : list string) (sim : Q) :
  (0 <= commonRatio (calculateCompetitorRelevance base comp sim) <= 1)%Q.
Proof.
  cbn [commonRatio calculateCompetitorRelevance].
  destruct comp as [|k comp']; [cbn; split; discriminate|].
  set (comp := k :: comp').
  assert (Hlen : (length (filter (fun kw => kw ∈ base) comp) <= length comp)%nat)
    by apply length_filter.
  assert (Hpos : (0 < length comp)%nat) by (cbn; lia).
  destruct (Nat.ltb_spec 0 (length comp)) as [_|]; [|lia].
  assert (Hn : (0 < inject_Z (Z.of_nat (length comp)))%Q).
  { change 0%Q with (inject_Z 0). rewrite <- Zlt_Qlt. lia. }
  split.
  - apply Qle_shift_div_l; [exact Hn|]. rewrite Qmult_0_l.
    change 0%Q with (inject_Z 0). rewrite <- Zle_Qle. lia.
  - apply Qle_shift_div_r; [exact Hn|]. rewrite Qmult_1_l.
    rewrite <- Zle_Qle. lia.
Qed.

Lemma relevanceScore_eq (base : gset string) (comp : list string) (sim : Q) :
  let r := calculateCompetitorRelevance base comp sim in
  (relevanceScore r == sim * (6 # 10) + commonRatio r * 100 * (4 # 10))%Q.
Proof. reflexivity. Qed.

Lemma isRelevant_true (base : gset string) (comp : list string) (sim : Q) :
  let r := calculateCompetitorRelevance base comp sim in
  isRelevant r = true -> (10 <= commonCount r)%nat /\ (50 < relevanceScore r)%Q.
Proof.
  cbv zeta. cbn [isRelevant commonCount relevanceScore calculateCompetitorRelevance].
  rewrite andb_true_iff, Nat.leb_le, Qgtb_lt. tauto.
Qed.





End Relevance.

(* ===================================================================== *)
(** * Keyword opportunity finder ([findKeywordOpportunities]) *)
(* ===================================================================== *)

Module Keywords.

(** A keyword row as the provider returns it.  Every field may be missing;
    positions and volumes are integers. *)
Record KwRow := {
  row_keyword : option string;
  row_query : option string;
  row_position : option Z;
  row_rank : option Z;
  row_volume : option Z;
  row_searchVolume : option Z
}.

Inductive Priority := High | Medium | Low.

(** The value stored in the [ourPosition] field of an emitted record: a
    string or a number. *)
Inductive PositionField :=
| PosString (s : string)
| PosNumber (n : Z).

Record Opportunity := {
  keyword : string;
  competitorHost : string;
  competitorPosition : Z;
  ourPosition : PositionField;
  volume : Z;
  gap : Z;
  priority : Priority
}.

Section WithLowerCase.

(** [String.prototype.toLowerCase]; nothing is assumed about it. *)
Variable toLowerCase : string -> string.

(** [(kw.keyword || kw.query || "").toLowerCase()] *)
Definition keyword_of (kw : KwRow) : string :=
  toLowerCase (Js.or_str (row_keyword kw) (Js.or_str (row_query kw) "")).

(** [Number(kw.position || kw.rank || 999)] *)
Definition position_of (kw : KwRow) : Z :=
  Js.or_int (row_position kw) (Js.or_int (row_rank kw) 999).

(** [Number(kw.volume || kw.searchVolume || 0)] *)
Definition volume_of (kw : KwRow) : Z :=
  Js.or_int (row_volume kw) (Js.or_int (row_searchVolume kw) 0).

(** One iteration of [baseKeywords.forEach]: a later row overwrites an
    earlier one with the same keyword. *)
Definition base_step (m : gmap string Z) (kw : KwRow) : gmap string Z :=
  let keyword := keyword_of kw in
  let position := position_of kw in
  if String.eqb keyword "" then m else <[keyword := position]> m.

Definition baseKwMap (baseKeywords : list KwRow) : gmap string Z :=
  fold_left base_step baseKeywords ∅.

(** [baseKwMap.get(keyword) || 999] *)
Definition our_position (m : gmap string Z) (keyword : string) : Z :=
  Js.or_int (m !! keyword) 999.

Definition priority_of (competitorPosition : Z) : Priority :=
  if (competitorPosition <=? 3)%Z then High
  else if (competitorPosition <=? 5)%Z then Medium
  else Low.

(** The body of [competitorKeywords.forEach]: the record pushed for a row,
    if any. *)
Definition opportunity_of (m : gmap string Z) (host : string) (kw : KwRow)
  : option Opportunity :=
  let keyword := keyword_of kw in
  let competitorPosition := position_of kw in
  let volume := volume_of kw in
  if String.eqb keyword "" then None
  else
    let ourPosition := our_position m keyword in
    if (competitorPosition <=? 10)%Z && (10 <? ourPosition)%Z then
      Some {| keyword := keyword;
              competitorHost := host;
              competitorPosition := competitorPosition;
              ourPosition := if (ourPosition =? 999)%Z
                             then PosString "Non classé"
                             else PosNumber ourPosition;
              volume := volume;
              gap := (ourPosition - competitorPosition)%Z;
              priority := priority_of competitorPosition |}
    else None.

(** The comparator of the final sort. *)
Definition opportunity_cmp (a b : Opportunity) : Z :=
  Js.or_cmpZ (competitorPosition a - competitorPosition b)%Z (volume b - volume a)%Z.

Definition findKeywordOpportunities
    (baseKeywords competitorKeywords : list KwRow) (competitorHost : string)
  : list Opportunity :=
  let m := baseKwMap baseKeywords in
  let opportunities := omap (opportunity_of m competitorHost) competitorKeywords in
  Js.sortZ opportunity_cmp opportunities.

End WithLowerCase.

(** ASCII lower-casing, used to run the examples. *)
Definition ascii_lower (c : Ascii.ascii) : Ascii.ascii :=
  let n := Ascii.nat_of_ascii c in
  if ((65 <=? n) && (n <=? 90))%nat then Ascii.ascii_of_nat (n + 32) else c.

Fixpoint lower (s : string) : string :=
  match s with
  | EmptyString => EmptyString
  | String c s' => String (ascii_lower c) (lower s')
  end.

Definition row (k : string) (pos vol : Z) : KwRow :=
  {| row_keyword := Some k; row_query := None; row_position := Some pos;
     row_rank := None; row_volume := Some vol; row_searchVolume := None |}.

(** The worked example of the specification: the base entity ranks 15th on
    "widgets"; the competitor ranks 20th on "widgets" and 3rd on "gadgets"
    (volume 500). *)
Definition example_base : list KwRow := [row "widgets" 15 0].
Definition example_competitor : list KwRow := [row "widgets" 20 0; row "gadgets" 3 500].

(** A competitor row ranked 3rd that carries no keyword text. *)
Definition unnamed_row : KwRow :=
  {| row_keyword := None; row_query := None; row_position := Some 3%Z;
     row_rank := None; row_volume := Some 500%Z; row_searchVolume := None |}.

(** The order the final sort establishes. *)
Definition before (a b : Opportunity) : Prop :=
  (competitorPosition a < competitorPosition b)%Z \/
  (competitorPosition a = competitorPosition b /\ (volume b <= volume a)%Z).

Section Facts.
Variable toLowerCase : string -> string.

#[local] Abbreviation keyword_of := (keyword_of toLowerCase).
#[local] Abbreviation opportunity_of := (opportunity_of toLowerCase).
#[local] Abbreviation baseKwMap := (baseKwMap toLowerCase).
#[local] Abbreviation findKeywordOpportunities := (findKeywordOpportunities toLowerCase).

Lemma eqb_empty_false (s : string) : String.eqb s "" = false <-> s <> "".
Proof.
  destruct (String.eqb_spec s ""); split; congruence.
Qed.

Lemma opportunity_of_is_Some (m : gmap string Z) (host : string) (kw : KwRow) :
  is_Some (opportunity_of m host kw) <->
  keyword_of kw <> "" /\ (position_of kw <= 10)%Z /\
  (10 < our_position m (keyword_of kw))%Z.
Proof.
  unfold Keywords.opportunity_of.
  destruct (String.eqb (keyword_of kw) "") eqn:Ek.
  - apply String.eqb_eq in Ek. split; [intros [o Ho]; discriminate | tauto].
  - apply eqb_empty_false in Ek.
    destruct (_ && _) eqn:Ec.
    + apply andb_true_iff in Ec as [H1 H2].
      apply Z.leb_le in H1. apply Z.ltb_lt in H2. split; [tauto | eauto].
    + split; [intros [o Ho]; discriminate|].
      intros (_ & H1 & H2). apply Z.leb_le in H1. apply Z.ltb_lt in H2.
      rewrite H1, H2 in Ec. discriminate.
Qed.

(** What an emitted record holds, in terms of the row it was built from. *)
Lemma opportunity_of_Some (m : gmap string Z) (host : string) (kw : KwRow) (o : Opportunity) :
  opportunity_of m host kw = Some o ->
  let ours := our_position m (keyword_of kw) in
  keyword o = keyword_of kw /\ keyword o <> "" /\
  competitorHost o = host /\
  competitorPosition o = position_of kw /\
  volume o = volume_of kw /\
  (competitorPosition o <= 10)%Z /\ (10 < ours)%Z /\
  gap o = (ours - competitorPosition o)%Z /\
  priority o = priority_of (competitorPosition o) /\
  ourPosition o = (if (ours =? 999)%Z then PosString "Non classé" else PosNumber ours).
Proof.
  intros Ho.
  pose proof (proj1 (opportunity_of_is_Some m host kw) (ex_intro _ o Ho)) as (Hk & Hc & Hu).
  unfold Keywords.opportunity_of in Ho.
  apply eqb_empty_false in Hk as Hk'. rewrite Hk' in Ho.
  destruct (_ && _); [|discriminate].
  injection Ho as <-. cbn. tauto.
Qed.

Lemma findKeywordOpportunities_perm (base comp : list KwRow) (host : string) :
  findKeywordOpportunities base comp host ≡ₚ omap (opportunity_of (baseKwMap base) host) comp.
Proof. apply Js.sort_perm. Qed.

Lemma elem_of_findKeywordOpportunities (base comp : list KwRow) (host : string) (o : Opportunity) :
  o ∈ findKeywordOpportunities base comp host <->
  exists kw, kw ∈ comp /\ opportunity_of (baseKwMap base) host kw = Some o.
Proof.
  rewrite findKeywordOpportunities_perm. apply list_elem_of_omap.
Qed.

Lemma fold_base_step_None (l : list KwRow) (m : gmap string Z) (k : string) :
  m !! k = None -> Forall (fun b => keyword_of b <> k) l ->
  fold_left (base_step toLowerCase) l m !! k = None.
Proof.
  revert m. induction l as [|b l IH]; intros m Hm Hl; [exact Hm|].
  apply Forall_cons in Hl as [Hb Hl]. cbn [fold_left]. apply IH; [|exact Hl].
  unfold base_step. destruct (String.eqb _ ""); [exact Hm|].
  by rewrite lookup_insert_ne.
Qed.

Lemma our_position_default (base : list KwRow) (k : string) :
  Forall (fun b => keyword_of b <> k) base -> our_position (baseKwMap base) k = 999%Z.
Proof.
  intros H. unfold our_position, Keywords.baseKwMap.
  rewrite fold_base_step_None; [reflexivity | apply lookup_empty | exact H].
Qed.

Lemma opportunity_le_before (a b : Opportunity) :
  (opportunity_cmp a b <=? 0)%Z = true <-> before a b.
Proof.
  unfold opportunity_cmp, Js.or_cmpZ, before. rewrite Z.leb_le.
  destruct (Z.eqb_spec (competitorPosition a - competitorPosition b) 0); lia.
Qed.

Lemma findKeywordOpportunities_sorted (base comp : list KwRow) (host : string) :
  StronglySorted before (findKeywordOpportunities base comp host).
Proof.
  eapply Js.StronglySorted_impl; [intros a b; apply opportunity_le_before|].
  apply Js.sort_sorted.
  - intros a b H.
    apply opportunity_le_before.
    assert (Hn : ~ before a b) by (rewrite <- opportunity_le_before; congruence).
    unfold before in *. lia.
  - intros a b c Hab Hbc. apply opportunity_le_before in Hab, Hbc.
    apply opportunity_le_before. unfold before in *. lia.
Qed.

(** C5 (amended): a competitor row yields a record exactly when its
    normalised keyword is not empty, its position is at most 10 and our
    position for that keyword (999 when no base row carries it) is above 10;
    the result holds one record per such row; priorities follow the
    competitor position (High up to 3, Medium up to 5, Low beyond); the
    result is sorted by ascending competitor position, ties by descending
    volume. *)
Theorem findKeywordOpportunities_spec (base comp : list KwRow) (host : string) :
  let m := baseKwMap base in
  let res := findKeywordOpportunities base comp host in
  (forall kw, is_Some (opportunity_of m host kw) <->
     keyword_of kw <> "" /\ (position_of kw <= 10)%Z /\
     (10 < our_position m (keyword_of kw))%Z) /\
  res ≡ₚ omap (opportunity_of m host) comp /\
  (forall k, Forall (fun b => keyword_of b <> k) base -> our_position m k = 999%Z) /\
  Forall (fun o =>
    ((competitorPosition o <= 3)%Z -> priority o = High) /\
    ((3 < competitorPosition o <= 5)%Z -> priority o = Medium) /\
    ((5 < competitorPosition o)%Z -> priority o = Low)) res /\
  StronglySorted before res.
Proof.
  cbv zeta. split_and!.
  - intros kw. apply opportunity_of_is_Some.
  - apply findKeywordOpportunities_perm.
  - intros k. apply our_position_default.
  - apply Forall_forall. intros o Ho.
    apply elem_of_findKeywordOpportunities in Ho as (kw & _ & Ho).
    apply opportunity_of_Some in Ho. cbv zeta in Ho.
    destruct Ho as (_ & _ & _ & _ & _ & _ & _ & _ & Hp & _).
    rewrite Hp. unfold priority_of.
    destruct (Z.leb_spec (competitorPosition o) 3);
      destruct (Z.leb_spec (competitorPosition o) 5);
      split_and!; intros; first [reflexivity | lia].
  - apply findKeywordOpportunities_sorted.
Qed.

(** C9 (amended): in every emitted record the numeric position of the base
    entity (999 when the lookup finds nothing) is above 10, [gap] is that
    number minus the competitor position, and the [ourPosition] field holds
    the number itself unless it is 999, in which case the field holds the
    string "Non classé". *)
Theorem ourPosition_field_spec (base comp : list KwRow) (host : string) :
  let m := baseKwMap base in
  Forall (fun o =>
    let ours := our_position m (keyword o) in
    (10 < ours)%Z /\
    gap o = (ours - competitorPosition o)%Z /\
    (ours = 999%Z -> ourPosition o = PosString "Non classé") /\
    (ours <> 999%Z -> ourPosition o = PosNumber ours))
    (findKeywordOpportunities base comp host).
Proof.
  cbv zeta. apply Forall_forall. intros o Ho.
  apply elem_of_findKeywordOpportunities in Ho as (kw & _ & Ho).
  apply opportunity_of_Some in Ho. cbv zeta in Ho.
  destruct Ho as (Hk & _ & _ & _ & _ & _ & Hu & Hg & _ & Hf).
  rewrite Hk. split_and!; [exact Hu | exact Hg | |].
  - intros E. rewrite Hf, E. reflexivity.
  - intros E. rewrite Hf. apply Z.eqb_neq in E. by rewrite E.
Qed.

(** C10: every record emitted by [findKeywordOpportunities] has a strictly
    positive [gap]. *)
Theorem gap_positive (base comp : list KwRow) (host : string) :
  Forall (fun o => (0 < gap o)%Z) (findKeywordOpportunities base comp host).
Proof.
  apply Forall_forall. intros o Ho.
  apply elem_of_findKeywordOpportunities in Ho as (kw & _ & Ho).
  apply opportunity_of_Some in Ho. cbv zeta in Ho.
  destruct Ho as (_ & _ & _ & _ & _ & Hc & Hu & Hg & _).
  lia.
Qed.

End Facts.

(** The worked example: one opportunity, for "gadgets", of priority High. *)
Example findKeywordOpportunities_example :
  findKeywordOpportunities lower example_base example_competitor "competitor.example" =
  [ {| keyword := "gadgets"; competitorHost := "competitor.example";
       competitorPosition := 3; ourPosition := PosString "Non classé";
       volume := 500; gap := 996; priority := High |} ].
Proof. reflexivity. Qed.

(** C5, as stated, fails on a row without keyword text: its position is 3
    and our position defaults to 999, yet no record is emitted. *)
Lemma unnamed_row_not_emitted :
  let m := baseKwMap lower [] in
  ((position_of unnamed_row <= 10)%Z /\
   (10 < our_position m (keyword_of lower unnamed_row))%Z) /\
  findKeywordOpportunities lower [] [unnamed_row] "competitor.example" = [].
Proof.
  cbv zeta. split; [split|]; [vm_compute; congruence | reflexivity | reflexivity].
Qed.

(** C9, as stated, fails on the worked example: the [ourPosition] field of
    the emitted record is a string, not the number 999. *)
Lemma unranked_position_is_a_string :
  ~ Forall (fun o => exists n, ourPosition o = PosNumber n)
      (findKeywordOpportunities lower example_base example_competitor "competitor.example").
Proof.
  rewrite findKeywordOpportunities_example. intros H.
  apply Forall_cons in H as [[n Hn] _]. discriminate Hn.
Qed.

(** ** Repeated base keywords *)

Section MoreFacts.
Variable toLowerCase : string -> string.

#[local] Abbreviation keyword_of := (keyword_of toLowerCase).
#[local] Abbreviation opportunity_of := (opportunity_of toLowerCase).
#[local] Abbreviation baseKwMap := (baseKwMap toLowerCase).
#[local] Abbreviation findKeywordOpportunities := (findKeywordOpportunities toLowerCase).

Lemma fold_base_step_keeps (l : list KwRow) (m : gmap string Z) (k : string) :
  Forall (fun b => keyword_of b <> k) l ->
  fold_left (base_step toLowerCase) l m !! k = m !! k.
Proof.
  revert m. induction l as [|b l IH]; intros m Hl; [reflexivity|].
  apply Forall_cons in Hl as [Hb Hl]. cbn [fold_left]. rewrite (IH _ Hl).
  unfold base_step. destruct (String.eqb _ ""); [reflexivity|].
  by rewrite lookup_insert_ne.
Qed.

(** X10: when several base rows carry the same keyword, the position recorded
    for it is the position of the last of them, whether or not an earlier
    row ranks better; the rows before it play no part. *)
Theorem baseKwMap_last_row_wins (pre post : list KwRow) (b : KwRow) :
  keyword_of b <> "" ->
  Forall (fun b' => keyword_of b' <> keyword_of b) post ->
  baseKwMap (pre ++ b :: post) !! keyword_of b = Some (position_of b) /\
  forall host kw,
    keyword_of kw = keyword_of b ->
    opportunity_of (baseKwMap (pre ++ b :: post)) host kw =
    opportunity_of (baseKwMap [b]) host kw.
Proof.
  intros Hk Hpost.
  assert (Hlook : forall pre', baseKwMap (pre' ++ b :: post) !! keyword_of b = Some (position_of b)).
  { intros pre'. unfold Keywords.baseKwMap. rewrite fold_left_app. cbn [fold_left].
    rewrite (fold_base_step_keeps _ _ _ Hpost).
    unfold base_step at 1. apply eqb_empty_false in Hk. rewrite Hk.
    apply lookup_insert_eq. }
  split; [apply Hlook|].
  intros host kw Hkw.
  assert (Hours : our_position (baseKwMap (pre ++ b :: post)) (keyword_of kw) =
                  our_position (baseKwMap [b]) (keyword_of kw)).
  { unfold our_position. rewrite Hkw, Hlook.
    unfold Keywords.baseKwMap. cbn [fold_left]. unfold base_step.
    apply eqb_empty_false in Hk. rewrite Hk. by rewrite lookup_insert_eq. }
  unfold Keywords.opportunity_of. cbv zeta. by rewrite Hours.
Qed.

End MoreFacts.

(** The base entity ranks 3rd on "widgets" in one row and 15th in a later
    one: the later row decides, and a competitor ranked 5th is reported as an
    opportunity. *)
Lemma baseKwMap_last_row_wins_example :
  baseKwMap lower ([row "widgets" 3 0] ++ row "widgets" 15 0 :: [row "gadgets" 2 0])
    !! keyword_of lower (row "widgets" 15 0) = Some (position_of (row "widgets" 15 0)) /\
  forall host kw,
    keyword_of lower kw = keyword_of lower (row "widgets" 15 0) ->
    opportunity_of lower
      (baseKwMap lower ([row "widgets" 3 0] ++ row "widgets" 15 0 :: [row "gadgets" 2 0])) host kw =
    opportunity_of lower (baseKwMap lower [row "widgets" 15 0]) host kw.
Proof.
  apply (baseKwMap_last_row_wins lower [row "widgets" 3 0] [row "gadgets" 2 0]
           (row "widgets" 15 0)).
  - vm_compute. discriminate.
  - constructor; [vm_compute; discriminate | constructor].
Defined.

End Keywords.

(* ===================================================================== *)
(** * JavaScript numbers with [NaN] and the infinities *)
(* ===================================================================== *)

Module JsNum.

(** A finite double is the rational it denotes; arithmetic on finite
    numbers is exact, and the sign of a zero is not tracked. *)
Inductive num :=
| NaN
| NegInf
| Fin (q : Q)
| PosInf.

Definition of_Z (z : Z) : num := Fin (inject_Z z).

Definition Qltb (x y : Q) : bool := negb (Qle_bool y x).

(** [a <= b], [a < b], [a > b]: false as soon as an operand is [NaN]. *)
Definition leb (a b : num) : bool :=
  match a, b with
  | NaN, _ | _, NaN => false
  | NegInf, _ => true
  | _, PosInf => true
  | Fin x, Fin y => Qle_bool x y
  | _, _ => false
  end.

Definition ltb (a b : num) : bool :=
  match a, b with
  | NaN, _ | _, NaN => false
  | NegInf, NegInf | PosInf, PosInf => false
  | NegInf, _ => true
  | _, PosInf => true
  | Fin x, Fin y => Qltb x y
  | _, _ => false
  end.

Definition gtb (a b : num) : bool := ltb b a.
Definition geb (a b : num) : bool := leb b a.

(** [a * b] *)
Definition mul (a b : num) : num :=
  match a, b with
  | NaN, _ | _, NaN => NaN
  | Fin x, Fin y => Fin (x * y)
  | Fin x, PosInf | PosInf, Fin x =>
      if Qltb 0 x then PosInf else if Qltb x 0 then NegInf else NaN
  | Fin x, NegInf | NegInf, Fin x =>
      if Qltb 0 x then NegInf else if Qltb x 0 then PosInf else NaN
  | PosInf, PosInf | NegInf, NegInf => PosInf
  | PosInf, NegInf | NegInf, PosInf => NegInf
  end.

(** [a / b] for a finite non-zero divisor, the only use the code makes. *)
Definition div_by (a : num) (d : Q) : num :=
  match a with
  | NaN => NaN
  | Fin x => Fin (x / d)
  | PosInf => if Qltb 0 d then PosInf else NegInf
  | NegInf => if Qltb 0 d then NegInf else PosInf
  end.

(** [Math.round]: the nearest integer, halves towards plus infinity. *)
Definition round (a : num) : num :=
  match a with
  | Fin x => of_Z (Qfloor (x + (1 # 2)))
  | _ => a
  end.

(** [Number.isFinite] *)
Definition isFinite (a : num) : bool :=
  match a with Fin _ => true | _ => false end.

(** Same value: [NaN] is itself, finite numbers are compared as rationals. *)
Definition same (a b : num) : Prop :=
  match a, b with
  | NaN, NaN | NegInf, NegInf | PosInf, PosInf => True
  | Fin x, Fin y => (x == y)%Q
  | _, _ => False
  end.

Lemma Qltb_lt (x y : Q) : Qltb x y = true <-> (x < y)%Q.
Proof.
  unfold Qltb. rewrite negb_true_iff. split.
  - intros H. apply Qnot_le_lt. intros Hle. apply Qle_bool_iff in Hle. congruence.
  - intros H. destruct (Qle_bool y x) eqn:E; [|reflexivity].
    apply Qle_bool_iff in E. exfalso. exact (Qlt_not_le _ _ H E).
Qed.

Lemma Qltb_ge (x y : Q) : Qltb x y = false <-> (y <= x)%Q.
Proof.
  unfold Qltb. rewrite negb_false_iff. apply Qle_bool_iff.
Qed.

Lemma Qle_bool_gt (x y : Q) : Qle_bool x y = false <-> (y < x)%Q.
Proof.
  rewrite <- Qltb_lt. unfold Qltb. by destruct (Qle_bool x y).
Qed.

Lemma or_cmpQ_le (x y : Q) :
  Qle_bool (Js.or_cmpQ x y) 0 = true <-> (x < 0 \/ (x == 0 /\ y <= 0))%Q.
Proof.
  unfold Js.or_cmpQ. rewrite Qle_bool_iff.
  destruct (Qeq_bool x 0) eqn:E.
  - apply Qeq_bool_iff in E. split; [by right | intros [H|[_ H]]; [|exact H]].
    rewrite E in H. by apply Qlt_irrefl in H.
  - apply Qeq_bool_neq in E. split.
    + intros H. left. apply Qle_lt_or_eq in H as [H|H]; [exact H | contradiction].
    + intros [H|[H _]]; [by apply Qlt_le_weak | contradiction].
Qed.

(** The order on numbers, by cases. *)
Lemma ltb_trans (a b c : num) : ltb a b = true -> ltb b c = true -> ltb a c = true.
Proof.
  destruct a as [| |x|], b as [| |y|], c as [| |z|]; cbn; try congruence.
  rewrite !Qltb_lt. apply Qlt_trans.
Qed.

Lemma ltb_not_NaN (a b : num) : ltb a b = true -> a <> NaN.
Proof. destruct a; [discriminate | congruence ..]. Qed.

Lemma ltb_between (a b c : num) :
  b <> NaN -> ltb a b = false -> ltb a c = true -> ltb b c = true.
Proof.
  destruct a as [| |x|], b as [| |y|], c as [| |z|]; cbn; try congruence.
  rewrite Qltb_ge, !Qltb_lt. intros _ H1 H2. eapply Qle_lt_trans; eassumption.
Qed.

(** ** Comparators built with [||] *)

Lemma or_cmpQ_lt (x y : Q) :
  (Js.or_cmpQ x y < 0 <-> x < 0 \/ (x == 0 /\ y < 0))%Q.
Proof.
  unfold Js.or_cmpQ. destruct (Qeq_bool x 0) eqn:E.
  - apply Qeq_bool_iff in E. split; [by right | intros [H|[_ H]]; [|exact H]].
    rewrite E in H. by apply Qlt_irrefl in H.
  - apply Qeq_bool_neq in E. split; [by left | intros [H|[H _]]; [exact H | contradiction]].
Qed.

Lemma or_cmpQ_eq (x y : Q) :
  (Js.or_cmpQ x y == 0 <-> x == 0 /\ y == 0)%Q.
Proof.
  unfold Js.or_cmpQ. destruct (Qeq_bool x 0) eqn:E.
  - apply Qeq_bool_iff in E. tauto.
  - apply Qeq_bool_neq in E. tauto.
Qed.

Lemma inject_Z_sub_neg (x y : Z) : (inject_Z (x - y) < 0)%Q <-> (x < y)%Z.
Proof. change 0%Q with (inject_Z 0). rewrite <- Zlt_Qlt. lia. Qed.

Lemma inject_Z_sub_zero (x y : Z) : (inject_Z (x - y) == 0)%Q <-> x = y.
Proof.
  change 0%Q with (inject_Z 0). split.
  - intros H. apply (inject_Z_injective (x - y) 0) in H. lia.
  - intros ->. by rewrite Z.sub_diag.
Qed.

Lemma inject_Z_sub_nonpos (x y : Z) : (inject_Z (x - y) <= 0)%Q <-> (x <= y)%Z.
Proof. change 0%Q with (inject_Z 0). rewrite <- Zle_Qle. lia. Qed.

(** The sign of a comparator built from three keys. *)
Lemma or_cmpQ3_le (x y z : Q) :
  (Js.or_cmpQ (Js.or_cmpQ x y) z <= 0 ->
   x < 0 \/ (x == 0 /\ y <= 0))%Q.
Proof.
  rewrite <- Qle_bool_iff, or_cmpQ_le, or_cmpQ_lt, or_cmpQ_eq.
  intros [[H|[H1 H2]]|[[H1 H2] _]]; [by left | right | right]; split; lra.
Qed.

Lemma or_cmpQ3_gt (x y z : Q) :
  (0 < Js.or_cmpQ (Js.or_cmpQ x y) z ->
   0 < x \/ (x == 0 /\ 0 <= y))%Q.
Proof.
  intros H.
  destruct (Qlt_le_dec 0 x) as [Hx|Hx]; [by left|].
  assert (Hn : ~ (Js.or_cmpQ (Js.or_cmpQ x y) z <= 0)%Q) by lra.
  rewrite <- Qle_bool_iff, or_cmpQ_le, or_cmpQ_lt, or_cmpQ_eq in Hn.
  right. split.
  - destruct (Qlt_le_dec x 0) as [Hlt|Hge]; [|lra]. exfalso. apply Hn. left. by left.
  - destruct (Qlt_le_dec y 0) as [Hlt|Hge]; [|exact Hge].
    destruct (Qlt_le_dec x 0) as [Hlt'|Hge']; [exfalso; apply Hn; left; by left|].
    exfalso. apply Hn. left. right. split; [lra | exact Hlt].
Qed.

End JsNum.

(* ===================================================================== *)
(** * Duplication bucket classifier (tool [babbar_host_duplicate]) *)
(* ===================================================================== *)

Module Duplicate.
Import JsNum.

(** The values [normPct] may be handed.  A value that is neither [null] nor
    [undefined] is represented by the number [Number(v)] makes of it. *)
Inductive value :=
| VNull
| VUndefined
| VNumber (n : num).

(** [a ?? b] *)
Definition nullish (a b : value) : value :=
  match a with
  | VNull | VUndefined => b
  | _ => a
  end.

Definition normPct (v : value) : num :=
  match v with
  | VNull | VUndefined | VNumber NaN => NaN
  | VNumber n =>
      let n := if leb n (of_Z 1) then mul n (of_Z 100) else n in
      let n := if ltb n (of_Z 0) then of_Z 0 else n in
      let n := if gtb n (of_Z 100) then of_Z 100 else n in
      div_by (round (mul n (of_Z 100))) 100
  end.

(** A bucket as returned by the provider. *)
Record RawBucket := {
  raw_percent_from : value; raw_from : value; raw_start : value;
  raw_percent_to : value; raw_to : value; raw_end : value;
  raw_pairs : Z
}.

(** A normalised bucket; only buckets whose two ends are finite are kept,
    so the ends are rationals.  The fields [rank] and [pairs_example] play
    no part in the classification and are left out. *)
Record Bucket := {
  percent_from : Q;
  percent_to : Q;
  pairs : Z
}.

(** The [map] and [filter] that build [buckets]: [None] for a dropped
    bucket. *)
Definition normalise (b : RawBucket) : option Bucket :=
  let from := normPct (nullish (raw_percent_from b) (nullish (raw_from b) (raw_start b))) in
  let to := normPct (nullish (raw_percent_to b) (nullish (raw_to b) (raw_end b))) in
  match from, to with
  | Fin f, Fin t => Some {| percent_from := f; percent_to := t; pairs := raw_pairs b |}
  | _, _ => None
  end.

Inductive Severity := blocker | critical | high | info.

Definition crossesThreshold (threshold : Q) (b : Bucket) : bool :=
  Qle_bool threshold (percent_to b).

Definition severityOf (threshold : Q) (b : Bucket) : Severity :=
  if Qle_bool 95 (percent_to b) then blocker
  else if Qle_bool 92 (percent_to b) then critical
  else if Qle_bool threshold (percent_to b) then high
  else info.

(** An annotated bucket, without its [priority] (a base-10 logarithm) and
    its [label]. *)
Record Annotated := {
  bucket : Bucket;
  isProblematic : bool;
  severity : Severity
}.

Definition annotate (threshold : Q) (b : Bucket) : Annotated :=
  {| bucket := b;
     isProblematic := crossesThreshold threshold b;
     severity := severityOf threshold b |}.

(** [annotated], from the raw buckets of the response. *)
Definition annotated (threshold : Q) (rawBuckets : list RawBucket) : list Annotated :=
  map (annotate threshold) (omap normalise rawBuckets).

Local Open Scope Q_scope.

(** A raw bucket [from .. to] with [n] pairs, in the provider's main field
    names. *)
Definition raw (from to : Q) (n : Z) : RawBucket :=
  {| raw_percent_from := VNumber (Fin from); raw_from := VUndefined; raw_start := VUndefined;
     raw_percent_to := VNumber (Fin to); raw_to := VUndefined; raw_end := VUndefined;
     raw_pairs := n |}.

(** The finite part of [normPct]: rescale, clamp. *)
Definition clamp (q : Q) : Q :=
  let n := if Qle_bool q 1 then q * 100 else q in
  let n := if Qltb n 0 then 0 else n in
  if Qltb 100 n then 100 else n.

Lemma Qfloor_unique (x : Q) (z : Z) :
  inject_Z z <= x -> x < inject_Z (z + 1) -> Qfloor x = z.
Proof.
  intros Hle Hlt.
  assert (H1 : (z <= Qfloor x)%Z).
  { rewrite <- (Qfloor_Z z). by apply Qfloor_resp_le. }
  assert (H2 : (Qfloor x < z + 1)%Z).
  { rewrite Zlt_Qlt. eapply Qle_lt_trans; [apply Qfloor_le | exact Hlt]. }
  lia.
Qed.

Lemma Qfloor_half (z : Z) : Qfloor (inject_Z z + (1 # 2)) = z.
Proof.
  apply Qfloor_unique.
  - rewrite <- (Qplus_0_r (inject_Z z)) at 1.
    apply Qplus_le_r. discriminate.
  - rewrite inject_Z_plus. apply Qplus_lt_r. reflexivity.
Qed.

Lemma clamp_range (q : Q) : 0 <= clamp q <= 100.
Proof.
  unfold clamp.
  destruct (Qle_bool q 1); cbv zeta.
  - destruct (Qltb (q * 100) 0) eqn:E1.
    + split; discriminate.
    + destruct (Qltb 100 (q * 100)) eqn:E2; [split; discriminate|].
      apply Qltb_ge in E1, E2. by split.
  - destruct (Qltb q 0) eqn:E1.
    + split; discriminate.
    + destruct (Qltb 100 q) eqn:E2; [split; discriminate|].
      apply Qltb_ge in E1, E2. by split.
Qed.

Lemma normPct_Fin (q : Q) :
  normPct (VNumber (Fin q)) = Fin (inject_Z (Qfloor (clamp q * 100 + (1 # 2))) / 100).
Proof.
  cbv [normPct clamp of_Z leb ltb gtb mul round div_by].
  change (inject_Z 1) with 1. change (inject_Z 100) with 100.
  change (inject_Z 0) with 0.
  destruct (Qle_bool q 1); cbv iota beta.
  - destruct (Qltb (q * 100) 0); cbv iota beta;
      [reflexivity | destruct (Qltb 100 (q * 100)); reflexivity].
  - destruct (Qltb q 0); cbv iota beta;
      [reflexivity | destruct (Qltb 100 q); reflexivity].
Qed.

(** Every result of [normPct] is [NaN] or a number of hundredths between
    0 and 100. *)
Lemma normPct_hundredths (v : value) :
  normPct v = NaN \/
  exists k : Z, (0 <= k <= 10000)%Z /\ normPct v = Fin (inject_Z k / 100).
Proof.
  destruct v as [| |[| |q|]]; try (left; reflexivity).
  - right. exists 0%Z. split; [lia | reflexivity].
  - right. rewrite normPct_Fin. eexists; split; [|reflexivity].
    destruct (clamp_range q) as [H0 H1]. split.
    + change 0%Z with (Qfloor (0 * 100 + (1 # 2))).
      apply Qfloor_resp_le, Qplus_le_l, Qmult_le_compat_r; [exact H0 | discriminate].
    + change 10000%Z with (Qfloor (100 * 100 + (1 # 2))).
      apply Qfloor_resp_le, Qplus_le_l, Qmult_le_compat_r; [exact H1 | discriminate].
  - right. exists 10000%Z. split; [lia | reflexivity].
Qed.

Lemma hundredths_range (k : Z) :
  (0 <= k <= 10000)%Z -> 0 <= inject_Z k / 100 <= 100.
Proof.
  intros [H0 H1]. split.
  - apply Qle_shift_div_l; [reflexivity|]. rewrite Qmult_0_l.
    change 0 with (inject_Z 0). by rewrite <- Zle_Qle.
  - apply Qle_shift_div_r; [reflexivity|].
    change (100 * 100) with (inject_Z 10000). by rewrite <- Zle_Qle.
Qed.

Lemma hundredths_le_1 (k : Z) : inject_Z k / 100 <= 1 <-> (k <= 100)%Z.
Proof.
  rewrite (Zle_Qle k 100). change (inject_Z 100) with 100. split.
  - intros H.
    assert (E : inject_Z k / 100 * 100 == inject_Z k) by (field; discriminate).
    rewrite <- E. change 100 with (1 * 100) at 3.
    apply Qmult_le_compat_r; [exact H | discriminate].
  - intros H. apply Qle_shift_div_r; [reflexivity|]. by rewrite Qmult_1_l.
Qed.

(** A second application to a result above 1 changes nothing; a result of
    at most 1 is rescaled once more. *)
Lemma normPct_again (k : Z) :
  (0 <= k <= 10000)%Z ->
  same (normPct (VNumber (Fin (inject_Z k / 100))))
       (if (k <=? 100)%Z then Fin (inject_Z k) else Fin (inject_Z k / 100)).
Proof.
  intros Hk. rewrite normPct_Fin.
  pose proof (hundredths_range k Hk) as [Hr0 Hr1].
  pose proof (hundredths_le_1 k) as Hle.
  unfold clamp.
  destruct (Z.leb_spec k 100) as [Hs|Hs].
  - assert (E : Qle_bool (inject_Z k / 100) 1 = true) by (apply Qle_bool_iff, Hle; lia).
    rewrite E. cbv zeta.
    assert (Ek : inject_Z k / 100 * 100 == inject_Z k) by (field; discriminate).
    assert (E1 : Qltb (inject_Z k / 100 * 100) 0 = false).
    { apply Qltb_ge. rewrite Ek. change 0 with (inject_Z 0). rewrite <- Zle_Qle. lia. }
    assert (E2 : Qltb 100 (inject_Z k / 100 * 100) = false).
    { apply Qltb_ge. rewrite Ek. change 100 with (inject_Z 100). rewrite <- Zle_Qle. lia. }
    rewrite E1, E2. cbn [same].
    assert (E3 : inject_Z k / 100 * 100 * 100 + (1 # 2) == inject_Z (k * 100) + (1 # 2)).
    { rewrite inject_Z_mult. change (inject_Z 100) with 100. field. }
    rewrite (Qfloor_comp _ _ E3), Qfloor_half, inject_Z_mult.
    change (inject_Z 100) with 100. field.
  - assert (E : Qle_bool (inject_Z k / 100) 1 = false).
    { apply Qle_bool_gt. apply Qnot_le_lt. rewrite Hle. lia. }
    rewrite E. cbv zeta.
    assert (E1 : Qltb (inject_Z k / 100) 0 = false) by (by apply Qltb_ge).
    assert (E2 : Qltb 100 (inject_Z k / 100) = false) by (by apply Qltb_ge).
    rewrite E1, E2. cbn [same].
    assert (E3 : inject_Z k / 100 * 100 + (1 # 2) == inject_Z k + (1 # 2)) by (field; discriminate).
    rewrite (Qfloor_comp _ _ E3), Qfloor_half. reflexivity.
Qed.



(** C3: with the threshold at 87 a normalised bucket is problematic exactly
    when its upper end is at least 87 (so not at 86.9, and always at 87.0),
    and its severity is blocker from 95, critical from 92, high from 87 and
    info below. *)
Theorem duplication_threshold_87 (b : Bucket) :
  (isProblematic (annotate 87 b) = true <-> 87 <= percent_to b) /\
  (percent_to b == 869 # 10 -> isProblematic (annotate 87 b) = false) /\
  (percent_to b == 87 -> isProblematic (annotate 87 b) = true) /\
  (95 <= percent_to b -> severity (annotate 87 b) = blocker) /\
  (92 <= percent_to b < 95 -> severity (annotate 87 b) = critical) /\
  (87 <= percent_to b < 92 -> severity (annotate 87 b) = high) /\
  (percent_to b < 87 -> severity (annotate 87 b) = info).
Proof.
  cbn [isProblematic severity annotate]. unfold crossesThreshold, severityOf.
  split_and!.
  - apply Qle_bool_iff.
  - intros E. apply Qle_bool_gt. rewrite E. reflexivity.
  - intros E. apply Qle_bool_iff. rewrite E. discriminate.
  - intros H. apply Qle_bool_iff in H. by rewrite H.
  - intros [H1 H2]. apply Qle_bool_iff in H1. apply Qle_bool_gt in H2.
    by rewrite H2, H1.
  - intros [H1 H2]. apply Qle_bool_iff in H1.
    assert (H3 : Qle_bool 95 (percent_to b) = false).
    { apply Qle_bool_gt. eapply Qlt_trans; [exact H2 | reflexivity]. }
    apply Qle_bool_gt in H2. by rewrite H3, H2, H1.
  - intros H.
    assert (H2 : Qle_bool 92 (percent_to b) = false).
    { apply Qle_bool_gt. eapply Qlt_trans; [exact H | reflexivity]. }
    assert (H3 : Qle_bool 95 (percent_to b) = false).
    { apply Qle_bool_gt. eapply Qlt_trans; [exact H | reflexivity]. }
    apply Qle_bool_gt in H. by rewrite H3, H2, H.
Qed.

(** The two boundary buckets of the specification, from raw values. *)
Example boundary_buckets :
  map (fun a => (isProblematic a, severity a))
      (annotated 87 [raw 80 (869 # 10) 4; raw 80 87 4; raw (9 # 10) (93 # 100) 1]) =
  [(false, info); (true, high); (true, critical)].
Proof. reflexivity. Qed.

(** ** Which buckets are kept *)

(** The value is a number other than [NaN]. *)
Definition is_number (v : value) : Prop :=
  match v with
  | VNumber NaN => False
  | VNumber _ => True
  | _ => False
  end.

Lemma normPct_finite (v : value) : isFinite (normPct v) = true <-> is_number v.
Proof.
  destruct v as [| |[| |q|]]; cbn [is_number]; try (cbn; split; [discriminate | tauto]).
  - cbn. tauto.
  - rewrite normPct_Fin. cbn. tauto.
  - cbn. tauto.
Qed.

Lemma normPct_Fin_range (v : value) (q : Q) : normPct v = Fin q -> 0 <= q <= 100.
Proof.
  intros H. destruct (normPct_hundredths v) as [E|(k & Hk & E)]; rewrite E in H; [discriminate|].
  injection H as <-. by apply hundredths_range.
Qed.


(** X12: with a threshold of 92 or less, the buckets flagged as problematic are
    exactly those whose severity is not [info]. *)
Theorem problematic_iff_severity (threshold : Q) (b : Bucket) :
  threshold <= 92 ->
  (isProblematic (annotate threshold b) = true <-> severity (annotate threshold b) <> info).
Proof.
  intros Hthr. cbn [isProblematic severity annotate]. unfold crossesThreshold, severityOf.
  destruct (Qle_bool threshold (percent_to b)) eqn:E.
  - split; [|reflexivity]. intros _.
    destruct (Qle_bool 95 _); [discriminate|]. destruct (Qle_bool 92 _); discriminate.
  - apply Qle_bool_gt in E.
    assert (H92 : Qle_bool 92 (percent_to b) = false) by (apply Qle_bool_gt; lra).
    assert (H95 : Qle_bool 95 (percent_to b) = false) by (apply Qle_bool_gt; lra).
    rewrite H92, H95. split; [discriminate | congruence].
Qed.

Lemma problematic_iff_severity_example :
  isProblematic (annotate 87 {| percent_from := 80; percent_to := 93; pairs := 1 |}) = true <->
  severity (annotate 87 {| percent_from := 80; percent_to := 93; pairs := 1 |}) <> info.
Proof.
  apply (problematic_iff_severity 87 {| percent_from := 80; percent_to := 93; pairs := 1 |}).
  discriminate.
Defined.

(** ** The report *)

Section Report.

Variable threshold : Q.

(** [priorityScore], a rounded product of the distance to the threshold and
    the base-10 logarithm of the pair count plus ten: an integer for every
    pair count above -10.  Nothing else is assumed about it. *)
Variable priorityScore : Bucket -> Z.

Definition priority (a : Annotated) : Z := priorityScore (bucket a).

(** The comparator of [sortedProblem]. *)
Definition by_priority (a b : Annotated) : Q :=
  Js.or_cmpQ
    (Js.or_cmpQ (inject_Z (priority b - priority a))
                (percent_to (bucket b) - percent_to (bucket a)))
    (inject_Z (pairs (bucket b) - pairs (bucket a))).

(** The comparator of [sortedNonProblem]. *)
Definition by_percent (a b : Annotated) : Q :=
  Js.or_cmpQ (percent_to (bucket b) - percent_to (bucket a))
             (inject_Z (pairs (bucket b) - pairs (bucket a))).

Definition sum_pairs (l : list Annotated) : Z :=
  fold_left (fun s b => (s + pairs (bucket b))%Z) l 0%Z.

Definition problemBuckets (l : list Annotated) : list Annotated :=
  List.filter isProblematic l.

Definition sortedProblem (l : list Annotated) : list Annotated :=
  Js.sortQ by_priority (problemBuckets l).

Definition sortedNonProblem (l : list Annotated) : list Annotated :=
  Js.sortQ by_percent (List.filter (fun b => negb (isProblematic b)) l).

Definition resultBuckets (includeBelow : bool) (l : list Annotated) : list Annotated :=
  if includeBelow then sortedProblem l ++ sortedNonProblem l else sortedProblem l.

Record Summary := {
  totalBuckets : nat;
  totalPairs : Z;
  problematicBuckets : nat;
  problematicPairs : Z
}.

Definition summary (l : list Annotated) : Summary :=
  {| totalBuckets := length l;
     totalPairs := sum_pairs l;
     problematicBuckets := length (sortedProblem l);
     problematicPairs := sum_pairs (problemBuckets l) |}.

(** The order of the problematic buckets: higher priority first, then the
    higher upper end, then the larger pair count. *)
Definition ahead_problem (a b : Annotated) : Prop :=
  (priority b < priority a)%Z \/
  (priority a = priority b /\
   (percent_to (bucket b) < percent_to (bucket a) \/
    (percent_to (bucket a) == percent_to (bucket b) /\
     (pairs (bucket b) <= pairs (bucket a))%Z))).

(** The order of the other buckets. *)
Definition ahead_other (a b : Annotated) : Prop :=
  percent_to (bucket b) < percent_to (bucket a) \/
  (percent_to (bucket a) == percent_to (bucket b) /\
   (pairs (bucket b) <= pairs (bucket a))%Z).

End Report.

Lemma by_percent_ahead (a b : Annotated) :
  Qle_bool (by_percent a b) 0 = true <-> ahead_other a b.
Proof.
  unfold by_percent, ahead_other. rewrite or_cmpQ_le, inject_Z_sub_nonpos.
  split; (intros [H|[H1 H2]]; [left; lra | right; split; [lra | exact H2]]).
Qed.

Lemma by_priority_ahead (priorityScore : Bucket -> Z) (a b : Annotated) :
  Qle_bool (by_priority priorityScore a b) 0 = true <-> ahead_problem priorityScore a b.
Proof.
  unfold by_priority, ahead_problem.
  rewrite or_cmpQ_le, or_cmpQ_lt, or_cmpQ_eq, inject_Z_sub_neg, inject_Z_sub_zero,
    inject_Z_sub_nonpos.
  split.
  - intros [[H|[H1 H2]]|[[H1 H2] H3]].
    + by left.
    + right. split; [done|]. left. lra.
    + right. split; [done|]. right. split; [lra | exact H3].
  - intros [H|[H1 [H2|[H2 H3]]]].
    + left. by left.
    + left. right. split; [done | lra].
    + right. split; [split; [done | lra] | exact H3].
Qed.

Lemma sum_pairs_from (l : list Annotated) (s : Z) :
  fold_left (fun s b => (s + pairs (bucket b))%Z) l s = (s + sum_pairs l)%Z.
Proof.
  unfold sum_pairs. revert s. induction l as [|b l IH]; intros s; cbn [fold_left]; [lia|].
  rewrite IH, (IH (0 + _)%Z). lia.
Qed.

Lemma sum_pairs_cons (b : Annotated) (l : list Annotated) :
  sum_pairs (b :: l) = (pairs (bucket b) + sum_pairs l)%Z.
Proof. unfold sum_pairs at 1. cbn [fold_left]. rewrite sum_pairs_from. lia. Qed.

Lemma sum_pairs_split (l : list Annotated) :
  sum_pairs l =
  (sum_pairs (List.filter isProblematic l) +
   sum_pairs (List.filter (fun b => negb (isProblematic b)) l))%Z.
Proof.
  induction l as [|b l IH]; [reflexivity|].
  cbn [List.filter]. destruct (isProblematic b); cbn [negb]; rewrite !sum_pairs_cons; lia.
Qed.

Lemma filter_split_perm {A} (f : A -> bool) (l : list A) :
  List.filter f l ++ List.filter (fun x => negb (f x)) l ≡ₚ l.
Proof.
  induction l as [|x l IH]; [reflexivity|].
  cbn [List.filter]. destruct (f x); cbn [negb].
  - cbn. by rewrite IH.
  - rewrite <- Permutation_middle. by rewrite IH.
Qed.

(** X13: the report of the duplication tool, for any integer-valued priority.
    With [includeBelow] the result lists every kept bucket once, the
    problematic ones first; without it, the problematic ones only.  The
    problematic buckets are ordered by priority, then upper end, then pair
    count, all descending; the others by upper end, then pair count.  The
    summary counts split accordingly. *)
Theorem resultBuckets_spec (threshold : Q) (priorityScore : Bucket -> Z)
    (rawBuckets : list RawBucket) :
  let l := annotated threshold rawBuckets in
  let problem := sortedProblem priorityScore l in
  let others := sortedNonProblem l in
  resultBuckets priorityScore true l = problem ++ others /\
  resultBuckets priorityScore false l = problem /\
  problem ++ others ≡ₚ l /\
  Forall (fun a => threshold <= percent_to (bucket a)) problem /\
  Forall (fun a => percent_to (bucket a) < threshold) others /\
  StronglySorted (ahead_problem priorityScore) problem /\
  StronglySorted ahead_other others /\
  (totalBuckets (summary priorityScore l) =
     problematicBuckets (summary priorityScore l) + length others)%nat /\
  totalPairs (summary priorityScore l) =
    (problematicPairs (summary priorityScore l) +
     sum_pairs (List.filter (fun b => negb (isProblematic b)) l))%Z.
Proof.
  cbv zeta.
  set (l := annotated threshold rawBuckets).
  assert (Hflag : forall a, a ∈ l ->
            isProblematic a = Qle_bool threshold (percent_to (bucket a))).
  { intros a Ha. unfold l, annotated in Ha. apply list_elem_of_fmap in Ha as (b & -> & _).
    reflexivity. }
  assert (Hperm : sortedProblem priorityScore l ++ sortedNonProblem l ≡ₚ l).
  { unfold sortedProblem, sortedNonProblem, problemBuckets, Js.sortQ.
    rewrite !Js.sort_perm. apply filter_split_perm. }
  split_and!.
  - reflexivity.
  - reflexivity.
  - exact Hperm.
  - apply Forall_forall. intros a Ha.
    unfold sortedProblem, problemBuckets in Ha. apply Js.elem_of_sortQ in Ha.
    apply list_elem_of_In, filter_In in Ha as [Ha Hp]. apply list_elem_of_In in Ha.
    rewrite (Hflag _ Ha) in Hp. by apply Qle_bool_iff.
  - apply Forall_forall. intros a Ha.
    unfold sortedNonProblem in Ha. apply Js.elem_of_sortQ in Ha.
    apply list_elem_of_In, filter_In in Ha as [Ha Hp]. apply list_elem_of_In in Ha.
    rewrite (Hflag _ Ha) in Hp. apply negb_true_iff in Hp. by apply Qle_bool_gt.
  - apply Js.sortQ_sorted.
    + intros a b. apply by_priority_ahead.
    + intros a b. unfold ahead_problem.
      destruct (Z.lt_trichotomy (priority priorityScore a) (priority priorityScore b))
        as [H|[H|H]]; [right; by left | | left; by left].
      destruct (Qlt_le_dec (percent_to (bucket a)) (percent_to (bucket b))) as [Hq|Hq];
        [right; right; split; [done|]; by left|].
      destruct (Qlt_le_dec (percent_to (bucket b)) (percent_to (bucket a))) as [Hq'|Hq'];
        [left; right; split; [done|]; by left|].
      assert (Heq : percent_to (bucket a) == percent_to (bucket b)) by lra.
      destruct (Z.le_ge_cases (pairs (bucket a)) (pairs (bucket b))).
      * right. right. split; [done|]. right. split; [lra | done].
      * left. right. split; [done|]. right. split; [done | lia].
    + intros a b c. unfold ahead_problem.
      intros [H1|[H1 H1']] [H2|[H2 H2']]; try (left; lia).
      right. split; [lia|].
      destruct H1' as [H1'|[H1' H1'']], H2' as [H2'|[H2' H2'']]; try (left; lra).
      right. split; [lra | lia].
  - apply Js.sortQ_sorted.
    + intros a b. apply by_percent_ahead.
    + intros a b. unfold ahead_other.
      destruct (Qlt_le_dec (percent_to (bucket a)) (percent_to (bucket b))) as [Hq|Hq];
        [right; by left|].
      destruct (Qlt_le_dec (percent_to (bucket b)) (percent_to (bucket a))) as [Hq'|Hq'];
        [left; by left|].
      destruct (Z.le_ge_cases (pairs (bucket a)) (pairs (bucket b))).
      * right. right. split; [lra | done].
      * left. right. split; [lra | lia].
    + intros a b c. unfold ahead_other.
      intros [H1|[H1 H1']] [H2|[H2 H2']]; try (left; lra).
      right. split; [lra | lia].
  - cbn [totalBuckets problematicBuckets summary].
    rewrite <- length_app. by rewrite Hperm.
  - cbn [totalPairs problematicPairs summary]. apply sum_pairs_split.
Qed.

End Duplicate.

(* ===================================================================== *)
(** * Backlink opportunity pipeline (tool [babbar_backlink_opportunities_spotfinder]) *)
(* ===================================================================== *)

Module Backlinks.
Import JsNum.
Local Open Scope Q_scope.

(** ** Stage 0: best rank per URL *)

(** The type [KwRow] of the source: a keyword of the analysed host, the
    page that ranks and its rank ([Infinity] when the provider gives none). *)
Record KwRow := {
  kw_keyword : string;
  kw_url : option string;
  kw_rank : num
}.

(** One iteration of the loop that fills [bestRankByUrl]. *)
Definition bestRank_step (m : gmap string num) (row : KwRow) : gmap string num :=
  match kw_url row with
  | None => m
  | Some u =>
      if String.eqb u "" then m
      else
        let prev := Js.nullish (m !! u) PosInf in
        if ltb (kw_rank row) prev then <[u := kw_rank row]> m else m
  end.

Definition bestRankByUrl (baseKw : list KwRow) : gmap string num :=
  fold_left bestRank_step baseKw ∅.

(** ** Stage 1: targets *)

(** An internal page as the provider returns it. *)
Record Page := {
  page_url : option string;
  page_link : option string;
  page_target : option string;
  page_semanticValue : option Q;
  page_sv : option Q;
  page_pageValue : option Q;
  page_pv : option Q
}.

Record Candidate := {
  url : string;
  sv : Q;
  pv : Q
}.

(** The [map] and the [filter] that build [candidates]: [None] for a page
    without usable URL. *)
Definition candidate_of (p : Page) : option Candidate :=
  let u :=
    match page_url p with
    | Some u => Some u
    | None => match page_link p with
              | Some u => Some u
              | None => page_target p
              end
    end in
  match u with
  | None => None
  | Some u =>
      if String.eqb u "" then None
      else Some {| url := u;
                   sv := Js.nullish (page_semanticValue p) (Js.nullish (page_sv p) 0);
                   pv := Js.nullish (page_pageValue p) (Js.nullish (page_pv p) 0) |}
  end.

(** [!(br !== undefined && br < 5)] *)
Definition rank_ok (best : gmap string num) (c : Candidate) : bool :=
  match best !! url c with
  | Some br => negb (ltb br (of_Z 5))
  | None => true
  end.

Definition by_sv_pv (a b : Candidate) : Q := Js.or_cmpQ (sv b - sv a) (pv b - pv a).
Definition by_sv (a b : Candidate) : Q := sv b - sv a.

(** [Array.from(new Set(l))]: the first occurrence of each element, in
    order. *)
Fixpoint dedupe (l : list string) : list string :=
  match l with
  | [] => []
  | x :: l' => x :: filter (fun y => y <> x) (dedupe l')
  end.

(** The pages that pass the rank filter, sorted. *)
Definition filtered (best : gmap string num) (candidates : list Candidate) : list Candidate :=
  Js.sortQ by_sv_pv (filter (fun c => rank_ok best c = true) candidates).

(** The automatic selection, run when no target was supplied. *)
Definition autoTargets (best : gmap string num) (internalPages : list Page) (maxTargets : Z)
  : list string :=
  let candidates := omap candidate_of internalPages in
  let targets := Js.slice0 maxTargets (dedupe (map url (filtered best candidates))) in
  if (length targets =? 0)%nat && negb (length candidates =? 0)%nat
  then Js.slice0 maxTargets (dedupe (map url (Js.sortQ by_sv candidates)))
  else targets.

Definition selectTargets (initialTargets : option (list string))
    (best : gmap string num) (internalPages : list Page) (maxTargets : Z) : list string :=
  let targets := match initialTargets with Some l => l | None => [] end in
  if (length targets =? 0)%nat then autoTargets best internalPages maxTargets
  else targets.

(** ** Stage 2: hosts that already link to the analysed host *)

Record HostRow := {
  h_host : option string;
  h_domain : option string;
  h_name : option string
}.

(** [h.host || h.domain || h.name], kept when truthy. *)
Definition ref_host (h : HostRow) : option string :=
  let s := Js.or_str (h_host h) (Js.or_str (h_domain h) (Js.or_str (h_name h) "")) in
  if String.eqb s "" then None else Some s.

Definition ourRefHosts (rows : list HostRow) : gset string :=
  list_to_set (omap ref_host rows).

(** ** Stage 4: the pool of source pages *)

Record SfHost := {
  sf_host : string;
  sf_score : Q
}.

(** A top page of a discovered host; each metric is the first field present
    among its spellings, 0 when none is. *)
Record UrlRow := {
  u_url : option string;
  u_semanticValue : Q;
  u_pageValue : Q;
  u_babbarAuthorityScore : Q
}.

Record Source := {
  src_url : option string;
  src_host : string;
  semanticValue : Q;
  pageValue : Q;
  babbarAuthorityScore : Q;
  spotfinderScore : Q
}.

Definition source_of (h : SfHost) (u : UrlRow) : Source :=
  {| src_url := u_url u; src_host := sf_host h;
     semanticValue := u_semanticValue u; pageValue := u_pageValue u;
     babbarAuthorityScore := u_babbarAuthorityScore u;
     spotfinderScore := sf_score h |}.

(** The loop over the discovered hosts.  Each host comes with the answer to
    its top-pages call, [None] when the call failed; the loop stops once the
    pool has reached its cap. *)
Fixpoint collect (topPagesPerHost sourcesPoolCap : Z)
    (hosts : list (SfHost * option (list UrlRow))) (sources : list Source) : list Source :=
  match hosts with
  | [] => sources
  | (h, topResp) :: rest =>
      let sources' :=
        match topResp with
        | Some urls => sources ++ map (source_of h) (Js.slice0 topPagesPerHost urls)
        | None => sources
        end in
      if (sourcesPoolCap <=? Z.of_nat (length sources'))%Z then sources'
      else collect topPagesPerHost sourcesPoolCap rest sources'
  end.

(** [map.set(k, v)] on an insertion-ordered [Map]: an existing key keeps its
    place and takes the new value. *)
Fixpoint map_set {V} (k : option string) (v : V) (m : list (option string * V))
  : list (option string * V) :=
  match m with
  | [] => [(k, v)]
  | (k', v') :: m' =>
      if decide (k = k') then (k, v) :: m' else (k', v') :: map_set k v m'
  end.

(** [Array.from(new Map(entries).values())] *)
Definition map_values {V} (entries : list (option string * V)) : list V :=
  map snd (fold_left (fun m e => map_set (fst e) (snd e) m) entries []).

Definition truthy (s : option string) : bool :=
  match s with
  | Some s => negb (String.eqb s "")
  | None => false
  end.

Definition uniqueSources (excluded : gset string) (sources : list Source) : list Source :=
  filter (fun p => truthy (src_url p) = true /\ String.eqb (src_host p) "" = false /\
                   src_host p ∉ excluded)
         (map_values (map (fun p => (src_url p, p)) sources)).

(** ** Stage 5: induced strength of the (source, target) pairs *)

Record Opp := {
  prospectUrl : string;
  prospectHost : string;
  targetUrl : string;
  inducedStrength : Q;
  confidence : option string;
  prospect_semanticValue : Q;
  prospect_pageValue : Q;
  prospect_babbarAuthorityScore : Q;
  fromHost : string;
  opp_spotfinderScore : Q
}.

Definition by_metrics (a b : Source) : Q :=
  Js.or_cmpQ (semanticValue b - semanticValue a)
    (Js.or_cmpQ (pageValue b - pageValue a) (spotfinderScore b - spotfinderScore a)).

Definition preselected (maxCandidatesPerTarget : Z) (unique : list Source) : list Source :=
  Js.slice0 maxCandidatesPerTarget (Js.sortQ by_metrics unique).

Section Fi.

(** [getFi]: the induced strength the provider answers for a pair and its
    confidence; a failed call counts as strength 0. *)
Variable getFi : string -> string -> Q * option string.
Variable fiThreshold : Q.

(** The unit of work submitted for the pair [(p, target)]: the record it
    pushes to [ops], if any. *)
Definition pair_opp (target : string) (p : Source) : option Opp :=
  let u := default "" (src_url p) in
  let '(fi, conf) := getFi u target in
  if Qle_bool fiThreshold fi then
    Some {| prospectUrl := u; prospectHost := src_host p; targetUrl := target;
            inducedStrength := fi; confidence := conf;
            prospect_semanticValue := semanticValue p;
            prospect_pageValue := pageValue p;
            prospect_babbarAuthorityScore := babbarAuthorityScore p;
            fromHost := src_host p; opp_spotfinderScore := spotfinderScore p |}
  else None.

(** The records of one target, in submission order. *)
Definition batch (pre : list Source) (target : string) : list Opp :=
  omap (pair_opp target) pre.

(** The contents of [ops] after the loop over the targets: the targets are
    handled one after the other, and the units of one target push their
    records in the order in which they complete. *)
Definition pushed (pre : list Source) (targets : list string) (ops : list Opp) : Prop :=
  exists blocks, Forall2 (fun blk t => blk ≡ₚ batch pre t) blocks targets /\ ops = concat blocks.

End Fi.

Definition by_strength (a b : Opp) : Q :=
  Js.or_cmpQ (inducedStrength b - inducedStrength a)
    (Js.or_cmpQ (opp_spotfinderScore b - opp_spotfinderScore a)
       (prospect_semanticValue b - prospect_semanticValue a)).

(** [opportunities], given the contents of [ops]; the two early returns
    answer an empty list. *)
Definition opportunities (sfHosts : list (SfHost * option (list UrlRow)))
    (unique : list Source) (topLimit : Z) (ops : list Opp) : list Opp :=
  if (length sfHosts =? 0)%nat then []
  else if (length unique =? 0)%nat then []
  else Js.slice0 topLimit (Js.sortQ by_strength ops).

(** ** Facts about the stages *)

Lemma elem_of_dedupe (l : list string) (x : string) : x ∈ dedupe l <-> x ∈ l.
Proof.
  induction l as [|y l IH]; cbn [dedupe]; [reflexivity|].
  rewrite !elem_of_cons, list_elem_of_filter, IH.
  destruct (decide (x = y)); tauto.
Qed.

Lemma elem_of_ourRefHosts (rows : list HostRow) (h : string) :
  h ∈ ourRefHosts rows <-> exists row, row ∈ rows /\ ref_host row = Some h.
Proof.
  unfold ourRefHosts. rewrite elem_of_list_to_set. apply list_elem_of_omap.
Qed.

Lemma uniqueSources_allowed (excluded : gset string) (sources : list Source) (p : Source) :
  p ∈ uniqueSources excluded sources -> src_host p ∉ excluded.
Proof.
  unfold uniqueSources. rewrite list_elem_of_filter. tauto.
Qed.

Lemma preselected_unique (n : Z) (unique : list Source) (p : Source) :
  p ∈ preselected n unique -> p ∈ unique.
Proof.
  unfold preselected. intros H. apply Js.elem_of_slice0 in H.
  by apply Js.elem_of_sortQ in H.
Qed.

Lemma elem_of_batch getFi thr (pre : list Source) (t : string) (o : Opp) :
  o ∈ batch getFi thr pre t ->
  exists p, p ∈ pre /\ prospectHost o = src_host p /\ targetUrl o = t /\
            (thr <= inducedStrength o).
Proof.
  unfold batch. rewrite list_elem_of_omap. intros (p & Hp & Ho).
  exists p. split; [exact Hp|]. unfold pair_opp in Ho.
  destruct (getFi _ t) as [fi conf].
  destruct (Qle_bool thr fi) eqn:E; [|discriminate].
  injection Ho as <-. cbn. by apply Qle_bool_iff in E.
Qed.

Lemma elem_of_pushed getFi thr (pre : list Source) (targets : list string)
    (ops : list Opp) (o : Opp) :
  pushed getFi thr pre targets ops -> o ∈ ops ->
  exists t, t ∈ targets /\ o ∈ batch getFi thr pre t.
Proof.
  intros (blocks & HF & ->). induction HF as [|blk t blocks targets Hb HF IH]; cbn [concat].
  - intros H. by apply elem_of_nil in H.
  - rewrite elem_of_app. intros [H|H].
    + exists t. split; [left | by rewrite <- Hb].
    + destruct (IH H) as (t' & Ht' & Ho). exists t'. split; [by right | exact Ho].
Qed.

Lemma elem_of_opportunities sfHosts unique topLimit ops (o : Opp) :
  o ∈ opportunities sfHosts unique topLimit ops -> o ∈ ops.
Proof.
  unfold opportunities.
  destruct (length sfHosts =? 0)%nat; [intros H; by apply elem_of_nil in H|].
  destruct (length unique =? 0)%nat; [intros H; by apply elem_of_nil in H|].
  intros H. apply Js.elem_of_slice0 in H. by apply Js.elem_of_sortQ in H.
Qed.

(** Some keyword row of the page [u] ranks better than 5th. *)
Definition ranks_below_5 (baseKw : list KwRow) (u : string) : Prop :=
  exists row, row ∈ baseKw /\ kw_url row = Some u /\ ltb (kw_rank row) (of_Z 5) = true.

(** The order of the sorted candidates: semantic value descending, then
    popularity value descending. *)
Definition ahead (a b : Candidate) : Prop :=
  sv b < sv a \/ (sv b == sv a /\ pv b <= pv a).

Lemma bestRank_step_spec (m : gmap string num) (row : KwRow) (u : string) :
  u <> "" -> (forall k r, m !! k = Some r -> r <> NaN) ->
  (forall k r, bestRank_step m row !! k = Some r -> r <> NaN) /\
  ((exists r, bestRank_step m row !! u = Some r /\ ltb r (of_Z 5) = true) <->
   (exists r, m !! u = Some r /\ ltb r (of_Z 5) = true) \/
   (kw_url row = Some u /\ ltb (kw_rank row) (of_Z 5) = true)).
Proof.
  intros Hu Hm. unfold bestRank_step.
  destruct (kw_url row) as [u'|]; [|split; [exact Hm | intuition congruence]].
  destruct (String.eqb_spec u' "") as [->|Hu'];
    [split; [exact Hm | intuition congruence]|].
  cbv zeta. destruct (ltb (kw_rank row) _) eqn:Elt.
  - split.
    + intros k r. rewrite lookup_insert. case_decide.
      * intros [= <-]. by eapply ltb_not_NaN.
      * apply Hm.
    + destruct (decide (u' = u)) as [->|Hne].
      * rewrite lookup_insert_eq. split.
        -- intros (r & [= <-] & Hr). by right.
        -- intros [(r & Er & Hr)|[_ Hr]]; [|by eauto].
           rewrite Er in Elt. cbn [Js.nullish] in Elt.
           eexists; split; [reflexivity|]. by eapply ltb_trans.
      * rewrite lookup_insert_ne by done. split; [by left|].
        intros [H|[[= E] _]]; [exact H | contradiction].
  - split; [exact Hm|]. split; [by left|].
    intros [H|[[= ->] Hr]]; [exact H|].
    destruct (m !! u) as [r|] eqn:Er; cbn [Js.nullish] in Elt.
    + exists r. split; [reflexivity|].
      eapply ltb_between; [by eapply Hm | exact Elt | exact Hr].
    + exfalso. assert (H : ltb PosInf (of_Z 5) = true)
        by (eapply ltb_between; [discriminate | exact Elt | exact Hr]).
      discriminate H.
Qed.

Lemma fold_bestRank_spec (l : list KwRow) (m : gmap string num) (u : string) :
  u <> "" -> (forall k r, m !! k = Some r -> r <> NaN) ->
  ((exists r, fold_left bestRank_step l m !! u = Some r /\ ltb r (of_Z 5) = true) <->
   (exists r, m !! u = Some r /\ ltb r (of_Z 5) = true) \/ ranks_below_5 l u).
Proof.
  intros Hu. revert m. induction l as [|row l IH]; intros m Hm; cbn [fold_left].
  - split; [by left|]. intros [H|(row & Hrow & _)]; [exact H|].
    by apply elem_of_nil in Hrow.
  - destruct (bestRank_step_spec m row u Hu Hm) as [Hm' Hstep].
    rewrite (IH _ Hm'), Hstep. unfold ranks_below_5. split.
    + intros [[H|H]|(r & Hr & H)]; [by left | right | right].
      * exists row. split; [left | exact H].
      * exists r. split; [by right | exact H].
    + intros [H|(r & Hr & H)]; [by left; left|].
      apply elem_of_cons in Hr as [->|Hr]; [left; by right|].
      right. by exists r.
Qed.

(** The map holds a rank below 5 for a page exactly when one of the page's
    keyword rows ranks below 5. *)
Lemma bestRankByUrl_below_5 (baseKw : list KwRow) (u : string) :
  u <> "" ->
  (exists r, bestRankByUrl baseKw !! u = Some r /\ ltb r (of_Z 5) = true) <->
  ranks_below_5 baseKw u.
Proof.
  intros Hu. unfold bestRankByUrl. rewrite fold_bestRank_spec; [|exact Hu|].
  - split; [|by right]. intros [(r & Hr & _)|H]; [|exact H].
    by rewrite lookup_empty in Hr.
  - intros k r Hr. by rewrite lookup_empty in Hr.
Qed.

Lemma candidate_of_url (p : Page) (c : Candidate) :
  candidate_of p = Some c -> url c <> "".
Proof.
  unfold candidate_of.
  destruct (match page_url p with Some _ => _ | None => _ end) as [u|]; [|discriminate].
  destruct (String.eqb_spec u ""); [discriminate|]. by intros [= <-].
Qed.

Lemma rank_ok_spec (baseKw : list KwRow) (c : Candidate) :
  url c <> "" ->
  rank_ok (bestRankByUrl baseKw) c = true <-> ~ ranks_below_5 baseKw (url c).
Proof.
  intros Hu. rewrite <- (bestRankByUrl_below_5 baseKw (url c) Hu). unfold rank_ok.
  destruct (bestRankByUrl baseKw !! url c) as [br|].
  - rewrite negb_true_iff. split.
    + intros H (r & [= <-] & Hr). congruence.
    + intros H. destruct (ltb br (of_Z 5)) eqn:E; [|reflexivity].
      exfalso. apply H. by exists br.
  - split; [intros _ (r & Hr & _); discriminate | reflexivity].
Qed.

Lemma by_sv_pv_ahead (a b : Candidate) :
  Qle_bool (by_sv_pv a b) 0 = true <-> ahead a b.
Proof.
  unfold by_sv_pv, ahead. rewrite or_cmpQ_le.
  split; intros [H|[H1 H2]]; [left|right|left|right]; try split; lra.
Qed.

Lemma filtered_sorted (best : gmap string num) (candidates : list Candidate) :
  StronglySorted ahead (filtered best candidates).
Proof.
  apply Js.sortQ_sorted.
  - apply by_sv_pv_ahead.
  - intros a b. unfold ahead.
    destruct (Qlt_le_dec (sv b) (sv a)) as [H|H]; [by left; left|].
    apply Qle_lt_or_eq in H as [H|H]; [by right; left|].
    destruct (Qlt_le_dec (pv a) (pv b)) as [H'|H'].
    + right. right. split; [by symmetry | by apply Qlt_le_weak].
    + left. right. by split.
  - intros a b c. unfold ahead. intros [H1|[H1 H1']] [H2|[H2 H2']];
      [left | left | left | right; split]; lra.
Qed.

Lemma elem_of_filtered (best : gmap string num) (candidates : list Candidate) (c : Candidate) :
  c ∈ filtered best candidates <-> c ∈ candidates /\ rank_ok best c = true.
Proof.
  unfold filtered. rewrite Js.elem_of_sortQ, list_elem_of_filter. tauto.
Qed.

(** C6: whatever the provider answers for the induced strengths and in
    whatever order the units complete, no returned opportunity has a host
    of the exclusion set; in particular a collected source whose host is
    excluded is the prospect of no opportunity. *)
Theorem excluded_hosts_never_returned
    (getFi : string -> string -> Q * option string) (fiThreshold : Q)
    (hostRows : list HostRow) (sfHosts : list (SfHost * option (list UrlRow)))
    (topPagesPerHost sourcesPoolCap maxCandidatesPerTarget topLimit : Z)
    (targets : list string) (ops : list Opp) :
  let excluded := ourRefHosts hostRows in
  let sources := collect topPagesPerHost sourcesPoolCap sfHosts [] in
  let unique := uniqueSources excluded sources in
  let pre := preselected maxCandidatesPerTarget unique in
  pushed getFi fiThreshold pre targets ops ->
  Forall (fun o => prospectHost o ∉ excluded) (opportunities sfHosts unique topLimit ops) /\
  (forall p, p ∈ sources -> src_host p ∈ excluded ->
     Forall (fun o => prospectHost o <> src_host p) (opportunities sfHosts unique topLimit ops)).
Proof.
  cbv zeta. intros Hpushed.
  assert (Hall : forall o,
    o ∈ opportunities sfHosts
          (uniqueSources (ourRefHosts hostRows) (collect topPagesPerHost sourcesPoolCap sfHosts []))
          topLimit ops ->
    prospectHost o ∉ ourRefHosts hostRows).
  { intros o Ho. apply elem_of_opportunities in Ho.
    destruct (elem_of_pushed _ _ _ _ _ _ Hpushed Ho) as (t & _ & Hb).
    apply elem_of_batch in Hb as (p & Hp & -> & _).
    apply preselected_unique in Hp. by apply uniqueSources_allowed in Hp. }
  split.
  - apply Forall_forall. exact Hall.
  - intros p _ Hex. apply Forall_forall. intros o Ho E.
    apply Hall in Ho. rewrite E in Ho. contradiction.
Qed.

(** A run of the pipeline used as an example: the host [old.example] already
    links to the analysed site, [new.example] does not, and the provider
    answers strength 50 for every pair. *)
Definition ex_hostRows : list HostRow :=
  [ {| h_host := Some "old.example"; h_domain := None; h_name := None |} ].

Definition ex_sfHosts : list (SfHost * option (list UrlRow)) :=
  [ ({| sf_host := "old.example"; sf_score := 90 |},
     Some [ {| u_url := Some "https://old.example/a"; u_semanticValue := 50;
               u_pageValue := 50; u_babbarAuthorityScore := 50 |} ]);
    ({| sf_host := "new.example"; sf_score := 80 |},
     Some [ {| u_url := Some "https://new.example/b"; u_semanticValue := 40;
               u_pageValue := 30; u_babbarAuthorityScore := 20 |} ]) ].

Definition ex_getFi (source target : string) : Q * option string := (50, None).

Lemma excluded_hosts_example :
  let excluded := ourRefHosts ex_hostRows in
  let unique := uniqueSources excluded (collect 50 3000 ex_sfHosts []) in
  let pre := preselected 80 unique in
  let ops := batch ex_getFi 10 pre "https://site.example/" in
  Forall (fun o => prospectHost o ∉ excluded) (opportunities ex_sfHosts unique 25 ops) /\
  (forall p, p ∈ collect 50 3000 ex_sfHosts [] -> src_host p ∈ excluded ->
     Forall (fun o => prospectHost o <> src_host p) (opportunities ex_sfHosts unique 25 ops)).
Proof.
  cbv zeta.
  apply (excluded_hosts_never_returned ex_getFi 10 ex_hostRows ex_sfHosts 50 3000 80 25
           ["https://site.example/"]).
  eexists [_]. split; [constructor; [reflexivity | constructor]|].
  cbn [concat]. by rewrite app_nil_r.
Defined.

(** A site whose only internal page already ranks first on a keyword. *)
Definition strong_kw : list KwRow :=
  [ {| kw_keyword := "brand"; kw_url := Some "https://site.example/"; kw_rank := of_Z 1 |} ].

Definition strong_pages : list Page :=
  [ {| page_url := Some "https://site.example/"; page_link := None; page_target := None;
       page_semanticValue := Some 40; page_sv := None;
       page_pageValue := Some 30; page_pv := None |} ].

(** C7 (amended): without supplied targets, the candidates are the internal
    pages with a URL; the pages kept are those none of whose keyword rows
    ranks below 5, sorted by semantic value then popularity value, both
    descending; every target is the URL of a candidate; when a kept page
    exists (and [maxTargets] leaves room) or there is no candidate at all,
    the targets are the first [maxTargets] distinct URLs of the kept pages
    and none of them ranks below 5; when no target comes out of the kept
    pages although candidates exist, the targets are the first [maxTargets]
    distinct URLs of all candidates by descending semantic value. *)
Theorem autoTargets_spec (baseKw : list KwRow) (internalPages : list Page) (maxTargets : Z) :
  let best := bestRankByUrl baseKw in
  let candidates := omap candidate_of internalPages in
  let kept := filtered best candidates in
  let first_choice := Js.slice0 maxTargets (dedupe (map url kept)) in
  let targets := selectTargets None best internalPages maxTargets in
  (forall c, c ∈ kept <-> c ∈ candidates /\ ~ ranks_below_5 baseKw (url c)) /\
  StronglySorted ahead kept /\
  Forall (fun t => exists c, c ∈ candidates /\ url c = t) targets /\
  (first_choice <> [] \/ candidates = [] ->
     targets = first_choice /\ Forall (fun t => ~ ranks_below_5 baseKw t) targets) /\
  (first_choice = [] -> candidates <> [] ->
     targets = Js.slice0 maxTargets (dedupe (map url (Js.sortQ by_sv candidates)))).
Proof.
  cbv zeta.
  set (best := bestRankByUrl baseKw).
  set (candidates := omap candidate_of internalPages).
  set (kept := filtered best candidates).
  set (first_choice := Js.slice0 maxTargets (dedupe (map url kept))).
  assert (Hkept : forall c, c ∈ kept <-> c ∈ candidates /\ ~ ranks_below_5 baseKw (url c)).
  { intros c. unfold kept. rewrite elem_of_filtered. split; intros [Hc H]; split; try exact Hc.
    - apply rank_ok_spec; [|exact H].
      apply list_elem_of_omap in Hc as (pg & _ & Hpg). by eapply candidate_of_url.
    - apply rank_ok_spec; [|exact H].
      apply list_elem_of_omap in Hc as (pg & _ & Hpg). by eapply candidate_of_url. }
  assert (Hfirst : forall t, t ∈ first_choice -> exists c, c ∈ kept /\ url c = t).
  { intros t Ht. apply Js.elem_of_slice0, elem_of_dedupe, list_elem_of_fmap in Ht
      as (c & -> & Hc). by exists c. }
  assert (Hsel : selectTargets None best internalPages maxTargets =
                 if (length first_choice =? 0)%nat && negb (length candidates =? 0)%nat
                 then Js.slice0 maxTargets (dedupe (map url (Js.sortQ by_sv candidates)))
                 else first_choice) by reflexivity.
  rewrite Hsel. split_and!.
  - exact Hkept.
  - apply filtered_sorted.
  - apply Forall_forall. intros t Ht.
    destruct (_ && _).
    + apply Js.elem_of_slice0, elem_of_dedupe, list_elem_of_fmap in Ht as (c & -> & Hc).
      apply Js.elem_of_sortQ in Hc. by exists c.
    + destruct (Hfirst t Ht) as (c & Hc & <-). apply Hkept in Hc as [Hc _]. by exists c.
  - intros Hcase.
    assert (Hcond : (length first_choice =? 0)%nat && negb (length candidates =? 0)%nat = false).
    { destruct Hcase as [Hne| ->]; [|by rewrite andb_false_r].
      destruct first_choice; [congruence | reflexivity]. }
    rewrite Hcond. split; [reflexivity|].
    apply Forall_forall. intros t Ht.
    destruct (Hfirst t Ht) as (c & Hc & <-). by apply Hkept in Hc as [_ Hc].
  - intros -> Hne. destruct candidates; [congruence | reflexivity].
Qed.

(** C7, as stated, fails when every internal page already ranks below 5:
    the fallback selects such a page. *)
Lemma fallback_selects_strong_page :
  selectTargets None (bestRankByUrl strong_kw) strong_pages 6 = ["https://site.example/"] /\
  ranks_below_5 strong_kw "https://site.example/".
Proof.
  split; [by vm_compute|].
  eexists. split; [left|]. split; reflexivity.
Qed.

(** ** Further facts about the stages *)

Lemma ltb_irrefl (a : num) : ltb a a = false.
Proof.
  destruct a as [| |x|]; try reflexivity. cbn. apply Qltb_ge, Qle_refl.
Qed.

Lemma ltb_PosInf (a b : num) : ltb a b = true -> ltb a PosInf = true.
Proof. destruct a as [| |x|], b as [| |y|]; cbn; congruence. Qed.

Lemma ltb_none_below (x r r' : num) :
  ltb x r = false -> ltb r' r = true -> ltb x r' = false.
Proof.
  intros H1 H2. destruct (ltb x r') eqn:E; [|reflexivity].
  rewrite (ltb_trans _ _ _ E H2) in H1. discriminate.
Qed.

Lemma bestRankByUrl_snoc (l : list KwRow) (row : KwRow) :
  bestRankByUrl (l ++ [row]) = bestRank_step (bestRankByUrl l) row.
Proof. unfold bestRankByUrl. by rewrite fold_left_app. Qed.

(** What [bestRankByUrl] holds for a page. *)
Definition best_rank_of (l : list KwRow) (u : string) (entry : option num) : Prop :=
  match entry with
  | Some r =>
      ltb r PosInf = true /\
      (exists row, row ∈ l /\ kw_url row = Some u /\ kw_rank row = r) /\
      (forall row, row ∈ l -> kw_url row = Some u -> ltb (kw_rank row) r = false)
  | None =>
      forall row, row ∈ l -> kw_url row = Some u -> ltb (kw_rank row) PosInf = false
  end.

Lemma best_rank_of_snoc_other (l : list KwRow) (row : KwRow) (u : string) (entry : option num) :
  kw_url row <> Some u -> best_rank_of l u entry -> best_rank_of (l ++ [row]) u entry.
Proof.
  intros Hne. destruct entry as [r|]; cbn [best_rank_of].
  - intros (Hr & (row0 & Hin & Hu0 & Hr0) & Hmin). split_and!; [exact Hr | |].
    + exists row0. split; [apply elem_of_app; by left | by split].
    + intros row' Hin' Hu'. apply elem_of_app in Hin' as [Hin'|Hin'].
      * by apply Hmin.
      * apply list_elem_of_singleton in Hin' as ->. contradiction.
  - intros Hnone row' Hin' Hu'. apply elem_of_app in Hin' as [Hin'|Hin'].
    + by apply Hnone.
    + apply list_elem_of_singleton in Hin' as ->. contradiction.
Qed.

Lemma bestRankByUrl_best (l : list KwRow) (u : string) :
  u <> "" -> best_rank_of l u (bestRankByUrl l !! u).
Proof.
  intros Hu. induction l as [|row l IH] using rev_ind.
  - unfold bestRankByUrl. cbn [fold_left]. rewrite lookup_empty. cbn.
    intros row Hrow. by apply elem_of_nil in Hrow.
  - rewrite bestRankByUrl_snoc. unfold bestRank_step.
    destruct (kw_url row) as [u'|] eqn:Eu; [|by apply best_rank_of_snoc_other; [congruence|]].
    destruct (String.eqb_spec u' "") as [->|Hne0];
      [apply best_rank_of_snoc_other; [congruence | exact IH]|].
    cbv zeta.
    destruct (decide (u' = u)) as [->|Hne].
    + destruct (ltb (kw_rank row) (Js.nullish (bestRankByUrl l !! u) PosInf)) eqn:Elt.
      * rewrite lookup_insert_eq. cbn [best_rank_of]. split_and!.
        -- by eapply ltb_PosInf.
        -- exists row. split; [apply elem_of_app; right; left | by split].
        -- intros row' Hin' Hurl'. apply elem_of_app in Hin' as [Hin'|Hin'].
           ++ destruct (bestRankByUrl l !! u) as [r|]; cbn [best_rank_of Js.nullish] in IH, Elt.
              ** destruct IH as (_ & _ & Hmin). eapply ltb_none_below; [by apply Hmin | exact Elt].
              ** eapply ltb_none_below; [by apply IH | exact Elt].
           ++ apply list_elem_of_singleton in Hin' as ->. apply ltb_irrefl.
      * destruct (bestRankByUrl l !! u) as [r|]; cbn [best_rank_of Js.nullish] in IH, Elt |- *.
        -- destruct IH as (Hr & (row0 & Hin & Hu0 & Hr0) & Hmin). split_and!; [exact Hr | |].
           ++ exists row0. split; [apply elem_of_app; by left | by split].
           ++ intros row' Hin' Hurl'. apply elem_of_app in Hin' as [Hin'|Hin'].
              ** by apply Hmin.
              ** by apply list_elem_of_singleton in Hin' as ->.
        -- intros row' Hin' Hurl'. apply elem_of_app in Hin' as [Hin'|Hin'].
           ++ by apply IH.
           ++ by apply list_elem_of_singleton in Hin' as ->.
    + assert (Hsame : (if ltb (kw_rank row) (Js.nullish (bestRankByUrl l !! u') PosInf)
                       then <[u' := kw_rank row]> (bestRankByUrl l)
                       else bestRankByUrl l) !! u = bestRankByUrl l !! u).
      { destruct (ltb _ _); [by rewrite lookup_insert_ne | reflexivity]. }
      rewrite Hsame. apply best_rank_of_snoc_other; [congruence | exact IH].
Qed.

(** X14: [bestRankByUrl] holds for a page the best (smallest) rank among the
    keyword rows of that page: the rank of one of them, which none of them
    beats.  A page has no entry exactly when none of its rows has a rank
    below [Infinity]. *)
Theorem bestRankByUrl_minimum (baseKw : list KwRow) (u : string) :
  u <> "" ->
  (forall r, bestRankByUrl baseKw !! u = Some r ->
     (exists row, row ∈ baseKw /\ kw_url row = Some u /\ kw_rank row = r) /\
     (forall row, row ∈ baseKw -> kw_url row = Some u -> ltb (kw_rank row) r = false)) /\
  (bestRankByUrl baseKw !! u = None <->
     forall row, row ∈ baseKw -> kw_url row = Some u -> ltb (kw_rank row) PosInf = false).
Proof.
  intros Hu. pose proof (bestRankByUrl_best baseKw u Hu) as H.
  destruct (bestRankByUrl baseKw !! u) as [r|]; cbn [best_rank_of] in H.
  - destruct H as (Hr & (row0 & Hin & Hu0 & Hr0) & Hmin). split.
    + intros r' [= <-]. split; [by exists row0 | exact Hmin].
    + split; [discriminate|]. intros Hnone.
      specialize (Hnone row0 Hin Hu0). rewrite Hr0 in Hnone. congruence.
  - split; [discriminate|]. split; [intros _; exact H | reflexivity].
Qed.

Lemma bestRankByUrl_minimum_example :
  (forall r, bestRankByUrl strong_kw !! "https://site.example/" = Some r ->
     (exists row, row ∈ strong_kw /\ kw_url row = Some "https://site.example/" /\
                  kw_rank row = r) /\
     (forall row, row ∈ strong_kw -> kw_url row = Some "https://site.example/" ->
                  ltb (kw_rank row) r = false)) /\
  (bestRankByUrl strong_kw !! "https://site.example/" = None <->
     forall row, row ∈ strong_kw -> kw_url row = Some "https://site.example/" ->
                 ltb (kw_rank row) PosInf = false).
Proof.
  apply (bestRankByUrl_minimum strong_kw "https://site.example/"). discriminate.
Defined.

(** *** Targets *)

Lemma NoDup_dedupe (l : list string) : NoDup (dedupe l).
Proof.
  induction l as [|x l IH]; cbn [dedupe]; [constructor|].
  constructor; [|by apply NoDup_filter].
  rewrite list_elem_of_filter. tauto.
Qed.

(** X15: the targets selected automatically are pairwise distinct and, for a
    non-negative [maxTargets], at most [maxTargets]; targets supplied by the
    caller are used as they are, neither deduplicated nor truncated. *)
Theorem selectTargets_bounds (best : gmap string num) (internalPages : list Page)
    (maxTargets : Z) :
  (0 <= maxTargets)%Z ->
  NoDup (selectTargets None best internalPages maxTargets) /\
  (Z.of_nat (length (selectTargets None best internalPages maxTargets)) <= maxTargets)%Z /\
  (forall t ts, selectTargets (Some (t :: ts)) best internalPages maxTargets = t :: ts).
Proof.
  intros Hmax.
  change (selectTargets None best internalPages maxTargets)
    with (autoTargets best internalPages maxTargets).
  unfold autoTargets. cbv zeta. split_and!.
  - destruct (_ && _); apply Js.NoDup_slice0, NoDup_dedupe.
  - destruct (_ && _); by apply Js.length_slice0.
  - reflexivity.
Qed.

Lemma selectTargets_bounds_example :
  NoDup (selectTargets None (bestRankByUrl strong_kw) strong_pages 6) /\
  (Z.of_nat (length (selectTargets None (bestRankByUrl strong_kw) strong_pages 6)) <= 6)%Z /\
  (forall t ts, selectTargets (Some (t :: ts)) (bestRankByUrl strong_kw) strong_pages 6 = t :: ts).
Proof.
  apply (selectTargets_bounds (bestRankByUrl strong_kw) strong_pages 6). lia.
Defined.

(** *** The pool of sources *)

Lemma collect_length (topPagesPerHost sourcesPoolCap : Z)
    (hosts : list (SfHost * option (list UrlRow))) (sources : list Source) :
  (0 <= topPagesPerHost)%Z ->
  (Z.of_nat (length (collect topPagesPerHost sourcesPoolCap hosts sources)) <=
   Z.max (Z.of_nat (length sources)) (sourcesPoolCap - 1) + topPagesPerHost)%Z.
Proof.
  intros Htp. revert sources. induction hosts as [|[h topResp] rest IH]; intros sources;
    cbn [collect]; [lia|].
  set (sources' := match topResp with
                   | Some urls => sources ++ map (source_of h) (Js.slice0 topPagesPerHost urls)
                   | None => sources
                   end).
  assert (Hlen : (Z.of_nat (length sources') <= Z.of_nat (length sources) + topPagesPerHost)%Z).
  { unfold sources'. destruct topResp as [urls|]; [|lia].
    rewrite length_app, length_map.
    pose proof (Js.length_slice0 topPagesPerHost urls Htp). lia. }
  destruct (Z.leb_spec sourcesPoolCap (Z.of_nat (length sources'))) as [Hcap|Hcap]; [lia|].
  specialize (IH sources'). lia.
Qed.

(** X16: the pool stops growing as soon as it has reached its cap: with a
    non-negative [topPagesPerHost] and a positive cap it holds fewer than
    [sourcesPoolCap + topPagesPerHost] sources, exceeding the cap by less
    than the pages of one host. *)
Theorem sources_pool_bound (topPagesPerHost sourcesPoolCap : Z)
    (hosts : list (SfHost * option (list UrlRow))) :
  (0 <= topPagesPerHost)%Z -> (0 < sourcesPoolCap)%Z ->
  (Z.of_nat (length (collect topPagesPerHost sourcesPoolCap hosts [])) <
   sourcesPoolCap + topPagesPerHost)%Z.
Proof.
  intros Htp Hcap.
  pose proof (collect_length topPagesPerHost sourcesPoolCap hosts [] Htp) as H.
  cbn [length] in H. lia.
Qed.

Lemma sources_pool_bound_example :
  (Z.of_nat (length (collect 50 3000 ex_sfHosts [])) < 3000 + 50)%Z.
Proof.
  apply (sources_pool_bound 50 3000 ex_sfHosts); lia.
Defined.

(** *** Deduplication by URL *)

Section MapSet.
Context {V : Type}.

Definition build (entries : list (option string * V)) : list (option string * V) :=
  fold_left (fun m e => map_set (fst e) (snd e) m) entries [].

Lemma build_snoc (entries : list (option string * V)) (e : option string * V) :
  build (entries ++ [e]) = map_set (fst e) (snd e) (build entries).
Proof. unfold build. by rewrite fold_left_app. Qed.

Lemma elem_of_map_set (k : option string) (v : V) (m : list (option string * V))
    (k' : option string) (v' : V) :
  NoDup (map fst m) ->
  (k', v') ∈ map_set k v m <-> (k' = k /\ v' = v) \/ (k' <> k /\ (k', v') ∈ m).
Proof.
  induction m as [|[k0 v0] m IH]; cbn [map_set map fst]; intros Hnd.
  - rewrite list_elem_of_singleton. split.
    + intros [= -> ->]. by left.
    + intros [[-> ->]|[_ H]]; [reflexivity | by apply elem_of_nil in H].
  - apply NoDup_cons in Hnd as [Hk0 Hnd]. destruct (decide (k = k0)) as [<-|Hne].
    + rewrite !elem_of_cons. split.
      * intros [[= -> ->]|H]; [by left|].
        right. split; [|by right]. intros ->. apply Hk0.
        apply list_elem_of_fmap. by exists (k, v').
      * intros [[-> ->]|[Hk [[= -> ->]|H]]]; [by left | congruence | by right].
    + rewrite !elem_of_cons, (IH Hnd). split.
      * intros [[= -> ->]|[[-> ->]|[Hk H]]]; [right; split; [congruence | by left] | by left |].
        right. split; [exact Hk | by right].
      * intros [[-> ->]|[Hk [[= -> ->]|H]]]; [right; by left | by left |].
        right. right. by split.
Qed.

Lemma map_set_keys (k : option string) (v : V) (m : list (option string * V)) (k' : option string) :
  k' ∈ map fst (map_set k v m) <-> k' = k \/ k' ∈ map fst m.
Proof.
  induction m as [|[k0 v0] m IH]; cbn [map_set map fst].
  - rewrite list_elem_of_singleton, elem_of_nil. tauto.
  - destruct (decide (k = k0)) as [<-|Hne]; cbn [map fst].
    + rewrite !elem_of_cons. tauto.
    + rewrite !elem_of_cons, IH. tauto.
Qed.

Lemma map_set_NoDup (k : option string) (v : V) (m : list (option string * V)) :
  NoDup (map fst m) -> NoDup (map fst (map_set k v m)).
Proof.
  induction m as [|[k0 v0] m IH]; cbn [map_set map fst]; intros Hnd.
  - apply NoDup_singleton.
  - apply NoDup_cons in Hnd as [Hk0 Hnd]. destruct (decide (k = k0)) as [<-|Hne]; cbn [map fst].
    + by apply NoDup_cons.
    + apply NoDup_cons. split; [|by apply IH].
      rewrite map_set_keys. intros [->|H]; [congruence | contradiction].
Qed.

Lemma build_NoDup (entries : list (option string * V)) : NoDup (map fst (build entries)).
Proof.
  induction entries as [|e entries IH] using rev_ind; [constructor|].
  rewrite build_snoc. by apply map_set_NoDup.
Qed.

(** The map holds, for each key, the value of the last entry with that
    key. *)
Lemma elem_of_build (entries : list (option string * V)) (k : option string) (v : V) :
  (k, v) ∈ build entries <->
  exists pre post, entries = pre ++ (k, v) :: post /\ Forall (fun e => fst e <> k) post.
Proof.
  induction entries as [|[k0 v0] entries IH] using rev_ind.
  - split; [intros H; by apply elem_of_nil in H|].
    intros (pre & post & H & _). by destruct pre.
  - rewrite build_snoc, (elem_of_map_set _ _ _ _ _ (build_NoDup entries)), IH.
    cbn [fst snd]. split.
    + intros [[-> ->]|[Hk (pre & post & -> & Hpost)]].
      * exists entries, []. split; [reflexivity | constructor].
      * exists pre, (post ++ [(k0, v0)]). split; [by rewrite <- app_assoc|].
        apply Forall_app. split; [exact Hpost|]. constructor; [cbn; congruence | constructor].
    + intros (pre & post & Heq & Hpost).
      destruct post as [|e post _] using rev_ind.
      * apply app_inj_tail in Heq as [_ Hkv]. injection Hkv as Hk Hv. left. by split.
      * rewrite app_comm_cons, app_assoc in Heq. apply app_inj_tail in Heq as [Hpre He0].
        apply Forall_app in Hpost as [Hpost He]. apply Forall_inv in He.
        rewrite <- He0 in He. cbn in He.
        right. split; [congruence|]. rewrite Hpre. by exists pre, post.
Qed.

End MapSet.

Lemma NoDup_fmap_filter {A B} (f : A -> B) (P : A -> Prop) `{!forall x, Decision (P x)}
    (l : list A) :
  NoDup (map f l) -> NoDup (map f (filter P l)).
Proof.
  induction l as [|x l IH]; [done|]. cbn [map]. intros Hnd.
  apply NoDup_cons in Hnd as [Hx Hnd]. rewrite filter_cons.
  destruct (decide (P x)); [|by apply IH]. cbn [map].
  apply NoDup_cons. split; [|by apply IH].
  intros Hin. apply Hx. apply list_elem_of_fmap in Hin as (y & -> & Hy).
  apply list_elem_of_filter in Hy as [_ Hy]. apply list_elem_of_fmap. by exists y.
Qed.

(** X17: the deduplicated sources have pairwise distinct URLs.  A source is among
    them exactly when it is the last one collected for its URL, its URL and
    host are not empty, and its host is not excluded: when a URL was
    collected several times, only the last record counts, also for the
    exclusion. *)
Theorem uniqueSources_spec (excluded : gset string) (sources : list Source) :
  NoDup (map src_url (uniqueSources excluded sources)) /\
  forall p, p ∈ uniqueSources excluded sources <->
    (exists pre post, sources = pre ++ p :: post /\
                      Forall (fun q => src_url q <> src_url p) post) /\
    truthy (src_url p) = true /\ src_host p <> "" /\ src_host p ∉ excluded.
Proof.
  set (entries := map (fun p => (src_url p, p)) sources).
  assert (Hkey : forall k p, (k, p) ∈ build entries -> k = src_url p).
  { intros k p H. apply elem_of_build in H as (pre & post & Heq & _).
    assert (Hin : (k, p) ∈ entries) by (rewrite Heq; apply elem_of_app; right; left).
    apply list_elem_of_fmap in Hin as (q & [= -> ->] & _). reflexivity. }
  assert (Hurls : map src_url (map snd (build entries)) = map fst (build entries)).
  { rewrite map_map. apply map_ext_in. intros [k p] Hin. cbn.
    symmetry. apply Hkey. by apply list_elem_of_In. }
  split.
  - unfold uniqueSources, map_values. fold entries. fold (build entries).
    apply NoDup_fmap_filter. rewrite Hurls. apply build_NoDup.
  - intros p. unfold uniqueSources, map_values. fold entries. fold (build entries).
    rewrite list_elem_of_filter.
    assert (Hlast : p ∈ map snd (build entries) <->
              exists pre post, sources = pre ++ p :: post /\
                               Forall (fun q => src_url q <> src_url p) post).
    { split.
      - intros Hin. apply list_elem_of_fmap in Hin as ([k q] & -> & Hin). cbn [snd].
        pose proof (Hkey _ _ Hin) as ->.
        apply elem_of_build in Hin as (pre & post & Heq & Hpost).
        unfold entries in Heq. apply map_eq_app in Heq as (pre' & rest & -> & <- & Hrest).
        apply map_eq_cons in Hrest as (q' & post' & -> & [= Hq] & <-).
        subst q'. exists pre', post'. split; [reflexivity|].
        apply Forall_forall. intros x Hx. rewrite Forall_forall in Hpost.
        apply (Hpost (src_url x, x)). apply list_elem_of_fmap. by exists x.
      - intros (pre & post & -> & Hpost). apply list_elem_of_fmap.
        exists (src_url p, p). split; [reflexivity|]. apply elem_of_build.
        exists (map (fun p => (src_url p, p)) pre), (map (fun p => (src_url p, p)) post).
        split; [unfold entries; by rewrite map_app|].
        apply Forall_forall. intros e He. apply list_elem_of_fmap in He as (x & -> & Hx).
        cbn. rewrite Forall_forall in Hpost. by apply Hpost. }
    rewrite Hlast, String.eqb_neq. tauto.
Qed.

(** *** The returned opportunities *)

(** The order of the returned opportunities: induced strength, then
    SpotFinder score, then semantic value, all descending. *)
Definition stronger (a b : Opp) : Prop :=
  inducedStrength b < inducedStrength a \/
  (inducedStrength b == inducedStrength a /\
   (opp_spotfinderScore b < opp_spotfinderScore a \/
    (opp_spotfinderScore b == opp_spotfinderScore a /\
     prospect_semanticValue b <= prospect_semanticValue a))).

Lemma by_strength_stronger (a b : Opp) :
  Qle_bool (by_strength a b) 0 = true <-> stronger a b.
Proof.
  unfold by_strength, stronger. rewrite or_cmpQ_le.
  assert (Hin : Js.or_cmpQ (opp_spotfinderScore b - opp_spotfinderScore a)
                  (prospect_semanticValue b - prospect_semanticValue a) <= 0 <->
                opp_spotfinderScore b < opp_spotfinderScore a \/
                (opp_spotfinderScore b == opp_spotfinderScore a /\
                 prospect_semanticValue b <= prospect_semanticValue a)).
  { rewrite <- Qle_bool_iff, or_cmpQ_le.
    split; (intros [H|[H1 H2]]; [left; lra | right; split; lra]). }
  rewrite Hin. split; (intros [H|[H1 H2]]; [left; lra | right; split; [lra | exact H2]]).
Qed.

Lemma stronger_total (a b : Opp) : stronger a b \/ stronger b a.
Proof.
  unfold stronger.
  destruct (Qlt_le_dec (inducedStrength b) (inducedStrength a)) as [H|H]; [by left; left|].
  destruct (Qlt_le_dec (inducedStrength a) (inducedStrength b)) as [H'|H']; [by right; left|].
  destruct (Qlt_le_dec (opp_spotfinderScore b) (opp_spotfinderScore a)) as [H2|H2];
    [left; right; split; [lra | by left]|].
  destruct (Qlt_le_dec (opp_spotfinderScore a) (opp_spotfinderScore b)) as [H2'|H2'];
    [right; right; split; [lra | by left]|].
  destruct (Qlt_le_dec (prospect_semanticValue a) (prospect_semanticValue b)) as [H3|H3].
  - right. right. split; [lra|]. right. split; lra.
  - left. right. split; [lra|]. right. split; lra.
Qed.

Lemma stronger_trans (a b c : Opp) : stronger a b -> stronger b c -> stronger a c.
Proof.
  unfold stronger. intros [H1|[H1 H1']] [H2|[H2 H2']]; try (left; lra).
  right. split; [lra|].
  destruct H1' as [H1'|[H1' H1'']], H2' as [H2'|[H2' H2'']]; try (left; lra).
  right. split; lra.
Qed.

Lemma length_batch getFi thr (pre : list Source) (t : string) :
  (length (batch getFi thr pre t) <= length pre)%nat.
Proof.
  unfold batch. induction pre as [|p pre IH]; [reflexivity|].
  cbn [omap list_omap]. destruct (pair_opp getFi thr t p); cbn [length]; lia.
Qed.

Lemma length_pushed getFi thr (pre : list Source) (targets : list string) (ops : list Opp) :
  pushed getFi thr pre targets ops -> (length ops <= length targets * length pre)%nat.
Proof.
  intros (blocks & HF & ->). induction HF as [|blk t blocks targets Hb HF IH]; [reflexivity|].
  cbn [concat length]. rewrite length_app, Hb.
  pose proof (length_batch getFi thr pre t). lia.
Qed.

(** X18: whatever the provider answers and in whatever order the units complete:
    every returned opportunity pairs a preselected source with one of the
    targets and has an induced strength of at least the threshold; the list
    is sorted by induced strength, then SpotFinder score, then semantic
    value, all descending; for a non-negative [topLimit] it has at most
    [topLimit] entries; and no more pairs are evaluated than targets times
    preselected sources. *)
Theorem opportunities_spec
    (getFi : string -> string -> Q * option string) (fiThreshold : Q)
    (sfHosts : list (SfHost * option (list UrlRow))) (unique : list Source)
    (maxCandidatesPerTarget topLimit : Z) (targets : list string) (ops : list Opp) :
  let pre := preselected maxCandidatesPerTarget unique in
  let res := opportunities sfHosts unique topLimit ops in
  pushed getFi fiThreshold pre targets ops ->
  (0 <= topLimit)%Z ->
  Forall (fun o => fiThreshold <= inducedStrength o /\ targetUrl o ∈ targets /\
                   exists p, p ∈ pre /\ prospectUrl o = default "" (src_url p) /\
                             prospectHost o = src_host p) res /\
  StronglySorted stronger res /\
  (Z.of_nat (length res) <= topLimit)%Z /\
  (length ops <= length targets * length pre)%nat.
Proof.
  cbv zeta. intros Hpushed Htop. split_and!.
  - apply Forall_forall. intros o Ho. apply elem_of_opportunities in Ho.
    destruct (elem_of_pushed _ _ _ _ _ _ Hpushed Ho) as (t & Ht & Hb).
    unfold batch in Hb. apply list_elem_of_omap in Hb as (p & Hp & Hpair).
    unfold pair_opp in Hpair. destruct (getFi _ t) as [fi conf].
    destruct (Qle_bool fiThreshold fi) eqn:E; [|discriminate].
    injection Hpair as <-. cbn. apply Qle_bool_iff in E. split_and!; [exact E | exact Ht|].
    by exists p.
  - unfold opportunities.
    destruct (length sfHosts =? 0)%nat; [constructor|].
    destruct (length unique =? 0)%nat; [constructor|].
    apply Js.StronglySorted_slice0, Js.sortQ_sorted.
    + apply by_strength_stronger.
    + apply stronger_total.
    + apply stronger_trans.
  - unfold opportunities.
    destruct (length sfHosts =? 0)%nat; [cbn; lia|].
    destruct (length unique =? 0)%nat; [cbn; lia|].
    by apply Js.length_slice0.
  - by eapply length_pushed.
Qed.

Lemma opportunities_spec_example :
  let unique := uniqueSources (ourRefHosts ex_hostRows) (collect 50 3000 ex_sfHosts []) in
  let pre := preselected 80 unique in
  let ops := batch ex_getFi 10 pre "https://site.example/" in
  let res := opportunities ex_sfHosts unique 25 ops in
  Forall (fun o => 10 <= inducedStrength o /\ targetUrl o ∈ ["https://site.example/"] /\
                   exists p, p ∈ pre /\ prospectUrl o = default "" (src_url p) /\
                             prospectHost o = src_host p) res /\
  StronglySorted stronger res /\
  (Z.of_nat (length res) <= 25)%Z /\
  (length ops <= length ["https://site.example/"] * length pre)%nat.
Proof.
  cbv zeta.
  apply (opportunities_spec ex_getFi 10 ex_sfHosts
           (uniqueSources (ourRefHosts ex_hostRows) (collect 50 3000 ex_sfHosts []))
           80 25 ["https://site.example/"]).
  - eexists [_]. split; [constructor; [reflexivity | constructor]|].
    cbn [concat]. by rewrite app_nil_r.
  - lia.
Defined.

(** *** The induced strength of a pair ([getFi]) *)

(** What the call to [/url/fi] gives for a pair: a failure, or a payload
    with its [fi] field ([None] when the field is missing or [null],
    otherwise the number [Number] makes of it) and its [confidence]. *)
Inductive FiAnswer :=
| FiFailed
| FiData (fi : option num) (conf : option string).

(** [Number.isFinite(fi) ? fi : 0] *)
Definition finite_or_zero (fi : num) : Q :=
  match fi with
  | Fin q => q
  | _ => 0
  end.

(** [getFi], given the answer of the provider. *)
Definition getFi (a : FiAnswer) : Q * option string :=
  match a with
  | FiFailed => (0, None)
  | FiData fi conf => (finite_or_zero (Js.nullish fi (of_Z 0)), conf)
  end.

(** The strength the provider has given, when it is a finite number. *)
Definition known_strength (a : FiAnswer) : option Q :=
  match a with
  | FiData (Some (Fin q)) _ => Some q
  | _ => None
  end.

(** X30: a pair whose call fails, or whose answer carries no finite [fi], counts
    as a pair of strength 0, not as a discarded pair: it yields an
    opportunity, of strength 0, exactly when [fiThreshold] is zero or less.
    A pair with a finite [fi] yields an opportunity exactly when its [fi] is
    at least [fiThreshold], and the opportunity reports that [fi]. *)
Theorem failed_pair_counts_as_zero (answers : string -> string -> FiAnswer) (fiThreshold : Q)
    (target : string) (p : Source) :
  let a := answers (default "" (src_url p)) target in
  let fi := match known_strength a with Some q => q | None => 0 end in
  (is_Some (pair_opp (fun u t => getFi (answers u t)) fiThreshold target p) <->
   fiThreshold <= fi) /\
  (forall o, pair_opp (fun u t => getFi (answers u t)) fiThreshold target p = Some o ->
             inducedStrength o = fi /\ targetUrl o = target /\ prospectHost o = src_host p).
Proof.
  cbv zeta. unfold pair_opp.
  assert (Hfi : fst (getFi (answers (default "" (src_url p)) target)) =
                match known_strength (answers (default "" (src_url p)) target) with
                | Some q => q
                | None => 0
                end).
  { destruct (answers _ target) as [|[[| |q|]|] conf]; reflexivity. }
  destruct (getFi (answers (default "" (src_url p)) target)) as [fi conf] eqn:E.
  cbn [fst] in Hfi. subst fi.
  destruct (Qle_bool fiThreshold _) eqn:Hle.
  - apply Qle_bool_iff in Hle. split; [split; [done | eauto]|].
    intros o [= <-]. by cbn.
  - apply Qle_bool_gt in Hle. split; [|discriminate].
    split; [intros [o Ho]; discriminate|]. intros H. lra.
Qed.

End Backlinks.

(* ===================================================================== *)
(** * Remote data client ([makeApiCall], [formatResponse], the interceptors) *)
(* ===================================================================== *)

Module Client.

(** A JSON payload. *)
#[local] Unset Elimination Schemes.
Inductive json :=
| JNull
| JBool (b : bool)
| JNumber (q : Q)
| JString (s : string)
| JArray (items : list json)
| JObject (fields : list (string * json)).
#[local] Set Elimination Schemes.

(** The envelope [FormattedResponse].  [timestamp] is the clock, in
    milliseconds, at the time of formatting; [count] is present for an array
    payload, [counts] holds the [<key>_count] entries of an object payload. *)
Record Envelope := {
  endpoint : string;
  timestamp : Z;
  rateLimitRemaining : option Z;
  data : json;
  count : option nat;
  counts : list (string * nat)
}.

Definition formatResponse (remaining : option Z) (now : Z) (data : json) (endpoint : string)
  : Envelope :=
  {| endpoint := endpoint;
     timestamp := now;
     rateLimitRemaining := remaining;
     data := data;
     count := match data with JArray items => Some (length items) | _ => None end;
     counts :=
       match data with
       | JObject fields =>
           omap (fun kv => match snd kv with
                           | JArray items => Some (String.append (fst kv) "_count", length items)
                           | _ => None
                           end) fields
       | _ => []
       end |}.

(** ** The cache *)

(** [stdTTL: 864000] seconds, in milliseconds. *)
Definition TTL : Z := 864000 * 1000.

(** Modelled from the spec: [cache.get] of the store behind [cache] (the
    node-cache package, not part of the repository).  An entry is a payload
    with its insertion time; an entry older than the TTL is treated as
    absent on read. *)
Definition cache_get (store : gmap string (Envelope * Z)) (now : Z) (key : string)
  : option Envelope :=
  match store !! key with
  | Some (e, inserted) => if (now <=? inserted + TTL)%Z then Some e else None
  | None => None
  end.

(** Modelled from the spec: [cache.set] of the same store; a write replaces
    whatever entry the key had and restarts its TTL. *)
Definition cache_set (store : gmap string (Envelope * Z)) (now : Z) (key : string)
    (e : Envelope) : gmap string (Envelope * Z) :=
  <[key := (e, now)]> store.

(** ** The client *)

(** The process-wide state: the cache and [rateLimitRemaining]. *)
Record State := {
  cache : gmap string (Envelope * Z);
  remaining : option Z
}.

(** The arguments of a call to [makeApiCall]. *)
Record Call := {
  c_endpoint : string;
  c_method : string;
  c_data : option json;
  c_useCache : bool
}.

(** What the provider answers to a request: a payload with the value of the
    [x-ratelimit-remaining] header when present, or a failure with its HTTP
    status (absent for a transport failure), the error message and the
    message of the response body. *)
Inductive Response :=
| Success (payload : json) (remainingHeader : option Z)
| Failure (status : option Z) (message : string) (bodyMessage : option string).

Inductive Error :=
| InvalidApiKey
| RateLimitExceeded
| BadRequest (message : string)
| EndpointNotFound (endpoint : string)
| ApiError (status : option Z) (message : string).

(** The [catch] block of [makeApiCall]. *)
Definition error_of (c : Call) (status : option Z) (message : string)
    (bodyMessage : option string) : Error :=
  match status with
  | Some 401%Z => InvalidApiKey
  | Some 429%Z => RateLimitExceeded
  | Some 400%Z => BadRequest (Js.or_str bodyMessage message)
  | Some 404%Z => EndpointNotFound (c_endpoint c)
  | _ => ApiError status message
  end.

(** [makeApiCall] suspends once, on the request.  An execution of the
    program is a sequence of events, each handled without interruption:
    a call starts, or the answer to a request of a call arrives. *)
Inductive Event :=
| Invoke (now : Z) (c : Call)
| Reply (now : Z) (c : Call) (r : Response).

Definition time_of (ev : Event) : Z :=
  match ev with Invoke now _ | Reply now _ _ => now end.

Inductive Outcome :=
| Hit (e : Envelope)       (* the call returns the cached envelope; no request *)
| Requested                (* the call sends its request and waits *)
| Retried (at_time : Z)    (* status 429: the same request is sent again later *)
| Returned (e : Envelope)  (* the call returns a fresh envelope *)
| Threw (err : Error).     (* the call throws *)

(** The requests an event puts on the network. *)
Definition requests_of (o : Outcome) : nat :=
  match o with
  | Requested | Retried _ => 1
  | _ => 0
  end.

(** [data || {}] *)
Definition truthy (d : json) : bool :=
  match d with
  | JNull => false
  | JBool b => b
  | JNumber q => negb (Qeq_bool q 0)
  | JString s => negb (String.eqb s "")
  | JArray _ | JObject _ => true
  end.

Definition body_of (c : Call) : json :=
  match c_data c with
  | Some d => if truthy d then d else JObject []
  | None => JObject []
  end.

Section WithStringify.

(** [JSON.stringify]; nothing is assumed about it. *)
Variable stringify : json -> string.

Definition cacheKey (c : Call) : string :=
  String.append (c_method c)
    (String.append ":" (String.append (c_endpoint c)
       (String.append ":" (stringify (body_of c))))).

(** [useCache && method === "POST"] *)
Definition cacheable (c : Call) : bool :=
  c_useCache c && String.eqb (c_method c) "POST".

Definition step (s : State) (ev : Event) : State * Outcome :=
  match ev with
  | Invoke now c =>
      if cacheable c then
        match cache_get (cache s) now (cacheKey c) with
        | Some cachedData => (s, Hit cachedData)
        | None => (s, Requested)
        end
      else (s, Requested)
  | Reply now c (Success payload remainingHeader) =>
      (* response interceptor, then the rest of the [try] block *)
      let remaining' :=
        match remainingHeader with
        | Some n => Some n
        | None => remaining s
        end in
      let formattedData := formatResponse remaining' now payload (c_endpoint c) in
      let cache' :=
        if cacheable c then cache_set (cache s) now (cacheKey c) formattedData
        else cache s in
      ({| cache := cache'; remaining := remaining' |}, Returned formattedData)
  | Reply now c (Failure status message bodyMessage) =>
      (* error interceptor, then the [catch] block *)
      match status with
      | Some 429%Z => (s, Retried (now + 60000))
      | _ => (s, Threw (error_of c status message bodyMessage))
      end
  end.

(** The state after a sequence of events. *)
Definition run (s : State) (evs : list Event) : State :=
  fold_left (fun s ev => fst (step s ev)) evs s.

(** The events are listed in the order of the clock. *)
Definition chronological (evs : list Event) : Prop :=
  StronglySorted Z.le (map time_of evs).

(** The event stores an envelope under [key]. *)
Definition writes (key : string) (ev : Event) : Prop :=
  match ev with
  | Reply _ c (Success _ _) => cacheable c = true /\ cacheKey c = key
  | _ => False
  end.

End WithStringify.

(** ** Facts about the cache *)

Section Facts.
Variable stringify : json -> string.

#[local] Abbreviation cacheKey := (cacheKey stringify).
#[local] Abbreviation step := (step stringify).
#[local] Abbreviation run := (run stringify).
#[local] Abbreviation writes := (writes stringify).

(** An event that is not the successful answer to a cacheable call leaves
    the cache as it is; such an answer inserts the envelope it returns,
    stamped with the current time. *)
Lemma step_cache (s : State) (ev : Event) :
  (exists now c payload hdr e,
      ev = Reply now c (Success payload hdr) /\ cacheable c = true /\
      snd (step s ev) = Returned e /\
      cache (fst (step s ev)) = <[cacheKey c := (e, now)]> (cache s)) \/
  ((forall key, ~ writes key ev) /\ cache (fst (step s ev)) = cache s).
Proof.
  destruct ev as [now c|now c [payload hdr|status message bodyMessage]].
  - right. split; [intros key []|]. cbn [Client.step].
    destruct (cacheable c); [destruct (cache_get _ _ _)|]; reflexivity.
  - destruct (cacheable c) eqn:Ec.
    + left. exists now, c, payload, hdr. eexists. split; [reflexivity|].
      split; [exact Ec|]. cbn [Client.step]. rewrite Ec. split; reflexivity.
    + right. split; [intros key [H _]; cbn in H; congruence|].
      cbn [Client.step]. by rewrite Ec.
  - right. split; [intros key []|]. cbn [Client.step].
    destruct status as [[|[]|]|]; try reflexivity.
    repeat (match goal with |- context [match ?p with _ => _ end] => destruct p end;
            try reflexivity).
Qed.

Lemma step_keeps (key : string) (s : State) (ev : Event) :
  ~ writes key ev -> cache (fst (step s ev)) !! key = cache s !! key.
Proof.
  intros Hw.
  destruct (step_cache s ev) as [(now & c & payload & hdr & e & Hev & Hc & _ & Hcache)|[_ Hcache]];
    rewrite Hcache; [|reflexivity].
  apply lookup_insert_ne. intros E. apply Hw. rewrite Hev. by split.
Qed.

Lemma run_keeps (key : string) (evs : list Event) (s : State) :
  Forall (fun ev => ~ writes key ev) evs -> cache (run s evs) !! key = cache s !! key.
Proof.
  revert s. induction evs as [|ev evs IH]; intros s Hevs; [reflexivity|].
  apply Forall_cons in Hevs as [Hev Hevs]. cbn [Client.run fold_left].
  etrans; [apply IH, Hevs | by apply step_keeps].
Qed.

(** The cache holds under [key] an envelope stored at [t0] or later. *)
Definition stored_since (key : string) (t0 : Z) (s : State) : Prop :=
  exists e inserted, cache s !! key = Some (e, inserted) /\ (t0 <= inserted)%Z.

Lemma step_stored_since (key : string) (t0 : Z) (s : State) (ev : Event) :
  (t0 <= time_of ev)%Z -> stored_since key t0 s -> stored_since key t0 (fst (step s ev)).
Proof.
  intros Ht (e & inserted & He & Hi).
  unfold stored_since.
  destruct (step_cache s ev) as [(now & c & payload & hdr & e' & Hev & Hc & _ & Hcache)|[_ Hcache]];
    rewrite Hcache; [|by exists e, inserted].
  rewrite Hev in Ht. cbn [time_of] in Ht.
  destruct (decide (cacheKey c = key)) as [<-|Hne].
  - exists e', now. by rewrite lookup_insert_eq.
  - exists e, inserted. by rewrite lookup_insert_ne.
Qed.

Lemma run_stored_since (key : string) (t0 : Z) (evs : list Event) (s : State) :
  Forall (fun ev => (t0 <= time_of ev)%Z) evs ->
  stored_since key t0 s -> stored_since key t0 (run s evs).
Proof.
  revert s. induction evs as [|ev evs IH]; intros s Hevs Hs; [exact Hs|].
  apply Forall_cons in Hevs as [Hev Hevs]. cbn [Client.run fold_left].
  apply IH; [exact Hevs | by apply step_stored_since].
Qed.

Lemma run_events_app (s : State) (evs evs' : list Event) :
  run s (evs ++ evs') = run (run s evs) evs'.
Proof. apply fold_left_app. Qed.

(** A cacheable call that finds a live entry returns it, sends nothing and
    changes nothing. *)
Lemma invoke_hit (s : State) (now inserted : Z) (c : Call) (e : Envelope) :
  cacheable c = true -> cache s !! cacheKey c = Some (e, inserted) ->
  (now <= inserted + TTL)%Z -> step s (Invoke now c) = (s, Hit e).
Proof.
  intros Hc He Ht. cbn [Client.step]. rewrite Hc. unfold cache_get. rewrite He.
  apply Z.leb_le in Ht. by rewrite Ht.
Qed.

(** A cacheable call that finds nothing, or an entry older than the TTL,
    sends a request. *)
Lemma invoke_miss (s : State) (now : Z) (c : Call) :
  (forall e inserted, cache s !! cacheKey c = Some (e, inserted) -> (inserted + TTL < now)%Z) ->
  step s (Invoke now c) = (s, Requested).
Proof.
  intros H. cbn [Client.step]. destruct (cacheable c); [|reflexivity].
  unfold cache_get. destruct (cache s !! cacheKey c) as [[e inserted]|] eqn:E; [|reflexivity].
  specialize (H _ _ eq_refl). apply Z.leb_gt in H. by rewrite H.
Qed.

Lemma chronological_after (ev : Event) (evs : list Event) :
  chronological (ev :: evs) -> Forall (fun ev' => (time_of ev <= time_of ev')%Z) evs.
Proof.
  unfold chronological. cbn [map]. intros H.
  apply StronglySorted_inv in H. destruct H as [_ HF].
  exact (proj1 (List.Forall_map time_of (Z.le (time_of ev)) evs) HF).
Qed.

(** C1: once the answer to a cacheable call (POST with [useCache]) has
    arrived, every cacheable call with the same cache key that starts no
    later than 864,000 seconds after it returns an envelope from the cache
    and sends no request; the envelope is the one that call returned, unless
    an answer for the same key arrived in between and replaced it.  The
    cache changes only when a request of a call that is a POST with
    [useCache] succeeds, and what is stored then is the returned envelope. *)
Theorem makeApiCall_cache :
  (forall (s0 : State) (pre mid : list Event) (t0 t : Z) (c0 c : Call)
          (payload : json) (hdr : option Z),
     cacheable c0 = true -> cacheable c = true -> cacheKey c = cacheKey c0 ->
     chronological (Reply t0 c0 (Success payload hdr) :: mid ++ [Invoke t c]) ->
     (t <= t0 + TTL)%Z ->
     let answer := Reply t0 c0 (Success payload hdr) in
     let s := run s0 (pre ++ answer :: mid) in
     (exists e, step s (Invoke t c) = (s, Hit e)) /\
     requests_of (snd (step s (Invoke t c))) = 0%nat /\
     (Forall (fun ev => ~ writes (cacheKey c0) ev) mid ->
        exists e, snd (step (run s0 pre) answer) = Returned e /\
                  step s (Invoke t c) = (s, Hit e))) /\
  (forall (s : State) (ev : Event),
     cache (fst (step s ev)) <> cache s ->
     exists now c payload hdr e,
       ev = Reply now c (Success payload hdr) /\ cacheable c = true /\
       snd (step s ev) = Returned e /\
       cache (fst (step s ev)) = <[cacheKey c := (e, now)]> (cache s)).
Proof.
  split.
  - intros s0 pre mid t0 t c0 c payload hdr Hc0 Hc Hkey Hchron Ht. cbv zeta.
    set (answer := Reply t0 c0 (Success payload hdr)).
    set (s1 := run s0 pre).
    assert (Hrun : run s0 (pre ++ answer :: mid) = run (fst (step s1 answer)) mid)
      by (by rewrite run_events_app).
    rewrite Hrun.
    assert (Hstored : cache (fst (step s1 answer)) !! cacheKey c0 =
                      Some (formatResponse (match hdr with Some n => Some n | None => remaining s1 end)
                              t0 payload (c_endpoint c0), t0)).
    { cbn [Client.step answer fst cache]. rewrite Hc0. apply lookup_insert_eq. }
    apply chronological_after, Forall_app in Hchron as [Hmid Hlast].
    apply Forall_singleton in Hlast. cbn [time_of] in Hmid, Hlast.
    assert (Hhit : exists e, step (run (fst (step s1 answer)) mid) (Invoke t c) =
                             (run (fst (step s1 answer)) mid, Hit e)).
    { destruct (run_stored_since (cacheKey c0) t0 mid (fst (step s1 answer)) Hmid)
        as (e & inserted & He & Hi); [by eexists _, _|].
      exists e. eapply invoke_hit; [exact Hc | by rewrite Hkey | lia]. }
    split_and!.
    + exact Hhit.
    + destruct Hhit as [e ->]. reflexivity.
    + intros Hquiet. eexists. split.
      * cbn [Client.step answer snd]. reflexivity.
      * eapply invoke_hit; [exact Hc | | exact Ht].
        rewrite Hkey, (run_keeps _ _ _ Hquiet). exact Hstored.
  - intros s ev Hchanged.
    destruct (step_cache s ev) as [H|[_ H]]; [exact H | contradiction].
Qed.

End Facts.

(** A serialiser for the flat parameter objects of the examples. *)
Definition stringify_flat (d : json) : string :=
  match d with
  | JObject [] => "{}"
  | JObject [(k, JString v)] => String.append "{" (String.append k (String.append ":" (String.append v "}")))
  | _ => "?"
  end.

Definition post (endpoint host : string) : Call :=
  {| c_endpoint := endpoint; c_method := "POST";
     c_data := Some (JObject [("host", JString host)]); c_useCache := true |}.

Definition empty_state : State := {| cache := ∅; remaining := None |}.

(** An execution: a call for the overview of [example.com] is answered at
    time 1000; a call for another host runs meanwhile; one day later the
    overview of [example.com] is asked again. *)
Definition ex_answer : Event :=
  Reply 1000 (post "/host/overview/main" "example.com")
    (Success (JObject [("backlinks", JArray [JNull; JNull])]) (Some 499%Z)).

Definition ex_pre : list Event := [Invoke 0 (post "/host/overview/main" "example.com")].

Definition ex_mid : list Event :=
  [ Invoke 2000 (post "/host/overview/main" "other.example");
    Reply 3000 (post "/host/overview/main" "other.example") (Success (JArray []) None) ].

Lemma makeApiCall_cache_example :
  let c := post "/host/overview/main" "example.com" in
  let s := run stringify_flat empty_state (ex_pre ++ ex_answer :: ex_mid) in
  exists e, snd (step stringify_flat (run stringify_flat empty_state ex_pre) ex_answer) = Returned e /\
            step stringify_flat s (Invoke 86400000 c) = (s, Hit e).
Proof.
  cbv zeta.
  apply (proj1 (makeApiCall_cache stringify_flat) empty_state ex_pre ex_mid 1000%Z 86400000%Z
           (post "/host/overview/main" "example.com") (post "/host/overview/main" "example.com")
           (JObject [("backlinks", JArray [JNull; JNull])]) (Some 499%Z)).
  - reflexivity.
  - reflexivity.
  - reflexivity.
  - unfold chronological. compute_done.
  - unfold TTL. lia.
  - unfold ex_mid. constructor; [intros []|].
    constructor; [|constructor].
    intros [_ H]. vm_compute in H. discriminate H.
Defined.

(** ** Further facts about the client *)

Section MoreFacts.
Variable stringify : json -> string.

#[local] Abbreviation cacheKey := (cacheKey stringify).
#[local] Abbreviation step := (step stringify).
#[local] Abbreviation run := (run stringify).
#[local] Abbreviation writes := (writes stringify).

(** The value of the last [x-ratelimit-remaining] header among the
    successful answers of a sequence of events. *)
Definition last_header (evs : list Event) : option Z :=
  fold_left (fun acc ev =>
               match ev with
               | Reply _ _ (Success _ (Some n)) => Some n
               | _ => acc
               end) evs None.

Lemma run_snoc (s : State) (evs : list Event) (ev : Event) :
  run s (evs ++ [ev]) = fst (step (run s evs) ev).
Proof. unfold Client.run. by rewrite fold_left_app. Qed.

(** Where an entry of the cache comes from: it was there at the start and
    nothing was stored under its key since, or it is the envelope returned by
    the last successful answer stored under its key, stamped with the time
    of that answer. *)
Lemma run_cache_origin (s0 : State) (evs : list Event) (key : string) (e : Envelope) (t : Z) :
  cache (run s0 evs) !! key = Some (e, t) ->
  (cache s0 !! key = Some (e, t) /\ Forall (fun ev => ~ writes key ev) evs) \/
  (exists pre post c0 payload hdr,
      evs = pre ++ Reply t c0 (Success payload hdr) :: post /\
      cacheable c0 = true /\ cacheKey c0 = key /\
      snd (step (run s0 pre) (Reply t c0 (Success payload hdr))) = Returned e /\
      Forall (fun ev => ~ writes key ev) post).
Proof.
  revert e t. induction evs as [|ev evs IH] using rev_ind; intros e t Hlook.
  - left. split; [exact Hlook | constructor].
  - rewrite run_snoc in Hlook.
    assert (Hold : ~ writes key ev -> cache (run s0 evs) !! key = Some (e, t) ->
              (cache s0 !! key = Some (e, t) /\ Forall (fun ev => ~ writes key ev) (evs ++ [ev])) \/
              (exists pre post c0 payload hdr,
                  evs ++ [ev] = pre ++ Reply t c0 (Success payload hdr) :: post /\
                  cacheable c0 = true /\ cacheKey c0 = key /\
                  snd (step (run s0 pre) (Reply t c0 (Success payload hdr))) = Returned e /\
                  Forall (fun ev => ~ writes key ev) post)).
    { intros Hw Hprev.
      destruct (IH _ _ Hprev) as [[H0 Hq]|(pre & post & c0 & payload & hdr & -> & Hc & Hk & Hr & Hq)].
      - left. split; [exact H0|]. apply Forall_app. split; [exact Hq|]. by constructor.
      - right. exists pre, (post ++ [ev]), c0, payload, hdr.
        split; [by rewrite <- app_assoc|]. split_and!; try done.
        apply Forall_app. split; [exact Hq|]. by constructor. }
    destruct (step_cache stringify (run s0 evs) ev)
      as [(now & c & payload & hdr & e' & Hev & Hc & Hret & Hcache)|[Hnw Hcache]].
    + rewrite Hcache in Hlook.
      destruct (decide (cacheKey c = key)) as [Hk|Hk].
      * rewrite <- Hk, lookup_insert_eq in Hlook. injection Hlook as <- <-.
        right. exists evs, [], c, payload, hdr.
        split; [by rewrite Hev|]. split_and!; try done. by rewrite <- Hev.
      * rewrite lookup_insert_ne in Hlook by exact Hk.
        apply Hold; [|exact Hlook]. rewrite Hev. intros [_ H]. by apply Hk.
    + rewrite Hcache in Hlook. apply Hold; [apply Hnw | exact Hlook].
Qed.

(** What a call answered from the cache has found. *)
Lemma hit_inv (s : State) (now : Z) (c : Call) (e : Envelope) :
  snd (step s (Invoke now c)) = Hit e ->
  cacheable c = true /\
  exists inserted, cache s !! cacheKey c = Some (e, inserted) /\ (now <= inserted + TTL)%Z.
Proof.
  cbn [Client.step]. destruct (cacheable c); [|discriminate].
  unfold cache_get. destruct (cache s !! cacheKey c) as [[e' inserted]|]; [|discriminate].
  destruct (now <=? inserted + TTL)%Z eqn:E; [|discriminate].
  cbn. intros [= ->]. split; [reflexivity|]. exists inserted. split; [reflexivity|].
  by apply Z.leb_le.
Qed.

(** X1: a call is answered from the cache only with an envelope that an earlier
    call with the same cache key obtained from the provider and returned, no
    more than 864,000 seconds before, and that no later answer for that key
    has replaced: the cache never serves the data of another request, nor an
    envelope that was never returned. *)
Theorem cache_hit_provenance (evs : list Event) (now : Z) (c : Call) (e : Envelope) :
  snd (step (run empty_state evs) (Invoke now c)) = Hit e ->
  exists pre post t c0 payload hdr,
    evs = pre ++ Reply t c0 (Success payload hdr) :: post /\
    cacheable c0 = true /\ cacheKey c0 = cacheKey c /\
    snd (step (run empty_state pre) (Reply t c0 (Success payload hdr))) = Returned e /\
    (now <= t + TTL)%Z /\
    Forall (fun ev => ~ writes (cacheKey c) ev) post.
Proof.
  intros Hhit. apply hit_inv in Hhit as (_ & t & Hlook & Ht).
  apply run_cache_origin in Hlook
    as [[H0 _]|(pre & post & c0 & payload & hdr & Hevs & Hc & Hk & Hr & Hq)].
  - cbn in H0. by rewrite lookup_empty in H0.
  - by exists pre, post, t, c0, payload, hdr.
Qed.

(** X2: an entry is not served beyond its lifetime: when the last answer stored
    under a cache key is older than 864,000 seconds, a call with that key
    sends a request to the provider. *)
Theorem cache_entry_expires (s0 : State) (pre mid : list Event) (t0 t : Z) (c0 c : Call)
    (payload : json) (hdr : option Z) :
  cacheable c0 = true -> cacheKey c = cacheKey c0 ->
  Forall (fun ev => ~ writes (cacheKey c0) ev) mid ->
  (t0 + TTL < t)%Z ->
  let s := run s0 (pre ++ Reply t0 c0 (Success payload hdr) :: mid) in
  step s (Invoke t c) = (s, Requested).
Proof.
  intros Hc0 Hkey Hquiet Ht s. apply invoke_miss. intros e inserted Hlook.
  subst s. rewrite Hkey in Hlook.
  rewrite run_events_app in Hlook.
  change (run (run s0 pre) (Reply t0 c0 (Success payload hdr) :: mid))
    with (run (fst (step (run s0 pre) (Reply t0 c0 (Success payload hdr)))) mid) in Hlook.
  rewrite (run_keeps _ _ _ _ Hquiet) in Hlook.
  cbn [Client.step fst cache] in Hlook. rewrite Hc0 in Hlook.
  unfold cache_set in Hlook. rewrite lookup_insert_eq in Hlook.
  injection Hlook as _ <-. exact Ht.
Qed.

(** A failed answer leaves the state as it is. *)
Lemma step_failure_state (s : State) (now : Z) (c : Call) (status : option Z)
    (message : string) (bodyMessage : option string) :
  fst (step s (Reply now c (Failure status message bodyMessage))) = s.
Proof.
  cbn [Client.step].
  repeat (match goal with |- context [match ?p with _ => _ end] => destruct p end;
          try reflexivity).
Qed.


Lemma last_header_snoc (evs : list Event) (ev : Event) :
  last_header (evs ++ [ev]) =
  match ev with
  | Reply _ _ (Success _ (Some n)) => Some n
  | _ => last_header evs
  end.
Proof. unfold last_header. by rewrite fold_left_app. Qed.

(** X4: [rateLimitRemaining] holds the value of the last [x-ratelimit-remaining]
    header received with a successful answer; calls answered from the cache,
    failed answers and answers without the header leave it as it was. *)
Theorem rateLimitRemaining_tracks_last_header (s : State) (evs : list Event) :
  remaining (run s evs) =
  match last_header evs with
  | Some n => Some n
  | None => remaining s
  end.
Proof.
  induction evs as [|ev evs IH] using rev_ind; [reflexivity|].
  rewrite run_snoc, last_header_snoc.
  destruct ev as [now c|now c [payload [n|]|status message bodyMessage]].
  - rewrite <- IH. cbn [Client.step].
    destruct (cacheable c); [destruct (cache_get _ _ _)|]; reflexivity.
  - reflexivity.
  - rewrite <- IH. reflexivity.
  - rewrite <- IH.
    by rewrite step_failure_state.
Qed.

End MoreFacts.

(** The execution of the example above: the second call for [example.com]
    is answered with the envelope of the first. *)
Lemma cache_hit_provenance_example :
  exists evs1 evs2 t c0 payload hdr,
    ex_pre ++ ex_answer :: ex_mid = evs1 ++ Reply t c0 (Success payload hdr) :: evs2 /\
    cacheable c0 = true /\
    cacheKey stringify_flat c0 = cacheKey stringify_flat (post "/host/overview/main" "example.com") /\
    snd (step stringify_flat (run stringify_flat empty_state evs1)
           (Reply t c0 (Success payload hdr))) =
      Returned (formatResponse (Some 499%Z) 1000
                  (JObject [("backlinks", JArray [JNull; JNull])]) "/host/overview/main") /\
    (86400000 <= t + TTL)%Z /\
    Forall (fun ev => ~ writes stringify_flat
                        (cacheKey stringify_flat (post "/host/overview/main" "example.com")) ev) evs2.
Proof.
  apply (cache_hit_provenance stringify_flat (ex_pre ++ ex_answer :: ex_mid) 86400000%Z
           (post "/host/overview/main" "example.com")).
  vm_compute. reflexivity.
Defined.

(** Eleven days after the answer, the same call goes to the provider. *)
Lemma cache_entry_expires_example :
  let s := run stringify_flat empty_state (ex_pre ++ ex_answer :: ex_mid) in
  step stringify_flat s (Invoke 950400000 (post "/host/overview/main" "example.com")) =
  (s, Requested).
Proof.
  apply (cache_entry_expires stringify_flat empty_state ex_pre ex_mid 1000%Z 950400000%Z
           (post "/host/overview/main" "example.com") (post "/host/overview/main" "example.com")
           (JObject [("backlinks", JArray [JNull; JNull])]) (Some 499%Z)).
  - reflexivity.
  - reflexivity.
  - unfold ex_mid. constructor; [intros []|].
    constructor; [|constructor].
    intros [_ H]. vm_compute in H. discriminate H.
  - unfold TTL. lia.
Defined.

End Client.

(* ===================================================================== *)
(** * Response extraction ([safeExtractData], [extractArray]) *)
(* ===================================================================== *)

Module Extract.

Import Client.

(** ** Reading a parsed JSON value *)

(** The value of the field named [k] of an object; when a name occurs more
    than once the last occurrence counts, as after [JSON.parse]. *)
Fixpoint field (k : string) (fields : list (string * json)) : option json :=
  match fields with
  | [] => None
  | (k', v) :: rest =>
      match field k rest with
      | Some v' => Some v'
      | None => if String.eqb k' k then Some v else None
      end
  end.

(** [v.k], [None] standing for [undefined].  Only an object has fields of
    its own; what the names read below denote on another value (nothing, or
    a method of its prototype) is never an array. *)
Definition get (k : string) (v : json) : option json :=
  match v with
  | JObject fields => field k fields
  | _ => None
  end.

(** [Array.isArray(v)], with the elements. *)
Definition as_array (v : option json) : option (list json) :=
  match v with
  | Some (JArray items) => Some items
  | _ => None
  end.

Definition isArray (v : option json) : bool :=
  match as_array v with Some _ => true | None => false end.

(** [a ?? b] *)
Definition nullish_or (a b : option json) : option json :=
  match a with
  | None | Some JNull => b
  | Some _ => a
  end.

(** ** [safeExtractData] *)

Definition is_type (dataType : option string) (t : string) : bool :=
  match dataType with
  | Some d => String.eqb d t
  | None => false
  end.

(** The fields pushed on [candidates], by expected type. *)
Definition candidates_for (dataType : option string) : list string :=
  if is_type dataType "keywords" then ["entries"; "keywords"; "results"]
  else if is_type dataType "hosts" then ["hosts"; "similar"; "results"]
  else if is_type dataType "urls" || is_type dataType "pages" then ["pages"; "urls"; "results"]
  else if is_type dataType "backlinks" then ["backlinks"; "links"; "results"]
  else ["entries"; "keywords"; "hosts"; "similar"; "pages"; "urls"; "backlinks"; "links";
        "results"].

(** The loop over [candidates]. *)
Fixpoint first_array (candidates : list (option json)) : list json :=
  match candidates with
  | [] => []
  | candidate :: rest =>
      match as_array candidate with
      | Some items => items
      | None => first_array rest
      end
  end.

(** [response.data || response] *)
Definition data_of (response : json) : json :=
  match get "data" response with
  | Some d => if truthy d then d else response
  | None => response
  end.

Definition safeExtractData (response : option json) (dataType : option string) : list json :=
  match response with
  | None => []
  | Some response =>
      if negb (truthy response) then []
      else
        let data := data_of response in
        first_array
          (map (fun k => get k data) (candidates_for dataType)
           ++ (if isArray (Some data) then [Some data] else []))
  end.

(** ** [extractArray] of the backlink pipeline *)

(** [res?.data?.[k]] *)
Definition data_field (res : option json) (k : string) : option json :=
  match res with
  | None | Some JNull => None
  | Some r =>
      match get "data" r with
      | None | Some JNull => None
      | Some d => get k d
      end
  end.

(** [res?.data] *)
Definition data_opt (res : option json) : option json :=
  match res with
  | None | Some JNull => None
  | Some r => get "data" r
  end.

(** The loop over [keys]; [None] when it ends without returning. *)
Fixpoint extractArray_keys (res : option json) (keys : list string) : option (list json) :=
  match keys with
  | [] => None
  | k :: rest =>
      let v := Some (JArray (safeExtractData res (Some k))) in
      match as_array v with
      | Some items => Some items
      | None =>
          match as_array (data_field res k) with
          | Some items => Some items
          | None => extractArray_keys res rest
          end
      end
  end.

Definition extractArray (res : option json) (keys : list string) : list json :=
  match extractArray_keys res keys with
  | Some items => items
  | None =>
      match as_array (data_opt res) with
      | Some items => items
      | None =>
          match as_array res with
          | Some items => items
          | None => []
          end
      end
  end.

(** ** The buckets read by [babbar_host_duplicate] *)

(** [resp?.data ?? resp ?? {}] *)
Definition raw_of (resp : option json) : json :=
  match nullish_or (nullish_or (data_opt resp) resp) (Some (JObject [])) with
  | Some v => v
  | None => JObject []
  end.

(** [rawBuckets], followed by the [(rawBuckets || [])] of its use: the rows
    the buckets are built from. *)
Definition rawBuckets (resp : option json) : list json :=
  let raw := raw_of resp in
  let chosen :=
    nullish_or (Some (JArray (safeExtractData resp (Some "buckets"))))
      (nullish_or (get "buckets" raw)
         (nullish_or (if isArray (Some raw) then Some raw else get "data" raw)
            (Some (JArray [])))) in
  match as_array chosen with
  | Some items => items
  | None => []
  end.

(** The nine fields read when the expected type is none of the known ones. *)
Definition generic_fields : list string := candidates_for None.

(** ** Facts *)

Lemma first_array_ext (l1 l2 : list (option json)) :
  map as_array l1 = map as_array l2 -> first_array l1 = first_array l2.
Proof.
  revert l2. induction l1 as [|c l1 IH]; intros [|c' l2] H; try discriminate; [reflexivity|].
  cbn in H. injection H as Hc Hl. cbn [first_array]. rewrite Hc.
  destruct (as_array c'); [reflexivity | by apply IH].
Qed.

Lemma first_array_none (l : list (option json)) :
  Forall (fun c => as_array c = None) l -> first_array l = [].
Proof.
  induction 1 as [|c l Hc _ IH]; [reflexivity|]. cbn [first_array]. by rewrite Hc.
Qed.

Lemma data_of_object (r : json) (fields : list (string * json)) :
  get "data" r = Some (JObject fields) -> truthy r = true /\ data_of r = JObject fields.
Proof.
  intros H. split.
  - destruct r; try discriminate H. reflexivity.
  - unfold data_of. by rewrite H.
Qed.

Lemma safeExtractData_object (r : json) (fields : list (string * json)) (ty : option string) :
  get "data" r = Some (JObject fields) ->
  safeExtractData (Some r) ty = first_array (map (fun k => field k fields) (candidates_for ty)).
Proof.
  intros H. apply data_of_object in H as [Ht Hd].
  unfold safeExtractData. rewrite Ht, Hd. cbn [negb isArray as_array get].
  by rewrite app_nil_r.
Qed.

Lemma candidates_buckets : candidates_for (Some "buckets") = generic_fields.
Proof. reflexivity. Qed.

Lemma safeExtractData_agree
    (r1 r2 : json) (fields1 fields2 : list (string * json)) (dataType : option string) :
  get "data" r1 = Some (JObject fields1) ->
  get "data" r2 = Some (JObject fields2) ->
  (forall k, k ∈ candidates_for dataType ->
             as_array (field k fields1) = as_array (field k fields2)) ->
  safeExtractData (Some r1) dataType = safeExtractData (Some r2) dataType.
Proof.
  intros H1 H2 Hagree.
  rewrite (safeExtractData_object _ _ _ H1), (safeExtractData_object _ _ _ H2).
  apply first_array_ext. rewrite !map_map.
  apply map_ext_in. intros k Hk. apply Hagree. by apply list_elem_of_In.
Qed.


(** X6: [extractArray] returns what [safeExtractData] finds for its first key:
    the keys after the first and the fields of the payload named after the
    keys are never read.  Two responses whose payloads agree on the candidate
    fields of the first key give the same rows, whichever keys follow. *)
Theorem extractArray_reads_first_key_only
    (r1 r2 : json) (fields1 fields2 : list (string * json)) (k : string) (ks1 ks2 : list string) :
  get "data" r1 = Some (JObject fields1) ->
  get "data" r2 = Some (JObject fields2) ->
  (forall k', k' ∈ candidates_for (Some k) ->
              as_array (field k' fields1) = as_array (field k' fields2)) ->
  extractArray (Some r1) (k :: ks1) = safeExtractData (Some r1) (Some k) /\
  extractArray (Some r1) (k :: ks1) = extractArray (Some r2) (k :: ks2).
Proof.
  intros H1 H2 Hagree. split; [reflexivity|].
  change (safeExtractData (Some r1) (Some k) = safeExtractData (Some r2) (Some k)).
  by eapply safeExtractData_agree.
Qed.

(** X7: the duplication report reads its buckets from a payload that is an
    array, or from an array under one of the nine generic field names.  A
    payload object with no array under these names yields no bucket at all,
    whatever it holds under [buckets]: the later alternatives of the
    extraction are never reached. *)
Theorem rawBuckets_sources (resp : json) :
  (forall items, get "data" resp = Some (JArray items) -> rawBuckets (Some resp) = items) /\
  (forall fields,
      get "data" resp = Some (JObject fields) ->
      Forall (fun k => as_array (field k fields) = None) generic_fields ->
      rawBuckets (Some resp) = []).
Proof.
  split.
  - intros items H. unfold rawBuckets. cbn [nullish_or as_array].
    unfold safeExtractData.
    assert (Ht : truthy resp = true) by (destruct resp; try discriminate H; reflexivity).
    rewrite Ht. cbn [negb]. unfold data_of. rewrite H. reflexivity.
  - intros fields H Hnone. unfold rawBuckets. cbn [nullish_or as_array].
    rewrite (safeExtractData_object _ _ _ H), candidates_buckets.
    apply first_array_none. by apply Forall_fmap.
Qed.

(** ** Examples *)

Definition ex_row (k : string) : json := JObject [("keyword", JString k)].

(** A payload with its rows under [keywords] and a field the extraction does
    not know. *)
Definition ex_keywords_response : json :=
  JObject [("endpoint", JString "/host/keywords");
           ("data", JObject [("keywords", JArray [ex_row "widgets"]);
                             ("total", JNumber 1)])].

Definition ex_keywords_plain : json :=
  JObject [("data", JObject [("keywords", JArray [ex_row "widgets"])])].


(** Hosts listed under [items] only: the call of the pipeline for the
    SpotFinder hosts finds none of them. *)
Definition ex_items_response : json :=
  JObject [("data", JObject [("items", JArray [JObject [("host", JString "a.example")]])])].

Definition ex_empty_response : json := JObject [("data", JObject [])].

Lemma extractArray_example :
  extractArray (Some ex_items_response) ["hosts"; "results"; "items"] =
    safeExtractData (Some ex_items_response) (Some "hosts") /\
  extractArray (Some ex_items_response) ["hosts"; "results"; "items"] =
    extractArray (Some ex_empty_response) ["hosts"].
Proof.
  apply (extractArray_reads_first_key_only ex_items_response ex_empty_response
           [("items", JArray [JObject [("host", JString "a.example")]])] []
           "hosts" ["results"; "items"] []).
  - reflexivity.
  - reflexivity.
  - intros k Hk. cbn in Hk.
    repeat (apply elem_of_cons in Hk as [->|Hk]; [reflexivity|]).
    by apply elem_of_nil in Hk.
Defined.

(** A payload with its buckets under [buckets]. *)
Definition ex_buckets_response : json :=
  JObject [("data", JObject [("buckets",
     JArray [JObject [("percent_from", JNumber 90); ("percent_to", JNumber 95);
                      ("pairs", JNumber 12)]])])].

Lemma rawBuckets_example : rawBuckets (Some ex_buckets_response) = [].
Proof.
  apply (proj2 (rawBuckets_sources ex_buckets_response)
           [("buckets",
             JArray [JObject [("percent_from", JNumber 90); ("percent_to", JNumber 95);
                              ("pairs", JNumber 12)]])]).
  - reflexivity.
  - unfold generic_fields. cbn. repeat constructor.
Defined.

End Extract.

(* ===================================================================== *)
(** * Concurrency-bounded executor ([pLimit]) *)
(* ===================================================================== *)

Module Limiter.

(** The program runs on one thread.  A call [run(fn)] executes up to its
    first [await] at once; what follows an [await] is a continuation that
    the job queue runs later, oldest first.  The units of work are numbered;
    a unit's own work is the promise [fn()] returns, which settles
    (fulfils or rejects) when the environment decides.  [fn] is an [async]
    function, as at the call site: it fails by rejecting its promise, not by
    throwing before it returns one. *)

(** A pending continuation of [run]. *)
Inductive Job :=
| Resume (u : nat)               (* after [await new Promise(r => queue.push(r))] *)
| Finish (u : nat) (ok : bool).  (* after [await fn()]: the [finally] block *)

Record State := {
  active : Z;                      (* [let active = 0] *)
  queue : list nat;                (* the resolvers in [queue], by unit *)
  jobs : list Job;                 (* continuations waiting for their turn *)
  running : list nat;              (* units whose [fn()] has not settled *)
  (* history of the execution *)
  started : list nat;              (* units in the order their [fn] was called *)
  enqueued : list nat;             (* units in the order they were queued *)
  released : list nat;             (* units in the order [next] released them *)
  completed : list (nat * bool)    (* units whose [run] has settled, with outcome *)
}.

Definition init : State :=
  {| active := 0; queue := []; jobs := []; running := [];
     started := []; enqueued := []; released := []; completed := [] |}.

Inductive Action :=
| Submit (u : nat)              (* [run(fn_u)] is called *)
| Settle (u : nat) (ok : bool)  (* the promise of [fn_u()] fulfils or rejects *)
| Tick.                         (* the oldest pending continuation runs *)

Definition is_submit (a : Action) : bool :=
  match a with Submit _ => true | _ => false end.

(** Removes the first occurrence of [u]. *)
Fixpoint remove_first (u : nat) (l : list nat) : option (list nat) :=
  match l with
  | [] => None
  | x :: l' => if (x =? u)%nat then Some l'
               else match remove_first u l' with
                    | Some r => Some (x :: r)
                    | None => None
                    end
  end.

(** [active++; ... fn()] *)
Definition start (u : nat) (st : State) : State :=
  {| active := active st + 1; queue := queue st; jobs := jobs st;
     running := u :: running st;
     started := started st ++ [u]; enqueued := enqueued st;
     released := released st; completed := completed st |}.

(** [next] as run by the [finally] block of unit [u], whose continuation
    has just been taken from the job queue [js]. *)
Definition next (u : nat) (ok : bool) (js : list Job) (st : State) : State :=
  match queue st with
  | [] =>
      {| active := active st - 1; queue := []; jobs := js;
         running := running st;
         started := started st; enqueued := enqueued st;
         released := released st; completed := completed st ++ [(u, ok)] |}
  | w :: q =>
      {| active := active st - 1; queue := q; jobs := js ++ [Resume w];
         running := running st;
         started := started st; enqueued := enqueued st;
         released := released st ++ [w]; completed := completed st ++ [(u, ok)] |}
  end.

(** One step of the execution; [None] when the action cannot happen in the
    state (a unit that is not running settles, no continuation is
    pending). *)
Definition step (concurrency : Z) (st : State) (a : Action) : option State :=
  match a with
  | Submit u =>
      if (concurrency <=? active st)%Z then
        Some {| active := active st; queue := queue st ++ [u]; jobs := jobs st;
                running := running st;
                started := started st; enqueued := enqueued st ++ [u];
                released := released st; completed := completed st |}
      else Some (start u st)
  | Settle u ok =>
      match remove_first u (running st) with
      | Some r =>
          Some {| active := active st; queue := queue st;
                  jobs := jobs st ++ [Finish u ok]; running := r;
                  started := started st; enqueued := enqueued st;
                  released := released st; completed := completed st |}
      | None => None
      end
  | Tick =>
      match jobs st with
      | [] => None
      | Resume u :: js =>
          Some (start u {| active := active st; queue := queue st; jobs := js;
                           running := running st;
                           started := started st; enqueued := enqueued st;
                           released := released st; completed := completed st |})
      | Finish u ok :: js => Some (next u ok js st)
      end
  end.

Fixpoint run (concurrency : Z) (st : State) (trace : list Action) : option State :=
  match trace with
  | [] => Some st
  | a :: trace' =>
      match step concurrency st a with
      | Some st' => run concurrency st' trace'
      | None => None
      end
  end.

(** The units released from the queue that have not resumed yet, and the
    units whose [finally] block is pending. *)
Definition resumes (js : list Job) : list nat :=
  omap (fun j => match j with Resume u => Some u | Finish _ _ => None end) js.

Definition finishes (js : list Job) : list nat :=
  omap (fun j => match j with Finish u _ => Some u | Resume _ => None end) js.

(** The units a trace submits, in order. *)
Definition submitted (trace : list Action) : list nat :=
  omap (fun a => match a with Submit u => Some u | _ => None end) trace.

(** No unit is submitted while a released waiter has yet to resume. *)
Fixpoint admissible (concurrency : Z) (st : State) (trace : list Action) : Prop :=
  match trace with
  | [] => True
  | a :: trace' =>
      (is_submit a = true -> resumes (jobs st) = []) /\
      match step concurrency st a with
      | Some st' => admissible concurrency st' trace'
      | None => True
      end
  end.

(** The steps a state still owes: a queued or released unit has to resume,
    settle and finish, a running unit to settle and finish, a settled unit
    to finish. *)
Definition owed (st : State) : nat :=
  3 * length (queue st) + 3 * length (resumes (jobs st))
  + 2 * length (running st) + length (finishes (jobs st)).

Arguments resumes : simpl never.
Arguments finishes : simpl never.
Arguments owed : simpl never.

(** ** Invariants of the executor *)

(** What holds of every state reached by an admissible trace that has
    submitted the units [sub]. *)
Record Inv (concurrency : Z) (sub : list nat) (st : State) : Prop := {
  inv_active :
    active st = Z.of_nat (length (running st) + length (finishes (jobs st)));
  inv_bound :
    (active st + Z.of_nat (length (resumes (jobs st))) <= concurrency)%Z;
  inv_full :
    queue st <> [] ->
    (active st + Z.of_nat (length (resumes (jobs st))) = concurrency)%Z;
  inv_order : started st ++ resumes (jobs st) ++ queue st = sub;
  inv_started :
    started st ≡ₚ map fst (completed st) ++ finishes (jobs st) ++ running st;
  inv_fifo : released st ++ queue st = enqueued st;
  inv_enqueued : sublist (enqueued st) sub;
  inv_released : length (released st) <= length (completed st)
}.

Lemma remove_first_perm (u : nat) (l r : list nat) :
  remove_first u l = Some r -> l ≡ₚ u :: r.
Proof.
  revert r. induction l as [|x l IH]; intros r; cbn [remove_first]; [discriminate|].
  destruct (Nat.eqb_spec x u) as [->|Hne].
  - by intros [= ->].
  - destruct (remove_first u l) as [r'|]; [|discriminate].
    intros [= <-]. rewrite (IH r' eq_refl). apply Permutation_swap.
Qed.

Lemma remove_first_elem (u : nat) (l : list nat) :
  u ∈ l -> is_Some (remove_first u l).
Proof.
  induction l as [|x l IH]; [intros H; by apply elem_of_nil in H|].
  cbn [remove_first]. destruct (Nat.eqb_spec x u) as [->|Hne]; [by eexists|].
  intros [E|H]%elem_of_cons; [congruence|].
  destruct (IH H) as [r ->]. by eexists.
Qed.

Lemma resumes_snoc_finish (js : list Job) (u : nat) (ok : bool) :
  resumes (js ++ [Finish u ok]) = resumes js.
Proof. unfold resumes. rewrite omap_app. cbn. apply app_nil_r. Qed.

Lemma resumes_snoc_resume (js : list Job) (w : nat) :
  resumes (js ++ [Resume w]) = resumes js ++ [w].
Proof. unfold resumes. by rewrite omap_app. Qed.

Lemma finishes_snoc_finish (js : list Job) (u : nat) (ok : bool) :
  finishes (js ++ [Finish u ok]) = finishes js ++ [u].
Proof. unfold finishes. by rewrite omap_app. Qed.

Lemma finishes_snoc_resume (js : list Job) (w : nat) :
  finishes (js ++ [Resume w]) = finishes js.
Proof. unfold finishes. rewrite omap_app. cbn. apply app_nil_r. Qed.

Lemma resumes_cons_resume (js : list Job) (u : nat) :
  resumes (Resume u :: js) = u :: resumes js.
Proof. reflexivity. Qed.

Lemma resumes_cons_finish (js : list Job) (u : nat) (ok : bool) :
  resumes (Finish u ok :: js) = resumes js.
Proof. reflexivity. Qed.

Lemma finishes_cons_resume (js : list Job) (u : nat) :
  finishes (Resume u :: js) = finishes js.
Proof. reflexivity. Qed.

Lemma finishes_cons_finish (js : list Job) (u : nat) (ok : bool) :
  finishes (Finish u ok :: js) = u :: finishes js.
Proof. reflexivity. Qed.

Lemma init_inv (concurrency : Z) : (0 <= concurrency)%Z -> Inv concurrency [] init.
Proof.
  intros HC. split; cbn; try done; lia.
Qed.

Lemma started_push (sta A F run : list nat) (u : nat) :
  sta ≡ₚ A ++ F ++ run -> sta ++ [u] ≡ₚ A ++ F ++ u :: run.
Proof.
  intros H. rewrite <- Permutation_cons_append, H.
  rewrite (Permutation_middle A). apply Permutation_app_head, Permutation_middle.
Qed.

(** A step allowed by the discipline keeps the invariant. *)
Lemma step_inv (concurrency : Z) (sub : list nat) (st st' : State) (a : Action) :
  Inv concurrency sub st ->
  (is_submit a = true -> resumes (jobs st) = []) ->
  step concurrency st a = Some st' ->
  Inv concurrency (sub ++ submitted [a]) st'.
Proof.
  intros [Ha Hb Hf Ho Hs Hq He Hr] Hdisc Hstep.
  destruct st as [act que js run sta enq rel com]. cbn in *.
  destruct a as [u|u ok|]; cbn in Hstep.
  - (* Submit *)
    specialize (Hdisc eq_refl). rewrite Hdisc in *. cbn in *.
    destruct (Z.leb_spec concurrency act) as [Hge|Hlt]; injection Hstep as <-.
    + split; cbn; rewrite ?Hdisc; cbn; try done; try lia.
      * rewrite <- Ho. by rewrite <- !app_assoc.
      * by rewrite <- Hq, app_assoc.
      * by apply sublist_app.
    + assert (que = []) as ->.
      { destruct que; [reflexivity|]. exfalso.
        assert (H : (act + 0 = concurrency)%Z) by (by apply Hf). lia. }
      rewrite app_nil_r in Ho.
      split; cbn; rewrite ?Hdisc; cbn; try done; try lia.
      * by rewrite app_nil_r, Ho.
      * by apply started_push.
      * by apply sublist_inserts_r.
  - (* Settle *)
    destruct (remove_first u run) as [r|] eqn:Er; [|discriminate].
    injection Hstep as <-. apply remove_first_perm in Er.
    assert (Hlen : length run = S (length r)) by (by rewrite Er).
    rewrite app_nil_r.
    split; cbn; rewrite ?resumes_snoc_finish, ?finishes_snoc_finish, ?length_app; cbn;
      try done; try lia.
    rewrite Hs, Er. by rewrite <- !app_assoc.
  - (* Tick *)
    rewrite app_nil_r.
    destruct js as [|[u|u ok] js]; [discriminate| |]; injection Hstep as <-;
      rewrite ?resumes_cons_resume, ?resumes_cons_finish, ?finishes_cons_resume,
        ?finishes_cons_finish in *; cbn in *.
    + (* a released waiter resumes *)
      split; cbn; try done; try lia.
      * intros H. specialize (Hf H). lia.
      * rewrite <- Ho. by rewrite <- !app_assoc.
      * by apply started_push.
    + (* a settled unit runs [next] *)
      unfold next. cbn. destruct que as [|w q]; cbn.
      * split; cbn; rewrite ?length_app; cbn; try done; try lia.
        rewrite Hs, map_app. cbn. by rewrite <- !app_assoc.
      * assert (Hfull : (act + Z.of_nat (length (resumes js)) = concurrency)%Z)
          by (by apply Hf).
        split; cbn; rewrite ?resumes_snoc_resume, ?finishes_snoc_resume, ?length_app; cbn;
          try done; try lia.
        -- rewrite <- Ho. by rewrite <- !app_assoc.
        -- rewrite Hs, map_app. cbn. by rewrite <- !app_assoc.
        -- rewrite <- Hq. by rewrite <- !app_assoc.
Qed.

Lemma submitted_cons (a : Action) (trace : list Action) :
  submitted (a :: trace) = submitted [a] ++ submitted trace.
Proof. by destruct a. Qed.

Lemma run_inv (concurrency : Z) (trace : list Action) (sub : list nat) (st st' : State) :
  Inv concurrency sub st ->
  admissible concurrency st trace ->
  run concurrency st trace = Some st' ->
  Inv concurrency (sub ++ submitted trace) st'.
Proof.
  revert sub st. induction trace as [|a trace IH]; intros sub st Hinv Hadm Hrun.
  - injection Hrun as <-. by rewrite app_nil_r.
  - cbn [run admissible] in Hrun, Hadm. destruct Hadm as [Hdisc Hadm].
    destruct (step concurrency st a) as [st1|] eqn:Hstep; [|discriminate].
    pose proof (step_inv _ _ _ _ _ Hinv Hdisc Hstep) as Hinv1.
    specialize (IH _ _ Hinv1 Hadm Hrun).
    by rewrite submitted_cons, app_assoc.
Qed.

Lemma run_trace_app (concurrency : Z) (tr1 tr2 : list Action) (st st' : State) :
  run concurrency st (tr1 ++ tr2) = Some st' <->
  exists st1, run concurrency st tr1 = Some st1 /\ run concurrency st1 tr2 = Some st'.
Proof.
  revert st. induction tr1 as [|a tr1 IH]; intros st; cbn [run app].
  - split; [by exists st | by intros (st1 & [= <-] & H)].
  - destruct (step concurrency st a) as [st1|]; [apply IH|].
    split; [discriminate | by intros (st1 & H & _)].
Qed.

(** ** The steps of an execution are counted *)

Lemma step_owed (concurrency : Z) (st st' : State) (a : Action) :
  step concurrency st a = Some st' ->
  if is_submit a then owed st' <= owed st + 3 else S (owed st') = owed st.
Proof.
  destruct st as [act que js run sta enq rel com]. unfold owed.
  destruct a as [u|u ok|]; cbn [step is_submit]; cbn.
  - destruct (concurrency <=? act)%Z; intros [= <-]; cbn; rewrite ?length_app; cbn; lia.
  - destruct (remove_first u run) as [r|] eqn:Er; [|discriminate].
    intros [= <-]. cbn. apply remove_first_perm in Er.
    assert (Hlen : length run = S (length r)) by (by rewrite Er).
    rewrite resumes_snoc_finish, finishes_snoc_finish, length_app. cbn. lia.
  - destruct js as [|[u|u ok] js]; [discriminate| |]; intros [= <-].
    + cbn. rewrite resumes_cons_resume, finishes_cons_resume. cbn. lia.
    + unfold next. cbn. rewrite resumes_cons_finish, finishes_cons_finish.
      destruct que as [|w q]; cbn;
        rewrite ?resumes_snoc_resume, ?finishes_snoc_resume, ?length_app; cbn; lia.
Qed.

Lemma run_owed (concurrency : Z) (trace : list Action) (st st' : State) :
  run concurrency st trace = Some st' ->
  owed st' + length trace <= owed st + 4 * length (submitted trace).
Proof.
  revert st. induction trace as [|a trace IH]; intros st Hrun.
  - injection Hrun as <-. cbn. lia.
  - cbn [run] in Hrun.
    destruct (step concurrency st a) as [st1|] eqn:Hstep; [|discriminate].
    specialize (IH _ Hrun). apply step_owed in Hstep.
    rewrite submitted_cons, length_app. cbn [length].
    destruct a as [u|u ok|]; cbn [is_submit] in Hstep; cbn; lia.
Qed.

(** ** Units submitted together *)

Lemma submitted_batch (units : list nat) (sched : list Action) :
  Forall (fun a => is_submit a = false) sched ->
  submitted (map Submit units ++ sched) = units.
Proof.
  intros Hs. unfold submitted. rewrite omap_app.
  assert (H1 : omap (fun a => match a with Submit u => Some u | _ => None end)
                 (map Submit units) = units).
  { induction units as [|u units IH]; [reflexivity|]. cbn. by rewrite IH. }
  assert (H2 : omap (fun a => match a with Submit u => Some u | _ => None end) sched = []).
  { induction Hs as [|a sched Ha _ IH]; [reflexivity|].
    destruct a; [discriminate | exact IH | exact IH]. }
  by rewrite H1, H2, app_nil_r.
Qed.

Lemma admissible_no_submit (concurrency : Z) (sched : list Action) (st : State) :
  Forall (fun a => is_submit a = false) sched -> admissible concurrency st sched.
Proof.
  intros Hs. revert st. induction Hs as [|a sched Ha _ IH]; intros st; cbn [admissible];
    [exact I|].
  split; [congruence|]. destruct (step concurrency st a); [apply IH | exact I].
Qed.

Lemma admissible_batch (concurrency : Z) (units : list nat) (sched : list Action) (st : State) :
  jobs st = [] -> Forall (fun a => is_submit a = false) sched ->
  admissible concurrency st (map Submit units ++ sched).
Proof.
  intros Hj Hs. revert st Hj. induction units as [|u units IH]; intros st Hj.
  - by apply admissible_no_submit.
  - cbn [map app admissible]. split; [by rewrite Hj|].
    destruct (step concurrency st (Submit u)) as [st1|] eqn:Hstep; [|exact I].
    apply IH. cbn [step] in Hstep.
    destruct (concurrency <=? active st)%Z; injection Hstep as <-; exact Hj.
Qed.

Lemma step_enqueued (concurrency : Z) (st st' : State) (a : Action) :
  is_submit a = false -> step concurrency st a = Some st' -> enqueued st' = enqueued st.
Proof.
  destruct a as [u|u ok|]; [discriminate| |]; intros _; cbn [step].
  - destruct (remove_first u (running st)); [|discriminate]. by intros [= <-].
  - destruct (jobs st) as [|[u|u ok] js]; [discriminate| |]; intros [= <-]; [reflexivity|].
    unfold next. by destruct (queue st).
Qed.

Lemma run_enqueued (concurrency : Z) (sched : list Action) (st st' : State) :
  Forall (fun a => is_submit a = false) sched ->
  run concurrency st sched = Some st' -> enqueued st' = enqueued st.
Proof.
  intros Hs. revert st. induction Hs as [|a sched Ha _ IH]; intros st; cbn [run].
  - by intros [= <-].
  - destruct (step concurrency st a) as [st1|] eqn:Hstep; [|discriminate].
    intros Hrun. rewrite (IH _ Hrun). by eapply step_enqueued.
Qed.

(** The state once [units] have been submitted together to a fresh
    limiter: the first [concurrency] units run, the others wait in order. *)
Definition after_batch (concurrency : Z) (units : list nat) : State :=
  let c := Z.to_nat concurrency in
  {| active := Z.of_nat (length units `min` c);
     queue := drop c units; jobs := [];
     running := rev (take c units);
     started := take c units; enqueued := drop c units;
     released := []; completed := [] |}.

Lemma run_batch (concurrency : Z) (units : list nat) :
  (0 <= concurrency)%Z ->
  run concurrency init (map Submit units) = Some (after_batch concurrency units).
Proof.
  intros HC. induction units as [|u units IH] using rev_ind.
  - cbn. unfold after_batch. cbn. by rewrite !drop_nil, take_nil.
  - rewrite map_app. apply run_trace_app. eexists. split; [exact IH|].
    cbn [map run step]. unfold after_batch, start. cbn.
    destruct (Z.leb_spec concurrency (Z.of_nat (length units `min` Z.to_nat concurrency)))
      as [Hge|Hlt].
    + assert (Hlen : Z.to_nat concurrency <= length units) by lia.
      rewrite length_app. cbn.
      rewrite (drop_app_le _ _ _ Hlen), (take_app_le _ _ _ Hlen).
      do 2 f_equal. f_equal. lia.
    + assert (Hlen : length units < Z.to_nat concurrency) by lia.
      rewrite length_app. cbn.
      rewrite !drop_ge, !take_ge by (rewrite ?length_app; cbn; lia).
      rewrite rev_app_distr. cbn.
      do 2 f_equal. f_equal. lia.
Qed.

(** ** Completion *)

Lemma inv_idle (concurrency : Z) (units : list nat) (st : State) :
  (1 <= concurrency)%Z -> Inv concurrency units st ->
  running st = [] -> jobs st = [] ->
  map fst (completed st) ≡ₚ units /\ active st = 0%Z /\ queue st = [].
Proof.
  intros HC [Ha Hb Hf Ho Hs Hq He Hr] Hrun0 Hjobs0. rewrite Hrun0, Hjobs0 in *.
  change (finishes []) with (@nil nat) in *. change (resumes []) with (@nil nat) in *.
  cbn in Ha, Hb, Hf, Ho, Hs.
  assert (Hque : queue st = []).
  { destruct (queue st) eqn:E; [reflexivity|]. exfalso.
    assert (H : (active st + 0 = concurrency)%Z) by (by apply Hf). lia. }
  rewrite Hque, !app_nil_r in *. split_and!; [|exact Ha|reflexivity].
  by rewrite <- Hs, Ho.
Qed.

(** Unless nothing is running and no continuation is pending, a unit can
    settle or a continuation can run. *)
Lemma can_step (concurrency : Z) (st : State) :
  (running st = [] /\ jobs st = []) \/
  exists a st', is_submit a = false /\ step concurrency st a = Some st'.
Proof.
  destruct (running st) as [|u r] eqn:Hrunning.
  - destruct (jobs st) as [|j js] eqn:Hjobs; [by left|].
    right. exists Tick. cbn [step]. rewrite Hjobs. destruct j; by eexists.
  - right. exists (Settle u true). cbn [step]. rewrite Hrunning.
    destruct (remove_first_elem u (u :: r)) as [r' ->]; [left | by eexists].
Qed.

(** From every state that an admissible execution reaches, the units can
    all be brought to completion without further submission. *)
Lemma completion_reachable (concurrency : Z) (units : list nat) (st : State) :
  (1 <= concurrency)%Z -> Inv concurrency units st ->
  exists sched st',
    Forall (fun a => is_submit a = false) sched /\
    run concurrency st sched = Some st' /\
    map fst (completed st') ≡ₚ units.
Proof.
  intros HC. remember (owed st) as n eqn:Hn. revert st Hn.
  induction n as [n IH] using lt_wf_ind. intros st Hn Hinv.
  destruct (can_step concurrency st) as [[Hr Hj]|(a & st1 & Ha & Hstep)].
  - exists [], st. split_and!; [constructor | reflexivity |].
    by apply (inv_idle concurrency units st HC Hinv).
  - pose proof (step_owed _ _ _ _ Hstep) as Howed. rewrite Ha in Howed.
    assert (Hinv1 : Inv concurrency units st1).
    { assert (Hdisc : is_submit a = true -> resumes (jobs st) = [])
        by (rewrite Ha; discriminate).
      pose proof (step_inv _ _ _ _ _ Hinv Hdisc Hstep) as H.
      destruct a; [discriminate| |]; by rewrite app_nil_r in H. }
    destruct (IH (owed st1) ltac:(lia) st1 eq_refl Hinv1) as (sched & st' & Hs & Hrun & Hdone).
    exists (a :: sched), st'. split_and!; [by constructor | | exact Hdone].
    cbn [run]. by rewrite Hstep.
Qed.

(** The example of the specification: ten units, at most two at a time.
    The units settle in the order of their numbers, the second one by a
    failure. *)
Definition ex_units : list nat := seq 0 10.

Definition ex_sched : list Action :=
  [ Settle 0 true; Tick; Tick; Settle 1 false; Tick; Tick;
    Settle 2 true; Tick; Tick; Settle 3 true; Tick; Tick;
    Settle 4 true; Tick; Tick; Settle 5 true; Tick; Tick;
    Settle 6 true; Tick; Tick; Settle 7 true; Tick; Tick;
    Settle 8 true; Tick; Settle 9 true; Tick ].

Definition ex_final : State :=
  Eval vm_compute in default init (run 2 init (map Submit ex_units ++ ex_sched)).


(** Units submitted together: such an execution is admissible, the first
    [concurrency] units start at once and the others wait in order. *)
Lemma pLimit_batch (concurrency : Z) (units : list nat) (sched : list Action) (st : State) :
  (1 <= concurrency)%Z ->
  Forall (fun a => is_submit a = false) sched ->
  run concurrency init (map Submit units ++ sched) = Some st ->
  admissible concurrency init (map Submit units ++ sched) /\
  submitted (map Submit units ++ sched) = units /\
  (Z.of_nat (length (running st)) <= concurrency)%Z /\
  started st `prefix_of` units /\
  released st ++ queue st = drop (Z.to_nat concurrency) units /\
  length sched <= 3 * length units.
Proof.
  intros HC Hsched Hrun.
  assert (Hadm : admissible concurrency init (map Submit units ++ sched))
    by (by apply admissible_batch).
  assert (Hinv : Inv concurrency units st).
  { rewrite <- (submitted_batch units sched Hsched).
    apply (run_inv concurrency _ [] init); [apply init_inv; lia | exact Hadm | exact Hrun]. }
  destruct Hinv as [Ha Hb Hf Ho Hs Hq He Hr].
  split_and!.
  - exact Hadm.
  - by apply submitted_batch.
  - lia.
  - by eexists.
  - rewrite Hq. apply run_trace_app in Hrun as (st1 & H1 & H2).
    rewrite run_batch in H1 by lia. injection H1 as <-.
    by rewrite (run_enqueued _ _ _ _ Hsched H2).
  - pose proof (run_owed _ _ _ _ Hrun) as Hsteps.
    rewrite submitted_batch, length_app, length_map in Hsteps by exact Hsched.
    change (owed init) with 0 in Hsteps. lia.
Qed.



(** That execution is not admissible. *)
Example late_submission_not_admissible :
  ~ admissible 1 init [Submit 0; Submit 1; Settle 0 true; Tick; Submit 2; Tick].
Proof.
  cbn. intros (_ & _ & _ & _ & H & _). by specialize (H eq_refl).
Qed.

(** ** A limit of zero *)

(** Nothing has started and nothing is pending. *)
Definition idle (st : State) : Prop :=
  active st = 0%Z /\ jobs st = [] /\ running st = [] /\ started st = [] /\ completed st = [].

Lemma run_idle (concurrency : Z) (trace : list Action) (st st' : State) :
  (concurrency <= 0)%Z -> idle st -> run concurrency st trace = Some st' ->
  idle st' /\ queue st' = queue st ++ submitted trace /\
  Forall (fun a => is_submit a = true) trace.
Proof.
  intros Hc. revert st. induction trace as [|a trace IH]; intros st Hidle Hrun.
  - injection Hrun as <-. split_and!; [exact Hidle | by rewrite app_nil_r | constructor].
  - destruct Hidle as (Ha & Hj & Hr & Hs & Hd). cbn [run] in Hrun.
    destruct a as [u|u ok|]; cbn [step] in Hrun.
    + destruct (Z.leb_spec concurrency (active st)) as [_|Hlt]; [|lia].
      apply IH in Hrun as (Hidle' & Hq & Hall); [|by split_and!].
      split_and!; [exact Hidle' | | by constructor].
      rewrite Hq. cbn [queue]. rewrite submitted_cons. cbn. by rewrite <- app_assoc.
    + rewrite Hr in Hrun. discriminate.
    + rewrite Hj in Hrun. discriminate.
Qed.

(** X19: with a limit of zero or less no unit ever starts: every submitted unit
    waits in the queue, nothing else can happen, and no unit completes. *)
Theorem pLimit_zero_starts_nothing (concurrency : Z) (trace : list Action) (st : State) :
  (concurrency <= 0)%Z ->
  run concurrency init trace = Some st ->
  started st = [] /\ completed st = [] /\ queue st = submitted trace /\
  Forall (fun a => is_submit a = true) trace /\
  (forall u ok, step concurrency st (Settle u ok) = None) /\
  step concurrency st Tick = None.
Proof.
  intros Hc Hrun.
  apply (run_idle concurrency trace init st Hc) in Hrun as ((Ha & Hj & Hr & Hs & Hd) & Hq & Hall);
    [|by split_and!].
  split_and!; try done.
  - intros u ok. cbn [step]. by rewrite Hr.
  - cbn [step]. by rewrite Hj.
Qed.

Lemma pLimit_zero_example :
  let st := {| active := 0; queue := [0; 1]; jobs := []; running := [];
               started := []; enqueued := [0; 1]; released := []; completed := [] |} in
  started st = [] /\ completed st = [] /\ queue st = submitted [Submit 0; Submit 1] /\
  Forall (fun a => is_submit a = true) [Submit 0; Submit 1] /\
  (forall u ok, step 0 st (Settle u ok) = None) /\
  step 0 st Tick = None.
Proof.
  apply (pLimit_zero_starts_nothing 0 [Submit 0; Submit 1]); [lia | reflexivity].
Defined.

(** ** One batch per target *)

(** The pipeline hands the limiter one batch of units per target, all
    submitted together, and waits for the whole batch ([await Promise.all])
    before it submits the next: a batch is a list of units with the settles
    and continuations that follow their submission. *)
Definition batch_trace (b : list nat * list Action) : list Action :=
  map Submit (fst b) ++ snd b.

(** Each batch of [bs] runs from [st] until nothing is running and no
    continuation is pending. *)
Fixpoint batches (concurrency : Z) (st : State) (bs : list (list nat * list Action)) : Prop :=
  match bs with
  | [] => True
  | b :: rest =>
      Forall (fun a => is_submit a = false) (snd b) /\
      match run concurrency st (batch_trace b) with
      | Some st' => running st' = [] /\ jobs st' = [] /\ batches concurrency st' rest
      | None => False
      end
  end.

Lemma admissible_app (concurrency : Z) (tr1 tr2 : list Action) (st st1 : State) :
  admissible concurrency st tr1 -> run concurrency st tr1 = Some st1 ->
  admissible concurrency st1 tr2 -> admissible concurrency st (tr1 ++ tr2).
Proof.
  revert st. induction tr1 as [|a tr1 IH]; intros st Hadm Hrun Hadm2.
  - injection Hrun as ->. exact Hadm2.
  - cbn [app admissible run] in *. destruct Hadm as [Hd Hadm]. split; [exact Hd|].
    destruct (step concurrency st a) as [st'|]; [|exact I]. by apply IH.
Qed.

Lemma batches_run (concurrency : Z) (bs : list (list nat * list Action)) (st : State) :
  jobs st = [] -> running st = [] -> batches concurrency st bs ->
  exists st', run concurrency st (concat (map batch_trace bs)) = Some st' /\
              jobs st' = [] /\ running st' = [] /\
              admissible concurrency st (concat (map batch_trace bs)).
Proof.
  revert st. induction bs as [|b bs IH]; intros st Hj Hr Hbs.
  - exists st. by split_and!.
  - cbn [batches] in Hbs. destruct Hbs as [Hsched Hbs].
    destruct (run concurrency st (batch_trace b)) as [st1|] eqn:Hrun; [|contradiction].
    destruct Hbs as (Hr1 & Hj1 & Hbs).
    destruct (IH st1 Hj1 Hr1 Hbs) as (st' & Hrun' & Hj' & Hr' & Hadm').
    exists st'. cbn [map concat]. split_and!; try done.
    + apply run_trace_app. by exists st1.
    + eapply admissible_app; [|exact Hrun|exact Hadm'].
      by apply admissible_batch.
Qed.

(** X20: the limiter as the pipeline uses it: after any number of completed
    batches, and at any point of the batch in progress, at most
    [concurrency] units are running, the units have started in the order of
    their submission, and every unit of the completed batches has
    completed. *)
Theorem pLimit_successive_batches (concurrency : Z) (bs : list (list nat * list Action))
    (units : list nat) (sched : list Action) (st : State) :
  (1 <= concurrency)%Z ->
  batches concurrency init bs ->
  Forall (fun a => is_submit a = false) sched ->
  run concurrency init (concat (map batch_trace bs) ++ batch_trace (units, sched)) = Some st ->
  (Z.of_nat (length (running st)) <= concurrency)%Z /\
  started st `prefix_of` concat (map fst bs) ++ units /\
  (forall u, u ∈ concat (map fst bs) -> u ∈ map fst (completed st)).
Proof.
  intros HC Hbs Hsched Hrun.
  destruct (batches_run concurrency bs init eq_refl eq_refl Hbs) as (st1 & Hrun1 & Hj1 & Hr1 & Hadm1).
  apply run_trace_app in Hrun as (st1' & Hrun1' & Hrun2).
  rewrite Hrun1 in Hrun1'. injection Hrun1' as <-.
  assert (Hinv1 : Inv concurrency (submitted (concat (map batch_trace bs))) st1).
  { apply (run_inv concurrency _ [] init); [apply init_inv; lia | exact Hadm1 | exact Hrun1]. }
  assert (Hsub1 : submitted (concat (map batch_trace bs)) ≡ₚ map fst (completed st1)).
  { symmetry. by apply (inv_idle concurrency _ st1 HC Hinv1). }
  assert (Hunits1 : submitted (concat (map batch_trace bs)) = concat (map fst bs)).
  { clear -Hbs. generalize init Hbs. clear Hbs.
    induction bs as [|b bs IH]; intros st0 Hbs; [reflexivity|].
    cbn [batches] in Hbs. destruct Hbs as [Hsched Hbs].
    destruct (run concurrency st0 (batch_trace b)) as [st1|]; [|contradiction].
    destruct Hbs as (_ & _ & Hbs). cbn [map concat].
    unfold submitted. rewrite omap_app. fold (submitted (batch_trace b)).
    fold (submitted (concat (map batch_trace bs))).
    rewrite (IH _ Hbs). unfold batch_trace at 1. by rewrite submitted_batch. }
  assert (Hinv : Inv concurrency (submitted (concat (map batch_trace bs)) ++
                                  submitted (batch_trace (units, sched))) st).
  { apply (run_inv concurrency _ _ st1); [exact Hinv1 | | exact Hrun2].
    by apply admissible_batch. }
  unfold batch_trace in Hinv at 2. cbn [fst snd] in Hinv.
  rewrite (submitted_batch units sched Hsched), Hunits1 in Hinv.
  destruct Hinv as [Ha Hb Hf Ho Hs Hq He Hr].
  split_and!.
  - lia.
  - by eexists.
  - intros u Hu. rewrite <- Hunits1, Hsub1 in Hu.
    assert (Hmono : forall tr s s', run concurrency s tr = Some s' ->
               completed s `prefix_of` completed s').
    { clear. induction tr as [|a tr IH]; intros s s' Hrun.
      - by injection Hrun as <-.
      - cbn [run] in Hrun. destruct (step concurrency s a) as [s1|] eqn:Hstep; [|discriminate].
        etrans; [|by eapply IH].
        destruct a as [v|v ok|]; cbn [step] in Hstep.
        + destruct (concurrency <=? active s)%Z; by injection Hstep as <-.
        + destruct (remove_first v (running s)); [|discriminate]. by injection Hstep as <-.
        + destruct (jobs s) as [|[v|v ok] js]; [discriminate| |]; injection Hstep as <-;
            [reflexivity|].
          unfold next. destruct (queue s); cbn; by eexists. }
    destruct (Hmono _ _ _ Hrun2) as [more ->]. rewrite map_app. apply elem_of_app. by left.
Qed.

(** The batch of the example, completed, followed by a second batch of three
    units under way. *)
Lemma pLimit_successive_batches_example :
  let st := default init (run 2 init (concat (map batch_trace [(ex_units, ex_sched)]) ++
                                       batch_trace ([10; 11; 12], [Settle 10 true]))) in
  (Z.of_nat (length (running st)) <= 2)%Z /\
  started st `prefix_of` concat (map fst [(ex_units, ex_sched)]) ++ [10; 11; 12] /\
  (forall u, u ∈ concat (map fst [(ex_units, ex_sched)]) -> u ∈ map fst (completed st)).
Proof.
  apply (pLimit_successive_batches 2 [(ex_units, ex_sched)] [10; 11; 12] [Settle 10 true]).
  - lia.
  - vm_compute. split_and!; try reflexivity. repeat constructor.
  - repeat constructor.
  - vm_compute. reflexivity.
Defined.

End Limiter.

(* ===================================================================== *)
(** * The numeric examples in double precision *)
(* ===================================================================== *)
(** * Competitive analysis (tool [babbar_competitive_analysis]) *)
(* ===================================================================== *)

Module Competitive.

Import Relevance.

(** A keyword row of the provider, with every field the two readers of such
    rows look at: [extractKeywords] reads [keywords], [keyword], [query],
    [q], [term] and [text]; [findKeywordOpportunities] reads the fields of
    [Keywords.KwRow].  The text fields are strings when present. *)
Record ApiRow := {
  api_keywords : option string;
  api_row : Keywords.KwRow;
  api_q : option string;
  api_term : option string;
  api_text : option string
}.

(** A row of [/host/similar]. *)
Record CompRow := {
  comp_host : option string;
  comp_similar : option string;
  comp_score : option Q
}.

(** What [analysisPromises] holds for a competitor with a host name. *)
Record Analysis := {
  host : string;
  similarityScore : Q;
  relevance : RelevanceAssessment;
  keywordOpportunities : list Keywords.Opportunity
}.

Inductive Outcome :=
| Failed (host : string)
| Analysed (a : Analysis).

Record Report := {
  competitors : list Analysis;
  topOpportunities : list Keywords.Opportunity;
  analyzedCount : nat;
  relevantCount : nat;
  opportunitiesFound : nat
}.

(** [comp.score || 0] *)
Definition or_score (s : option Q) : Q :=
  match s with
  | Some q => if Qeq_bool q 0 then 0%Q else q
  | None => 0%Q
  end.

Section WithStrings.

(** [String.prototype.toLowerCase] and [String.prototype.trim]; nothing is
    assumed about them. *)
Variable toLowerCase : string -> string.
Variable trim : string -> string.

(** [k.keywords || k.keyword || k.query || k.q || k.term || k.text || ""] *)
Definition keyword_text (k : ApiRow) : string :=
  Js.or_str (api_keywords k)
    (Js.or_str (Keywords.row_keyword (api_row k))
       (Js.or_str (Keywords.row_query (api_row k))
          (Js.or_str (api_q k) (Js.or_str (api_term k) (Js.or_str (api_text k) ""))))).

Definition extractKeywords (kwList : list ApiRow) : list string :=
  filter (fun s => s <> "") (map (fun k => trim (toLowerCase (keyword_text k))) kwList).

(** The body of [potentialCompetitors.map]: [None] for a row without host
    name; [answer] is the keyword list of the competitor, [None] when one of
    its two calls failed. *)
Definition analyse (baseKwList : list ApiRow) (baseKeywordsSet : gset string)
    (comp : CompRow) (answer : option (list ApiRow)) : option Outcome :=
  let competitorHost := Js.or_str (comp_host comp) (Js.or_str (comp_similar comp) "") in
  let similarityScore := (or_score (comp_score comp) * 100)%Q in
  if String.eqb competitorHost "" then None
  else
    match answer with
    | None => Some (Failed competitorHost)
    | Some cKwList =>
        let cKeywords := extractKeywords cKwList in
        let relevance := calculateCompetitorRelevance baseKeywordsSet cKeywords similarityScore in
        let opportunities :=
          Keywords.findKeywordOpportunities toLowerCase
            (map api_row baseKwList) (map api_row cKwList) competitorHost in
        Some (Analysed {| host := competitorHost;
                          similarityScore := similarityScore;
                          relevance := relevance;
                          keywordOpportunities := Js.slice0 5 opportunities |})
    end.

(** [c.success && c.isRelevant] *)
Definition relevant_of (o : Outcome) : option Analysis :=
  match o with
  | Analysed a => if isRelevant (relevance a) then Some a else None
  | Failed _ => None
  end.

Definition by_relevance (a b : Analysis) : Q :=
  (relevanceScore (relevance b) - relevanceScore (relevance a))%Q.

Definition relevantCompetitors (nCompetitors : Z) (all : list Outcome) : list Analysis :=
  Js.slice0 nCompetitors (Js.sortQ by_relevance (omap relevant_of all)).

(** The composite, from the keyword rows of the base host and the potential
    competitors with their answers. *)
Definition competitive_analysis (nCompetitors : Z) (baseKwList : list ApiRow)
    (potentialCompetitors : list (CompRow * option (list ApiRow))) : Report :=
  let baseKeywordsSet : gset string := list_to_set (extractKeywords baseKwList) in
  let allCompetitorAnalyses :=
    omap (fun ca => analyse baseKwList baseKeywordsSet (fst ca) (snd ca)) potentialCompetitors in
  let relevantCompetitors := relevantCompetitors nCompetitors allCompetitorAnalyses in
  let allOpportunities := concat (map keywordOpportunities relevantCompetitors) in
  {| competitors := relevantCompetitors;
     topOpportunities := Js.slice0 20 (Js.sortZ Keywords.opportunity_cmp allOpportunities);
     analyzedCount := length potentialCompetitors;
     relevantCount := length relevantCompetitors;
     opportunitiesFound := length allOpportunities |}.

End WithStrings.

(** ** Facts *)

Section Facts.
Variable toLowerCase : string -> string.
Variable trim : string -> string.

#[local] Abbreviation extractKeywords := (extractKeywords toLowerCase trim).
#[local] Abbreviation analyse := (analyse toLowerCase trim).
#[local] Abbreviation competitive_analysis := (competitive_analysis toLowerCase trim).

(** What [analyse] returns for a competitor it could analyse. *)
Lemma analyse_Analysed (baseKwList : list ApiRow) (baseSet : gset string)
    (comp : CompRow) (answer : option (list ApiRow)) (a : Analysis) :
  analyse baseKwList baseSet comp answer = Some (Analysed a) ->
  exists cKwList,
    answer = Some cKwList /\ host a <> "" /\
    host a = Js.or_str (comp_host comp) (Js.or_str (comp_similar comp) "") /\
    similarityScore a = (or_score (comp_score comp) * 100)%Q /\
    relevance a = calculateCompetitorRelevance baseSet (extractKeywords cKwList)
                    (similarityScore a) /\
    keywordOpportunities a =
      Js.slice0 5 (Keywords.findKeywordOpportunities toLowerCase
                     (map api_row baseKwList) (map api_row cKwList) (host a)).
Proof.
  unfold Competitive.analyse. cbv zeta.
  destruct (String.eqb_spec (Js.or_str (comp_host comp) (Js.or_str (comp_similar comp) "")) "")
    as [|Hne]; [discriminate|].
  destruct answer as [cKwList|]; [|discriminate].
  intros [= <-]. exists cKwList. cbn. by split_and!.
Qed.

Lemma elem_of_relevantCompetitors (n : Z) (all : list Outcome) (a : Analysis) :
  a ∈ relevantCompetitors n all -> Analysed a ∈ all /\ isRelevant (relevance a) = true.
Proof.
  unfold relevantCompetitors. intros H.
  apply Js.elem_of_slice0, Js.elem_of_sortQ, list_elem_of_omap in H as (o & Ho & Hrel).
  destruct o as [h|a']; [discriminate|]. cbn in Hrel.
  destruct (isRelevant (relevance a')) eqn:E; [|discriminate].
  injection Hrel as <-. by split.
Qed.

Lemma relevantCompetitors_sorted (n : Z) (all : list Outcome) :
  StronglySorted (fun a b => (relevanceScore (relevance b) <= relevanceScore (relevance a))%Q)
    (relevantCompetitors n all).
Proof.
  apply Js.StronglySorted_slice0, Js.sortQ_sorted.
  - intros a b. unfold by_relevance. rewrite Qle_bool_iff. split; intros H; lra.
  - intros a b.
    destruct (Qlt_le_dec (relevanceScore (relevance a)) (relevanceScore (relevance b)));
      [right | left]; lra.
  - intros a b c H1 H2. lra.
Qed.


End Facts.

(** ** Example *)

Definition api (k : string) (pos vol : Z) : ApiRow :=
  {| api_keywords := None; api_row := Keywords.row k pos vol;
     api_q := None; api_term := None; api_text := None |}.

(** A competitor that answers with two keywords, and one whose calls fail. *)
Definition ex_potential : list (CompRow * option (list ApiRow)) :=
  [ ({| comp_host := Some "competitor.example"; comp_similar := None;
        comp_score := Some (8 # 10) |},
     Some [api "widgets" 20 0; api "gadgets" 3 500]);
    ({| comp_host := None; comp_similar := Some "other.example"; comp_score := None |},
     None) ].


End Competitive.

(* ===================================================================== *)
(** * Position histogram (tool [babbar_serp_bin_trend]) *)
(* ===================================================================== *)

Module SerpBins.

Local Open Scope Z_scope.

(** A keyword row; only its position is read. *)
Record Row := {
  position : option Z;
  pos : option Z;
  rank : option Z
}.

(** The value of a bin: a count, or the [NaN] that [undefined + 1] leaves in
    a bin that was not initialised. *)
Inductive Count :=
| Num (n : Z)
| NotANumber.

(** The object [bins].  A key [`${start}-${end}`] is kept as the pair of
    integers it is printed from. *)
Abbreviation Bins := (gmap (Z * Z) Count).

(** [Math.min(start + binSize - 1, maxPos)] *)
Definition bin_end (binSize maxPos start : Z) : Z := Z.min (start + binSize - 1) maxPos.

(** The first loop, [for (let start = 1; start <= maxPos; start += binSize)],
    run from [start] for at most [fuel] iterations; [None] when the loop has
    not ended by then. *)
Fixpoint init_bins (fuel : nat) (binSize maxPos start : Z) (bins : Bins) : option Bins :=
  if start <=? maxPos then
    match fuel with
    | O => None
    | S fuel' =>
        init_bins fuel' binSize maxPos (start + binSize)
          (<[(start, bin_end binSize maxPos start) := Num 0]> bins)
    end
  else Some bins.

(** [Number(row.position || row.pos || row.rank || 0)] *)
Definition pos_of (row : Row) : Z :=
  Js.or_int (position row) (Js.or_int (pos row) (Js.or_int (rank row) 0)).

(** [bins[key] += 1] *)
Definition bump (key : Z * Z) (bins : Bins) : Bins :=
  <[key := match bins !! key with
           | Some (Num n) => Num (n + 1)
           | _ => NotANumber
           end]> bins.

(** The body of the second loop.  [Math.floor((pos - 1) / binSize)] is the
    floored quotient, for a bin size other than zero. *)
Definition count_row (binSize maxPos : Z) (bins : Bins) (row : Row) : Bins :=
  let p := pos_of row in
  if (p =? 0) || (maxPos <? p) then bins
  else
    let start := (p - 1) / binSize * binSize + 1 in
    bump (start, bin_end binSize maxPos start) bins.

Record Result := {
  bins : Bins;
  total : nat
}.

(** The tool, from the rows of the response. *)
Definition serp_bin_trend (fuel : nat) (binSize maxPos : Z) (list : list Row) : option Result :=
  match init_bins fuel binSize maxPos 1 ∅ with
  | Some bins0 =>
      Some {| bins := fold_left (count_row binSize maxPos) list bins0;
              total := length list |}
  | None => None
  end.

(** ** Facts *)

(** [key] is the bin number [k]. *)
Definition is_bin (binSize maxPos : Z) (key : Z * Z) : Prop :=
  exists k, 0 <= k /\ fst key = 1 + k * binSize /\ fst key <= maxPos /\
            snd key = bin_end binSize maxPos (fst key).

(** The rows of a list whose position falls in a bin. *)
Definition count_in (key : Z * Z) (l : list Row) : Z :=
  Z.of_nat (length (filter (fun r => fst key <= pos_of r <= snd key) l)).

Lemma init_bins_spec (binSize maxPos : Z) (fuel : nat) (start : Z) (bins0 : Bins) :
  1 <= binSize -> maxPos - start + 1 <= Z.of_nat fuel ->
  exists bins',
    init_bins fuel binSize maxPos start bins0 = Some bins' /\
    forall key,
      ((exists j, 0 <= j /\ fst key = start + j * binSize /\ fst key <= maxPos /\
                  snd key = bin_end binSize maxPos (fst key)) ->
       bins' !! key = Some (Num 0)) /\
      (~ (exists j, 0 <= j /\ fst key = start + j * binSize /\ fst key <= maxPos /\
                    snd key = bin_end binSize maxPos (fst key)) ->
       bins' !! key = bins0 !! key).
Proof.
  intros Hb. revert start bins0. induction fuel as [|fuel IH]; intros start bins0 Hfuel.
  - cbn [init_bins]. destruct (Z.leb_spec start maxPos); [lia|].
    exists bins0. split; [reflexivity|]. intros key. split; [|done].
    intros (j & Hj & Hs & Hle & _). nia.
  - cbn [init_bins]. destruct (Z.leb_spec start maxPos) as [Hle|Hgt].
    + destruct (IH (start + binSize)
                  (<[(start, bin_end binSize maxPos start) := Num 0]> bins0))
        as (bins' & Hrun & Hspec); [lia|].
      exists bins'. split; [exact Hrun|]. intros [s e]. cbn [fst snd].
      destruct (Hspec (s, e)) as [Hin Hout]. cbn [fst snd] in Hin, Hout. split.
      * intros (j & Hj & Hs & Hsle & He).
        destruct (decide (j = 0)) as [->|Hj0].
        -- rewrite Hout.
           ++ assert (s = start) as -> by lia. rewrite He. apply lookup_insert_eq.
           ++ intros (j' & Hj' & Hs' & _). nia.
        -- apply Hin. exists (j - 1). split_and!; [lia | lia | done | done].
      * intros Hnot. rewrite Hout.
        -- apply lookup_insert_ne. intros [= <- <-]. apply Hnot.
           exists 0. split_and!; [lia | lia | done | done].
        -- intros (j' & Hj' & Hs' & Hle' & He'). apply Hnot.
           exists (j' + 1). split_and!; [lia | lia | done | done].
    + exists bins0. split; [reflexivity|]. intros key. split; [|done].
      intros (j & Hj & Hs & Hle & _). nia.
Qed.

Lemma init_bins_keys (binSize maxPos : Z) (fuel : nat) :
  1 <= binSize -> maxPos <= Z.of_nat fuel ->
  exists bins0,
    init_bins fuel binSize maxPos 1 ∅ = Some bins0 /\
    forall key, (is_bin binSize maxPos key -> bins0 !! key = Some (Num 0)) /\
                (~ is_bin binSize maxPos key -> bins0 !! key = None).
Proof.
  intros Hb Hfuel.
  destruct (init_bins_spec binSize maxPos fuel 1 ∅ Hb) as (bins0 & Hrun & Hspec); [lia|].
  exists bins0. split; [exact Hrun|]. intros key. destruct (Hspec key) as [Hin Hout].
  split; [exact Hin|]. intros Hnot. rewrite (Hout Hnot). apply lookup_empty.
Qed.

(** The bin of a position between 1 and [maxPos]. *)
Lemma bin_of_position (binSize maxPos p : Z) :
  1 <= binSize -> 1 <= p <= maxPos ->
  let start := (p - 1) / binSize * binSize + 1 in
  let key := (start, bin_end binSize maxPos start) in
  is_bin binSize maxPos key /\ fst key <= p <= snd key /\
  forall key', is_bin binSize maxPos key' -> fst key' <= p <= snd key' -> key' = key.
Proof.
  intros Hb Hp. cbv zeta. cbn [fst snd].
  pose proof (Z.div_mod (p - 1) binSize ltac:(lia)) as Hdm.
  pose proof (Z.mod_pos_bound (p - 1) binSize ltac:(lia)) as Hmod.
  assert (Hk : 0 <= (p - 1) / binSize) by (apply Z.div_pos; lia).
  split_and!.
  - exists ((p - 1) / binSize). cbn [fst snd]. split_and!; [done | lia | nia | done].
  - nia.
  - unfold bin_end. nia.
  - intros [s e] (k & Hk0 & Hs & Hsle & He) [H1 H2]. cbn [fst snd] in *.
    assert (Hkeq : k = (p - 1) / binSize).
    { apply (Z.div_unique (p - 1) binSize k (p - 1 - k * binSize)); [|lia].
      left. unfold bin_end in He. nia. }
    subst k. f_equal; [lia|]. rewrite He. f_equal. lia.
Qed.

Lemma count_in_snoc (key : Z * Z) (l : list Row) (row : Row) :
  count_in key (l ++ [row]) =
  count_in key l + (if decide (fst key <= pos_of row <= snd key) then 1 else 0).
Proof.
  unfold count_in. rewrite filter_app, length_app, filter_cons, filter_nil.
  destruct (decide (fst key <= pos_of row <= snd key)); cbn [length]; lia.
Qed.

Lemma is_bin_range (binSize maxPos : Z) (key : Z * Z) (p : Z) :
  1 <= binSize -> is_bin binSize maxPos key -> fst key <= p <= snd key -> 1 <= p <= maxPos.
Proof.
  intros Hb (k & Hk & Hs & Hle & He) [H1 H2]. unfold bin_end in He. nia.
Qed.

(** The counting loop, on rows without negative position: a bin holds the
    number of rows whose position falls in it, and no other key appears. *)
Lemma count_rows_spec (binSize maxPos : Z) (bins0 : Bins) (l : list Row) :
  1 <= binSize ->
  (forall key, (is_bin binSize maxPos key -> bins0 !! key = Some (Num 0)) /\
               (~ is_bin binSize maxPos key -> bins0 !! key = None)) ->
  Forall (fun r => 0 <= pos_of r) l ->
  forall key,
    (is_bin binSize maxPos key ->
       fold_left (count_row binSize maxPos) l bins0 !! key = Some (Num (count_in key l))) /\
    (~ is_bin binSize maxPos key ->
       fold_left (count_row binSize maxPos) l bins0 !! key = None).
Proof.
  intros Hb H0. induction l as [|row l IH] using rev_ind; intros Hpos key.
  - destruct (H0 key) as [Hin Hout]. split; [|exact Hout]. exact Hin.
  - apply Forall_app in Hpos as [Hpos Hrow]. apply Forall_inv in Hrow.
    specialize (IH Hpos). rewrite fold_left_app. cbn [fold_left].
    rewrite count_in_snoc.
    set (B := fold_left (count_row binSize maxPos) l bins0) in *.
    assert (Hskip : (pos_of row = 0 \/ maxPos < pos_of row) ->
              (is_bin binSize maxPos key ->
                 B !! key = Some (Num (count_in key l +
                   (if decide (fst key <= pos_of row <= snd key) then 1 else 0)))) /\
              (~ is_bin binSize maxPos key -> B !! key = None)).
    { intros Hcase. destruct (IH key) as [Hin Hout]. split; [|exact Hout]. intros Hbin.
      rewrite (Hin Hbin). destruct (decide _) as [Hd|_]; [|by rewrite Z.add_0_r].
      pose proof (is_bin_range _ _ _ _ Hb Hbin Hd). lia. }
    unfold count_row. cbv zeta.
    destruct (Z.eqb_spec (pos_of row) 0) as [Hz|Hnz]; cbn [orb]; [apply Hskip; by left|].
    destruct (Z.ltb_spec maxPos (pos_of row)) as [Hbig|Hsmall]; [apply Hskip; by right|].
    clear Hskip. cbv beta iota.
    assert (Hp : 1 <= pos_of row <= maxPos) by lia.
    destruct (bin_of_position binSize maxPos (pos_of row) Hb Hp) as (Hbin0 & Hin0 & Huniq).
    cbv zeta in Hbin0, Hin0, Huniq.
    set (key0 := ((pos_of row - 1) / binSize * binSize + 1,
                  bin_end binSize maxPos ((pos_of row - 1) / binSize * binSize + 1))) in *.
    unfold bump. destruct (IH key0) as [Hk0 _]. rewrite (Hk0 Hbin0).
    destruct (decide (key = key0)) as [->|Hne].
    + rewrite lookup_insert_eq. split; [|contradiction]. intros _.
      destruct (decide _) as [_|Hd]; [reflexivity | contradiction].
    + rewrite lookup_insert_ne by done. destruct (IH key) as [Hin Hout].
      split; [|exact Hout]. intros Hbin. rewrite (Hin Hbin).
      destruct (decide _) as [Hd|_]; [|by rewrite Z.add_0_r].
      exfalso. apply Hne. by apply Huniq.
Qed.

(** X22: for a bin size of at least 1 and rows without negative position, the
    tool ends (the first loop takes at most [maxPos] iterations) and returns
    a histogram: the keys are the bins [1 + k * binSize ..
    min(k * binSize + binSize, maxPos)] that start within [maxPos]; the bin
    of a key holds the number of rows whose position lies in it; every
    position from 1 to [maxPos] lies in exactly one bin; and [total] counts
    all rows, those outside every bin included. *)
Theorem serp_bin_trend_histogram (fuel : nat) (binSize maxPos : Z) (list : list Row) :
  1 <= binSize -> maxPos <= Z.of_nat fuel ->
  Forall (fun r => 0 <= pos_of r) list ->
  exists res,
    serp_bin_trend fuel binSize maxPos list = Some res /\
    total res = length list /\
    (forall key, is_bin binSize maxPos key -> bins res !! key = Some (Num (count_in key list))) /\
    (forall key, ~ is_bin binSize maxPos key -> bins res !! key = None) /\
    (forall p, 1 <= p <= maxPos ->
       exists key, is_bin binSize maxPos key /\ fst key <= p <= snd key /\
                   forall key', is_bin binSize maxPos key' -> fst key' <= p <= snd key' ->
                                key' = key).
Proof.
  intros Hb Hfuel Hpos. unfold serp_bin_trend.
  destruct (init_bins_keys binSize maxPos fuel Hb Hfuel) as (bins0 & -> & H0).
  eexists. split; [reflexivity|]. cbn [bins total].
  pose proof (count_rows_spec binSize maxPos bins0 list Hb H0 Hpos) as Hcount.
  split_and!.
  - reflexivity.
  - intros key. apply Hcount.
  - intros key. apply Hcount.
  - intros p Hp. eexists. exact (bin_of_position binSize maxPos p Hb Hp).
Qed.

(** X23: with a bin size of zero or less and [maxPos] of at least 1, the first
    loop never ends: [start] never exceeds [maxPos], whatever the number of
    iterations allowed. *)
Theorem serp_bin_trend_diverges (fuel : nat) (binSize maxPos : Z) (list : list Row) :
  binSize <= 0 -> 1 <= maxPos ->
  serp_bin_trend fuel binSize maxPos list = None.
Proof.
  intros Hb Hm. unfold serp_bin_trend.
  assert (H : forall start bins0, start <= 1 -> init_bins fuel binSize maxPos start bins0 = None).
  { induction fuel as [|fuel' IH]; intros start bins0 Hs; cbn [init_bins];
      (destruct (Z.leb_spec start maxPos); [|lia]); [reflexivity|].
    apply IH. lia. }
  by rewrite H.
Qed.

(** ** Examples *)

Definition at_position (p : Z) : Row := {| position := Some p; pos := None; rank := None |}.

Definition ex_rows : list Row :=
  [at_position 1; at_position 5; at_position 6; at_position 12; at_position 40].

Lemma serp_bin_trend_example :
  exists res,
    serp_bin_trend 12 5 12 ex_rows = Some res /\
    total res = length ex_rows /\
    (forall key, is_bin 5 12 key -> bins res !! key = Some (Num (count_in key ex_rows))) /\
    (forall key, ~ is_bin 5 12 key -> bins res !! key = None) /\
    (forall p, 1 <= p <= 12 ->
       exists key, is_bin 5 12 key /\ fst key <= p <= snd key /\
                   forall key', is_bin 5 12 key' -> fst key' <= p <= snd key' -> key' = key).
Proof.
  apply (serp_bin_trend_histogram 12 5 12 ex_rows).
  - lia.
  - lia.
  - unfold ex_rows. repeat constructor; discriminate.
Defined.

(** The bins of the example, evaluated. *)
Example serp_bin_trend_run :
  (fun r => map_to_list (bins r)) <$> serp_bin_trend 12 5 12 ex_rows =
  Some (map_to_list (<[(1, 5) := Num 2]> (<[(6, 10) := Num 1]> (<[(11, 12) := Num 1]> ∅)))).
Proof. vm_compute. reflexivity. Qed.

Lemma serp_bin_trend_diverges_example : serp_bin_trend 1000 0 100 ex_rows = None.
Proof. apply (serp_bin_trend_diverges 1000 0 100 ex_rows); lia. Defined.

End SerpBins.

(* ===================================================================== *)
(** * Anchor profile (tool [babbar_anchor_profile_risk]) *)
(* ===================================================================== *)

Module AnchorRisk.

(** An anchor row of [/host/anchors]; link counts are integers. *)
Record Row := {
  text : option string;
  linkCount : option Z;
  percent : option Q
}.

Inductive Bucket := brand | money | generic | other.

#[local] Instance Bucket_eq_dec : EqDecision Bucket.
Proof. solve_decision. Defined.

Record Item := {
  i_text : string;
  i_linkCount : Z;
  i_percent : Q;
  i_bucket : Bucket
}.

Record Counters := {
  c_brand : Z;
  c_money : Z;
  c_generic : Z;
  c_other : Z;
  c_total : Z
}.

Record Report := {
  distribution : Counters;
  ratios : Q * Q * Q * Q;          (* brand, money, generic, other *)
  riskyAnchors : list Item
}.

Definition genericTerms : list string :=
  ["ici"; "cliquez"; "site"; "homepage"; "accueil"; "www"; "http"; "https"; "voir"; "lire";
   "page"; "article"].

(** [Number(a.linkCount || 0)] *)
Definition count_of (a : Row) : Z := Js.or_int (linkCount a) 0.

Definition totalLinkCount (rows : list Row) : Z :=
  fold_left (fun s a => (s + count_of a)%Z) rows 0%Z.

(** [Math.round(pct * 100) / 100] *)
Definition round2 (pct : Q) : Q := inject_Z (Qfloor (pct * 100 + (1 # 2))) / 100.

(** [counters[bucket] += count] *)
Definition add_to (c : Counters) (b : Bucket) (n : Z) : Counters :=
  match b with
  | brand => {| c_brand := c_brand c + n; c_money := c_money c; c_generic := c_generic c;
                c_other := c_other c; c_total := c_total c |}
  | money => {| c_brand := c_brand c; c_money := c_money c + n; c_generic := c_generic c;
                c_other := c_other c; c_total := c_total c |}
  | generic => {| c_brand := c_brand c; c_money := c_money c; c_generic := c_generic c + n;
                  c_other := c_other c; c_total := c_total c |}
  | other => {| c_brand := c_brand c; c_money := c_money c; c_generic := c_generic c;
                c_other := c_other c + n; c_total := c_total c |}
  end.

(** [counters.total ? counters[k] / counters.total : 0] *)
Definition ratio (total n : Z) : Q :=
  if (total =? 0)%Z then 0%Q else (inject_Z n / inject_Z total)%Q.

Definition is_risky (i : Item) : Prop :=
  i_bucket i <> brand /\ Qle_bool 5 (i_percent i) = true.

#[local] Instance is_risky_dec (i : Item) : Decision (is_risky i).
Proof. unfold is_risky. apply _. Defined.

Definition by_percent (a b : Item) : Q := (i_percent b - i_percent a)%Q.

Section WithStrings.

(** [String.prototype.toLowerCase], [String.prototype.trim] and
    [text.includes(term)]; nothing is assumed about them. *)
Variable toLowerCase : string -> string.
Variable trim : string -> string.
Variable includes : string -> string -> bool.

(** [String(a.text || "").toLowerCase().trim()] *)
Definition text_of (a : Row) : string := trim (toLowerCase (Js.or_str (text a) "")).

Definition bucket_of (brandTerms moneyTerms : list string) (text : string) : Bucket :=
  let isBrand := existsb (includes text) brandTerms in
  let isMoney := existsb (includes text) moneyTerms in
  let isGeneric := existsb (includes text) genericTerms in
  if isBrand then brand else if isMoney then money else if isGeneric then generic else other.

(** The body of the loop over the rows: the item pushed, if any. *)
Definition item_of (total : Z) (brandTerms moneyTerms : list string) (a : Row) : option Item :=
  let text := text_of a in
  let count := count_of a in
  if String.eqb text "" || (count =? 0)%Z then None
  else
    let pct :=
      if (total =? 0)%Z then Js.nullish (percent a) 0%Q
      else (inject_Z count / inject_Z total * 100)%Q in
    Some {| i_text := text; i_linkCount := count; i_percent := round2 pct;
            i_bucket := bucket_of brandTerms moneyTerms text |}.

Definition anchor_profile_risk (brandTermsArg moneyTermsArg : list string) (rows : list Row)
  : Report :=
  let brandTerms := map toLowerCase brandTermsArg in
  let moneyTerms := map toLowerCase moneyTermsArg in
  let total := totalLinkCount rows in
  let items := omap (item_of total brandTerms moneyTerms) rows in
  let counters :=
    fold_left (fun c i => add_to c (i_bucket i) (i_linkCount i)) items
      {| c_brand := 0; c_money := 0; c_generic := 0; c_other := 0; c_total := total |} in
  let risky := Js.sortQ by_percent (filter is_risky items) in
  {| distribution := counters;
     ratios := (ratio (c_total counters) (c_brand counters),
                ratio (c_total counters) (c_money counters),
                ratio (c_total counters) (c_generic counters),
                ratio (c_total counters) (c_other counters));
     riskyAnchors := Js.slice0 50 risky |}.

End WithStrings.

(** ** Facts *)

Definition sum_counts (rows : list Row) : Z :=
  fold_right (fun a s => (count_of a + s)%Z) 0%Z rows.

Definition sum_items (items : list Item) : Z :=
  fold_right (fun i s => (i_linkCount i + s)%Z) 0%Z items.

Lemma totalLinkCount_sum (rows : list Row) : totalLinkCount rows = sum_counts rows.
Proof.
  unfold totalLinkCount.
  assert (H : forall s, fold_left (fun s a => (s + count_of a)%Z) rows s = (s + sum_counts rows)%Z).
  { induction rows as [|a rows IH]; intros s; cbn [fold_left sum_counts fold_right]; [lia|].
    rewrite IH. fold (sum_counts rows). lia. }
  by rewrite H.
Qed.

Lemma counters_fold (items : list Item) (c : Counters) :
  let c' := fold_left (fun c i => add_to c (i_bucket i) (i_linkCount i)) items c in
  (c_brand c' + c_money c' + c_generic c' + c_other c' =
   c_brand c + c_money c + c_generic c + c_other c + sum_items items)%Z /\
  c_total c' = c_total c /\
  (Forall (fun i => 0 <= i_linkCount i)%Z items ->
   (c_brand c <= c_brand c' /\ c_money c <= c_money c' /\
    c_generic c <= c_generic c' /\ c_other c <= c_other c')%Z).
Proof.
  cbv zeta. revert c. induction items as [|i items IH]; intros c; cbn [fold_left sum_items fold_right].
  - split; [lia|]. split; [reflexivity|]. intros _. lia.
  - destruct (IH (add_to c (i_bucket i) (i_linkCount i))) as (Hsum & Htot & Hpos).
    fold (sum_items items).
    split_and!.
    + rewrite Hsum. destruct (i_bucket i); cbn; lia.
    + rewrite Htot. by destruct (i_bucket i).
    + intros Hall. apply Forall_cons in Hall as [Hi Hall]. specialize (Hpos Hall).
      destruct (i_bucket i); cbn in Hpos |- *; lia.
Qed.

Section Facts.
Variable toLowerCase : string -> string.
Variable trim : string -> string.
Variable includes : string -> string -> bool.

#[local] Abbreviation text_of := (text_of toLowerCase trim).
#[local] Abbreviation bucket_of := (bucket_of includes).
#[local] Abbreviation item_of := (item_of toLowerCase trim includes).
#[local] Abbreviation anchor_profile_risk := (anchor_profile_risk toLowerCase trim includes).

Lemma item_of_Some (total : Z) (bt mt : list string) (a : Row) (i : Item) :
  item_of total bt mt a = Some i ->
  i_text i = text_of a /\ i_text i <> "" /\ i_linkCount i = count_of a /\ count_of a <> 0%Z /\
  i_bucket i = bucket_of bt mt (text_of a) /\
  i_percent i = round2 (if (total =? 0)%Z then Js.nullish (percent a) 0%Q
                        else (inject_Z (count_of a) / inject_Z total * 100)%Q).
Proof.
  unfold AnchorRisk.item_of. cbv zeta.
  destruct (String.eqb_spec (text_of a) "") as [|Hne]; [discriminate|].
  destruct (Z.eqb_spec (count_of a) 0) as [|Hc]; [discriminate|]. cbn [orb].
  intros [= <-]. cbn. by split_and!.
Qed.

(** The items are the rows with a text and a link count, so their counts
    add up to the total minus the counts of the rows without text. *)
Lemma sum_items_rows (total : Z) (bt mt : list string) (rows : list Row) :
  sum_items (omap (item_of total bt mt) rows) =
  sum_counts (filter (fun a => text_of a <> "") rows).
Proof.
  induction rows as [|a rows IH]; [reflexivity|].
  cbn [omap list_omap]. rewrite filter_cons.
  destruct (item_of total bt mt a) as [i|] eqn:Ei.
  - apply item_of_Some in Ei as (Ht & Hne & Hc & _). rewrite Ht in Hne.
    destruct (decide (text_of a <> "")) as [_|]; [|contradiction].
    cbn [sum_items sum_counts fold_right]. fold (sum_items (omap (item_of total bt mt) rows)).
    fold (sum_counts (filter (fun a => text_of a <> "") rows)). rewrite IH, Hc. reflexivity.
  - fold (omap (item_of total bt mt) rows). rewrite IH.
    destruct (decide (text_of a <> "")) as [Hne|]; [|reflexivity].
    cbn [sum_counts fold_right]. fold (sum_counts (filter (fun a => text_of a <> "") rows)).
    unfold AnchorRisk.item_of in Ei. cbv zeta in Ei.
    destruct (String.eqb_spec (text_of a) "") as [|_]; [contradiction|].
    destruct (Z.eqb_spec (count_of a) 0) as [->|]; [lia | discriminate].
Qed.

Lemma sum_counts_filter_le (P : Row -> Prop) `{!forall a, Decision (P a)} (rows : list Row) :
  Forall (fun a => 0 <= count_of a)%Z rows ->
  (0 <= sum_counts (filter P rows) <= sum_counts rows)%Z.
Proof.
  induction 1 as [|a rows Ha _ IH]; [cbn; lia|].
  rewrite filter_cons. destruct (decide (P a)); cbn [sum_counts fold_right];
    fold (sum_counts rows); fold (sum_counts (filter P rows)); lia.
Qed.

(** X24: the four counters add up to the link counts of the rows that have a
    text: each such row is counted in exactly one bucket, brand before money
    before generic before other.  With non-negative link counts the counters
    are non-negative and add up to at most the total, with equality when
    every row has a text. *)
Theorem distribution_spec (brandTerms moneyTerms : list string) (rows : list Row) :
  Forall (fun a => 0 <= count_of a)%Z rows ->
  let c := distribution (anchor_profile_risk brandTerms moneyTerms rows) in
  c_total c = sum_counts rows /\
  (c_brand c + c_money c + c_generic c + c_other c =
   sum_counts (filter (fun a => text_of a <> "") rows))%Z /\
  (0 <= c_brand c /\ 0 <= c_money c /\ 0 <= c_generic c /\ 0 <= c_other c)%Z /\
  (c_brand c + c_money c + c_generic c + c_other c <= c_total c)%Z /\
  (Forall (fun a => text_of a <> "") rows ->
   (c_brand c + c_money c + c_generic c + c_other c = c_total c)%Z).
Proof.
  intros Hpos. cbv zeta. unfold AnchorRisk.anchor_profile_risk. cbn [distribution].
  set (total := totalLinkCount rows).
  set (items := omap _ rows).
  destruct (counters_fold items
              {| c_brand := 0; c_money := 0; c_generic := 0; c_other := 0; c_total := total |})
    as (Hsum & Htot & Hnn).
  cbv zeta in Hsum, Htot, Hnn. cbn [c_brand c_money c_generic c_other c_total] in Hsum, Htot, Hnn.
  assert (Hitems : Forall (fun i => 0 <= i_linkCount i)%Z items).
  { apply Forall_forall. intros i Hi. apply list_elem_of_omap in Hi as (a & Ha & Hi).
    apply item_of_Some in Hi as (_ & _ & -> & _). rewrite Forall_forall in Hpos. by apply Hpos. }
  specialize (Hnn Hitems).
  assert (Hs : sum_items items = sum_counts (filter (fun a => text_of a <> "") rows))
    by apply sum_items_rows.
  pose proof (sum_counts_filter_le (fun a => text_of a <> "") rows Hpos) as Hle.
  split_and!.
  - rewrite Htot. apply totalLinkCount_sum.
  - rewrite Hsum, Hs. lia.
  - lia.
  - lia.
  - lia.
  - lia.
  - rewrite Hsum, Hs, Htot. unfold total. rewrite totalLinkCount_sum. lia.
  - intros Hall. rewrite Hsum, Hs, Htot. unfold total. rewrite totalLinkCount_sum.
    assert (Hf : filter (fun a => text_of a <> "") rows = rows).
    { clear -Hall. induction Hall as [|a rows Ha _ IH]; [reflexivity|].
      rewrite filter_cons. destruct (decide _); [by rewrite IH | contradiction]. }
    rewrite Hf. lia.
Qed.

(** *** Risky anchors *)

Lemma round2_ge_5 (pct : Q) : Qle_bool 5 (round2 pct) = true -> (9990 # 20 <= pct * 100)%Q.
Proof.
  unfold round2. intros H. apply Qle_bool_iff in H.
  assert (H500 : (500 <= Qfloor (pct * 100 + (1 # 2)))%Z).
  { rewrite Zle_Qle.
    assert (E : (inject_Z (Qfloor (pct * 100 + (1 # 2))) ==
                 inject_Z (Qfloor (pct * 100 + (1 # 2))) / 100 * 100)%Q) by (field; discriminate).
    rewrite E. change (inject_Z 500) with (5 * 100)%Q.
    apply Qmult_le_compat_r; [exact H | discriminate]. }
  rewrite Zle_Qle in H500.
  pose proof (Qfloor_le (pct * 100 + (1 # 2))) as Hfl.
  change (inject_Z 500) with 500%Q in H500. lra.
Qed.

Lemma risky_share (total count : Z) :
  (0 < total)%Z ->
  Qle_bool 5 (round2 (inject_Z count / inject_Z total * 100)) = true ->
  (999 * total <= 20000 * count)%Z.
Proof.
  intros Ht H. apply round2_ge_5 in H.
  assert (Hqt : (0 < inject_Z total)%Q) by (change 0%Q with (inject_Z 0); by rewrite <- Zlt_Qlt).
  set (r := (inject_Z count / inject_Z total)%Q) in *.
  assert (Hr : (r * inject_Z total == inject_Z count)%Q).
  { unfold r. field. intros E. rewrite E in Hqt. by apply Qlt_irrefl in Hqt. }
  rewrite Zle_Qle, !inject_Z_mult, <- Hr.
  change (inject_Z 999) with 999%Q. change (inject_Z 20000) with 20000%Q.
  nra.
Qed.

Lemma share_count (total : Z) (items : list Item) :
  Forall (fun i => 999 * total <= 20000 * i_linkCount i)%Z items ->
  (999 * total * Z.of_nat (length items) <= 20000 * sum_items items)%Z.
Proof.
  induction 1 as [|i items Hi _ IH]; cbn [length sum_items fold_right]; [lia|].
  fold (sum_items items). lia.
Qed.

Lemma sum_items_filter_le (P : Item -> Prop) `{!forall i, Decision (P i)} (items : list Item) :
  Forall (fun i => 0 <= i_linkCount i)%Z items ->
  (sum_items (filter P items) <= sum_items items)%Z.
Proof.
  induction 1 as [|i items Hi _ IH]; [cbn; lia|].
  rewrite filter_cons. destruct (decide (P i)); cbn [sum_items fold_right];
    fold (sum_items items); fold (sum_items (filter P items)); lia.
Qed.


End Facts.

(** ** Example *)

(** [text.includes(term)] on strings. *)
Definition includes (text term : string) : bool :=
  match String.index 0 term text with
  | Some _ => true
  | None => false
  end.

(** The texts of the example carry no surrounding blank. *)
Definition no_trim (s : string) : string := s.

Definition anchor (t : string) (n : Z) : Row :=
  {| text := Some t; linkCount := Some n; percent := None |}.

Definition ex_rows : list Row :=
  [ anchor "Acme" 60; anchor "cheap widgets" 30; anchor "Cliquez ici" 7;
    anchor "a long tail anchor" 3;
    {| text := None; linkCount := Some 5%Z; percent := None |} ].

Lemma distribution_example :
  let c := distribution (anchor_profile_risk Keywords.lower no_trim includes
                           ["Acme"] ["widgets"] ex_rows) in
  c_total c = sum_counts ex_rows /\
  (c_brand c + c_money c + c_generic c + c_other c =
   sum_counts (filter (fun a => text_of Keywords.lower no_trim a <> "") ex_rows))%Z /\
  (0 <= c_brand c /\ 0 <= c_money c /\ 0 <= c_generic c /\ 0 <= c_other c)%Z /\
  (c_brand c + c_money c + c_generic c + c_other c <= c_total c)%Z /\
  (Forall (fun a => text_of Keywords.lower no_trim a <> "") ex_rows ->
   (c_brand c + c_money c + c_generic c + c_other c = c_total c)%Z).
Proof.
  apply (distribution_spec Keywords.lower no_trim includes ["Acme"] ["widgets"] ex_rows).
  unfold ex_rows. repeat constructor; discriminate.
Defined.

(** The counters of the example: 60 brand, 30 money, 7 generic, 3 other, out
    of 105 links. *)
Example distribution_run :
  distribution (anchor_profile_risk Keywords.lower no_trim includes ["Acme"] ["widgets"] ex_rows) =
  {| c_brand := 60; c_money := 30; c_generic := 7; c_other := 3; c_total := 105 |}.
Proof. vm_compute. reflexivity. Qed.


End AnchorRisk.

(* ===================================================================== *)
(** * Content gap (tool [babbar_content_gap]) *)
(* ===================================================================== *)

Module ContentGap.
Import JsNum.
Local Open Scope Q_scope.

(** A keyword row as [extractKw] returns it: the keyword is not empty, the
    rank is [Number(r.rank ?? r.position ?? r.pos ?? Infinity)]. *)
Record KwRow := {
  keyword : string;
  rank : num;
  url : option string
}.

(** An element of [competitorsAll], with the keyword rows its call returns
    when it is made ([None] when the call fails). *)
Record Competitor := {
  host : string;
  score : Q;
  answer : option (list KwRow)
}.

(** A row that passed the filter [Number.isFinite(r.rank) && r.rank <=
    positionThreshold]; its rank is a finite number. *)
Record Win := {
  w_keyword : string;
  w_rank : Q;
  w_url : option string
}.

Record Hit := {
  competitor : string;
  position : Q;
  hit_url : option string
}.

(** A value of [gapMap]. *)
Record Gap := {
  g_keyword : string;
  hits : list Hit;
  bestCompetitorPosition : Q;
  numCompetitorsWinning : nat
}.

(** An element of [contentGap] in the answer. *)
Record Entry := {
  e_keyword : string;
  e_bestCompetitorPosition : Q;
  e_numCompetitorsWinning : nat;
  e_competitors : list Hit
}.

(** [row.rank &&]: zero and [NaN] are falsy. *)
Definition truthy_rank (n : num) : bool :=
  match n with
  | NaN => false
  | Fin q => negb (Qeq_bool q 0)
  | _ => true
  end.

Definition winning (positionThreshold : Q) (rows : list KwRow) : list Win :=
  omap (fun r => match rank r with
                 | Fin q => if Qle_bool q positionThreshold
                            then Some {| w_keyword := keyword r; w_rank := q; w_url := url r |}
                            else None
                 | _ => None
                 end) rows.

(** The update of [gapMap] for a hit: a new key is appended, an existing
    entry is extended in place. *)
Fixpoint add_hit (kwNorm : string) (rowKeyword : string) (hit : Hit)
    (m : list (string * Gap)) : list (string * Gap) :=
  match m with
  | [] => [(kwNorm, {| g_keyword := rowKeyword; hits := [hit];
                       bestCompetitorPosition := position hit;
                       numCompetitorsWinning := 1 |})]
  | (k, prev) :: m' =>
      if String.eqb k kwNorm then
        (k, {| g_keyword := g_keyword prev;
               hits := hits prev ++ [hit];
               bestCompetitorPosition :=
                 if Qltb (position hit) (bestCompetitorPosition prev)
                 then position hit else bestCompetitorPosition prev;
               numCompetitorsWinning := length (hits prev ++ [hit]) |}) :: m'
      else (k, prev) :: add_hit kwNorm rowKeyword hit m'
  end.

Definition by_score (a b : Competitor) : Q := score b - score a.
Definition by_position (x y : Hit) : Q := position x - position y.

Definition entry_of (g : Gap) : Entry :=
  {| e_keyword := g_keyword g;
     e_bestCompetitorPosition := bestCompetitorPosition g;
     e_numCompetitorsWinning := numCompetitorsWinning g;
     e_competitors := Js.slice0 10 (Js.sortQ by_position (hits g)) |}.

Section WithStrings.

(** [normalize] (lower case, diacritics removed, blanks collapsed),
    [kwNorm.includes(t)], [t.length], [brandTokensFromHost] and
    [localeCompare]; nothing is assumed about them. *)
Variable normalize : string -> string.
Variable includes : string -> string -> bool.
Variable jsLength : string -> nat.
Variable brandTokensFromHost : string -> list string.
Variable localeCompare : string -> string -> Z.

(** The parameters of the tool. *)
Variable nCompetitors : Z.
Variable positionThreshold : Q.
Variable excludeCompetitorBrand : bool.
Variable seeds : list string.
Variable nResults : Z.

Definition isSeedMatched (kwNorm : string) : bool :=
  let seedMatchers := map normalize seeds in
  if (length seedMatchers =? 0)%nat then true
  else existsb (fun needle => includes kwNorm needle) seedMatchers.

Definition isBrandedFor (kwNorm : string) (brandTokens : list string) : bool :=
  if (length brandTokens =? 0)%nat then false
  else existsb (fun t => (3 <=? jsLength t)%nat && includes kwNorm t) brandTokens.

(** One iteration of the loop that fills [baseBestRank]. *)
Definition base_step (m : gmap string num) (row : KwRow) : gmap string num :=
  let k := normalize (keyword row) in
  let prev := Js.nullish (m !! k) PosInf in
  if truthy_rank (rank row) && ltb (rank row) prev then <[k := rank row]> m else m.

Definition baseBestRank (baseKwList : list KwRow) : gmap string num :=
  fold_left base_step baseKwList ∅.

(** [baseRank !== undefined && baseRank <= positionThreshold] *)
Definition base_wins (best : gmap string num) (kwNorm : string) : bool :=
  match best !! kwNorm with
  | Some baseRank => leb baseRank (Fin positionThreshold)
  | None => false
  end.

(** The body of the loop over the winning rows of a competitor. *)
Definition row_step (best : gmap string num) (comp : Competitor)
    (m : list (string * Gap)) (row : Win) : list (string * Gap) :=
  let kwNorm := normalize (w_keyword row) in
  if String.eqb kwNorm "" || negb (isSeedMatched kwNorm) then m
  else if base_wins best kwNorm then m
  else if excludeCompetitorBrand && isBrandedFor kwNorm (brandTokensFromHost (host comp)) then m
  else add_hit kwNorm (w_keyword row)
         {| competitor := host comp; position := w_rank row; hit_url := w_url row |} m.

(** The body of the loop over [compResults]. *)
Definition comp_step (best : gmap string num) (m : list (string * Gap)) (comp : Competitor)
  : list (string * Gap) :=
  match answer comp with
  | Some rows => fold_left (row_step best comp) (winning positionThreshold rows) m
  | None => m
  end.

Definition competitors (competitorsAll : list Competitor) : list Competitor :=
  Js.slice0 nCompetitors (Js.sortQ by_score competitorsAll).

Definition gapMap (baseKwList : list KwRow) (competitorsAll : list Competitor)
  : list (string * Gap) :=
  fold_left (comp_step (baseBestRank baseKwList)) (competitors competitorsAll) [].

Definition gap_cmp (a b : Gap) : Q :=
  Js.or_cmpQ
    (Js.or_cmpQ (bestCompetitorPosition a - bestCompetitorPosition b)
       (inject_Z (Z.of_nat (numCompetitorsWinning b) - Z.of_nat (numCompetitorsWinning a))))
    (inject_Z (localeCompare (g_keyword a) (g_keyword b))).

Definition gapList (baseKwList : list KwRow) (competitorsAll : list Competitor) : list Gap :=
  Js.sortQ gap_cmp (map snd (gapMap baseKwList competitorsAll)).

(** [contentGap] in the answer of the tool. *)
Definition content_gap (baseKwList : list KwRow) (competitorsAll : list Competitor)
  : list Entry :=
  if (length (competitors competitorsAll) =? 0)%nat then []
  else map entry_of (Js.slice0 nResults (gapList baseKwList competitorsAll)).

(** ** Facts *)

(** The row of competitor [comp] behind the hit [h] on [kwNorm]. *)
Definition hit_from (comps : list Competitor) (kwNorm : string) (h : Hit) : Prop :=
  exists comp rows r,
    comp ∈ comps /\ answer comp = Some rows /\ r ∈ rows /\
    rank r = Fin (position h) /\ position h <= positionThreshold /\
    normalize (keyword r) = kwNorm /\
    competitor h = host comp /\ hit_url h = url r /\
    (excludeCompetitorBrand = true ->
     isBrandedFor kwNorm (brandTokensFromHost (host comp)) = false).

Definition gap_ok (best : gmap string num) (comps : list Competitor) (k : string) (g : Gap)
  : Prop :=
  normalize (g_keyword g) = k /\ k <> "" /\ isSeedMatched k = true /\ base_wins best k = false /\
  numCompetitorsWinning g = length (hits g) /\ (1 <= length (hits g))%nat /\
  Forall (fun h => bestCompetitorPosition g <= position h) (hits g) /\
  Exists (fun h => position h = bestCompetitorPosition g) (hits g) /\
  Forall (hit_from comps k) (hits g).

Definition map_ok (best : gmap string num) (comps : list Competitor) (m : list (string * Gap))
  : Prop :=
  NoDup (map fst m) /\ Forall (fun kg => gap_ok best comps (fst kg) (snd kg)) m.

Lemma add_hit_keys (k kw : string) (h : Hit) (m : list (string * Gap)) (k' : string) :
  k' ∈ map fst (add_hit k kw h m) <-> k' = k \/ k' ∈ map fst m.
Proof.
  induction m as [|[k0 g0] m IH]; cbn [add_hit map fst].
  - rewrite list_elem_of_singleton, elem_of_nil. tauto.
  - destruct (String.eqb_spec k0 k) as [->|Hne]; cbn [map fst].
    + rewrite !elem_of_cons. tauto.
    + rewrite !elem_of_cons, IH. tauto.
Qed.

Lemma add_hit_ok (best : gmap string num) (comps : list Competitor)
    (k kw : string) (h : Hit) (m : list (string * Gap)) :
  map_ok best comps m ->
  normalize kw = k -> k <> "" -> isSeedMatched k = true -> base_wins best k = false ->
  hit_from comps k h ->
  map_ok best comps (add_hit k kw h m).
Proof.
  intros [Hnd Hall] Hkw Hk Hseed Hbase Hhit.
  induction m as [|[k0 g0] m IH]; cbn [add_hit].
  - split; [cbn; apply NoDup_singleton|].
    constructor; [|constructor]. cbn [fst snd]. unfold gap_ok. cbn.
    split_and!; try done.
    + constructor; [apply Qle_refl | constructor].
    + by constructor.
    + by constructor.
  - cbn [map fst] in Hnd. apply NoDup_cons in Hnd as [Hk0 Hnd].
    apply Forall_cons in Hall as [Hg0 Hall]. cbn [fst snd] in Hg0.
    destruct (String.eqb_spec k0 k) as [->|Hne].
    + split; [cbn [map fst]; by apply NoDup_cons|].
      constructor; [|exact Hall]. cbn [fst snd].
      destruct Hg0 as (Hn & _ & _ & _ & Hnum & Hlen & Hmin & Hex & Hfrom).
      unfold gap_ok. cbn [g_keyword hits bestCompetitorPosition numCompetitorsWinning].
      split_and!; try done.
      * rewrite length_app. cbn. lia.
      * destruct (Qltb (position h) (bestCompetitorPosition g0)) eqn:E.
        -- apply Qltb_lt in E. apply Forall_app. split.
           ++ eapply Forall_impl; [exact Hmin|]. intros x Hx. cbn in Hx. lra.
           ++ constructor; [apply Qle_refl | constructor].
        -- apply Qltb_ge in E. apply Forall_app. split; [exact Hmin|].
           constructor; [exact E | constructor].
      * apply Exists_app. destruct (Qltb (position h) (bestCompetitorPosition g0)).
        -- right. by constructor.
        -- by left.
      * apply Forall_app. split; [exact Hfrom|]. by constructor.
    + destruct (IH Hnd Hall) as [Hnd' Hall'].
      split.
      * cbn [map fst]. apply NoDup_cons. split; [|exact Hnd'].
        rewrite add_hit_keys. intros [->|H]; [congruence | contradiction].
      * by constructor.
Qed.

Lemma row_step_ok (best : gmap string num) (comps : list Competitor) (comp : Competitor)
    (rows : list KwRow) (m : list (string * Gap)) (w : Win) :
  comp ∈ comps -> answer comp = Some rows -> w ∈ winning positionThreshold rows ->
  map_ok best comps m -> map_ok best comps (row_step best comp m w).
Proof.
  intros Hcomp Hans Hw Hm. unfold row_step. cbv zeta.
  destruct (String.eqb_spec (normalize (w_keyword w)) "") as [|Hne]; [exact Hm|].
  destruct (isSeedMatched (normalize (w_keyword w))) eqn:Hseed; [|exact Hm]. cbn [negb orb].
  destruct (base_wins best (normalize (w_keyword w))) eqn:Hbase; [exact Hm|].
  destruct (excludeCompetitorBrand && isBrandedFor _ _) eqn:Hbrand; [exact Hm|].
  apply add_hit_ok; try done.
  unfold winning in Hw. apply list_elem_of_omap in Hw as (r & Hr & Hw).
  destruct (rank r) as [| |q|] eqn:Hq; try discriminate.
  destruct (Qle_bool q positionThreshold) eqn:Hle; [|discriminate].
  injection Hw as <-. cbn [w_keyword w_rank w_url] in *.
  exists comp, rows, r. cbn [position competitor hit_url].
  apply Qle_bool_iff in Hle. split_and!; try done.
  intros ->. cbn in Hbrand. exact Hbrand.
Qed.

Lemma comp_step_ok (best : gmap string num) (comps : list Competitor) (comp : Competitor)
    (m : list (string * Gap)) :
  comp ∈ comps -> map_ok best comps m -> map_ok best comps (comp_step best m comp).
Proof.
  intros Hcomp Hm. unfold comp_step. destruct (answer comp) as [rows|] eqn:Hans; [|exact Hm].
  assert (H : forall ws, (forall w, w ∈ ws -> w ∈ winning positionThreshold rows) ->
                forall m, map_ok best comps m ->
                          map_ok best comps (fold_left (row_step best comp) ws m)).
  { induction ws as [|w ws IH]; intros Hsub m0 Hm0; [exact Hm0|].
    cbn [fold_left]. apply IH; [intros w' Hw'; apply Hsub; by right|].
    eapply row_step_ok; try done. apply Hsub. left. }
  by apply H.
Qed.

Lemma gapMap_ok (baseKwList : list KwRow) (competitorsAll : list Competitor) :
  map_ok (baseBestRank baseKwList) (competitors competitorsAll)
    (gapMap baseKwList competitorsAll).
Proof.
  unfold gapMap.
  assert (H : forall cs, (forall c, c ∈ cs -> c ∈ competitors competitorsAll) ->
                forall m, map_ok (baseBestRank baseKwList) (competitors competitorsAll) m ->
                          map_ok (baseBestRank baseKwList) (competitors competitorsAll)
                            (fold_left (comp_step (baseBestRank baseKwList)) cs m)).
  { induction cs as [|c cs IH]; intros Hsub m Hm; [exact Hm|].
    cbn [fold_left]. apply IH; [intros c' Hc'; apply Hsub; by right|].
    apply comp_step_ok; [apply Hsub; left | exact Hm]. }
  apply H; [done|]. split; [constructor | constructor].
Qed.

(** The order of the gap list on its first two keys. *)
Definition gap_before (a b : Gap) : Prop :=
  bestCompetitorPosition a < bestCompetitorPosition b \/
  (bestCompetitorPosition a == bestCompetitorPosition b /\
   (numCompetitorsWinning b <= numCompetitorsWinning a)%nat).

Lemma gapList_sorted (baseKwList : list KwRow) (competitorsAll : list Competitor) :
  StronglySorted gap_before (gapList baseKwList competitorsAll).
Proof.
  unfold gapList, Js.sortQ. apply Js.sort_sorted_weak.
  - intros a b H. apply Qle_bool_iff, or_cmpQ3_le in H. unfold gap_before.
    destruct H as [H|[H1 H2]]; [left; lra|].
    right. split; [lra|]. rewrite inject_Z_sub_nonpos in H2. lia.
  - intros a b H. apply Qle_bool_gt, or_cmpQ3_gt in H. unfold gap_before.
    destruct H as [H|[H1 H2]]; [left; lra|].
    right. split; [lra|].
    change 0 with (inject_Z 0) in H2. rewrite <- Zle_Qle in H2. lia.
  - intros a b c. unfold gap_before. intros [H1|[H1 H1']] [H2|[H2 H2']]; try (left; lra).
    right. split; [lra | lia].
Qed.

Lemma elem_of_gapList (baseKwList : list KwRow) (competitorsAll : list Competitor) (g : Gap) :
  g ∈ gapList baseKwList competitorsAll <->
  exists k, (k, g) ∈ gapMap baseKwList competitorsAll.
Proof.
  unfold gapList. rewrite Js.elem_of_sortQ, list_elem_of_fmap. split.
  - intros ([k g'] & -> & H). by exists k.
  - intros (k & H). by exists (k, g).
Qed.

Lemma gapList_ok (baseKwList : list KwRow) (competitorsAll : list Competitor) (g : Gap) :
  g ∈ gapList baseKwList competitorsAll ->
  gap_ok (baseBestRank baseKwList) (competitors competitorsAll) (normalize (g_keyword g)) g.
Proof.
  intros Hg. apply elem_of_gapList in Hg as (k & Hg).
  destruct (gapMap_ok baseKwList competitorsAll) as [_ Hall].
  rewrite Forall_forall in Hall. specialize (Hall _ Hg). cbn [fst snd] in Hall.
  pose proof Hall as (Hk & _). by rewrite Hk.
Qed.

Lemma gapList_keys (baseKwList : list KwRow) (competitorsAll : list Competitor) :
  NoDup (map (fun g => normalize (g_keyword g)) (gapList baseKwList competitorsAll)).
Proof.
  destruct (gapMap_ok baseKwList competitorsAll) as [Hnd Hall].
  assert (Hperm : gapList baseKwList competitorsAll ≡ₚ map snd (gapMap baseKwList competitorsAll))
    by apply Js.sort_perm.
  rewrite Hperm, map_map.
  assert (Heq : map (fun kg => normalize (g_keyword (snd kg))) (gapMap baseKwList competitorsAll) =
                map fst (gapMap baseKwList competitorsAll)).
  { apply map_ext_in. intros [k g] Hin. cbn [fst snd].
    rewrite Forall_forall in Hall. apply list_elem_of_In in Hin.
    by destruct (Hall _ Hin) as (Hk & _). }
  by rewrite Heq.
Qed.

Lemma content_gap_eq (baseKwList : list KwRow) (competitorsAll : list Competitor) :
  content_gap baseKwList competitorsAll =
  map entry_of (Js.slice0 nResults (gapList baseKwList competitorsAll)).
Proof.
  unfold content_gap. destruct (competitors competitorsAll) as [|c cs] eqn:E; [|reflexivity].
  cbn [length Nat.eqb]. unfold gapList, gapMap. rewrite E. cbn [fold_left map].
  change (Js.sortQ gap_cmp []) with (@nil Gap).
  unfold Js.slice0. destruct (0 <=? nResults)%Z; by rewrite take_nil.
Qed.

(** The order of the answer on its first two keys. *)
Definition entry_before (a b : Entry) : Prop :=
  e_bestCompetitorPosition a < e_bestCompetitorPosition b \/
  (e_bestCompetitorPosition a == e_bestCompetitorPosition b /\
   (e_numCompetitorsWinning b <= e_numCompetitorsWinning a)%nat).

(** What holds of an element of the answer. *)
Definition entry_ok (best : gmap string num) (comps : list Competitor) (e : Entry) : Prop :=
  let k := normalize (e_keyword e) in
  k <> "" /\ isSeedMatched k = true /\ base_wins best k = false /\
  (1 <= e_numCompetitorsWinning e)%nat /\
  length (e_competitors e) = (10 `min` e_numCompetitorsWinning e)%nat /\
  StronglySorted (fun x y => position x <= position y) (e_competitors e) /\
  Forall (hit_from comps k) (e_competitors e) /\
  Forall (fun h => e_bestCompetitorPosition e <= position h) (e_competitors e) /\
  Exists (fun h => position h == e_bestCompetitorPosition e) (e_competitors e).

Lemma entry_of_ok (best : gmap string num) (comps : list Competitor) (g : Gap) :
  gap_ok best comps (normalize (g_keyword g)) g -> entry_ok best comps (entry_of g).
Proof.
  intros (_ & Hk & Hseed & Hbase & Hnum & Hlen & Hmin & Hex & Hfrom).
  unfold entry_ok, entry_of. cbv zeta.
  cbn [e_keyword e_bestCompetitorPosition e_numCompetitorsWinning e_competitors].
  set (sorted := Js.sortQ by_position (hits g)).
  assert (Hperm : sorted ≡ₚ hits g) by apply Js.sort_perm.
  assert (Hsorted : StronglySorted (fun x y => position x <= position y) sorted).
  { apply Js.sortQ_sorted.
    - intros x y. unfold by_position. rewrite Qle_bool_iff. split; intros H; lra.
    - intros x y. destruct (Qlt_le_dec (position y) (position x)); [right | left]; lra.
    - intros x y z H1 H2. lra. }
  assert (Hsub : forall h, h ∈ Js.slice0 10 sorted -> h ∈ hits g).
  { intros h Hh. apply Js.elem_of_slice0 in Hh. by rewrite Hperm in Hh. }
  split_and!; try done.
  - lia.
  - unfold Js.slice0. change (0 <=? 10)%Z with true. cbv iota.
    rewrite length_take, Hperm, Hnum. change (Z.to_nat 10) with 10%nat. lia.
  - by apply Js.StronglySorted_slice0.
  - apply Forall_forall. intros h Hh. rewrite Forall_forall in Hfrom. by apply Hfrom, Hsub.
  - apply Forall_forall. intros h Hh. rewrite Forall_forall in Hmin. by apply Hmin, Hsub.
  - destruct sorted as [|h1 rest] eqn:Es.
    { apply Permutation_length in Hperm. cbn in Hperm. lia. }
    unfold Js.slice0. cbn. apply Exists_cons_hd.
    apply Exists_exists in Hex as (h0 & Hh0 & Hpos0).
    assert (Hh1 : h1 ∈ hits g) by (rewrite <- Hperm; left).
    rewrite Forall_forall in Hmin. pose proof (Hmin _ Hh1) as Hlow.
    assert (Hh0' : h0 ∈ h1 :: rest) by (by rewrite Hperm).
    apply StronglySorted_inv in Hsorted as [_ Hhead]. rewrite Forall_forall in Hhead.
    apply elem_of_cons in Hh0' as [->|Hin]; [by rewrite Hpos0|].
    specialize (Hhead _ Hin). rewrite Hpos0 in Hhead. lra.
Qed.

(** X26: every element of the answer is a keyword on which the analysed host does
    not rank within the threshold while a selected competitor does: its
    normalised keyword is not empty, matches a seed when seeds are given,
    and the base host has no rank within the threshold for it;
    [numCompetitorsWinning] is the number of its hits, at least 1; the hits
    listed are the 10 best placed, in ascending position, each the row of a
    selected competitor ranked within the threshold (and, when brand terms
    are excluded, not branded for that competitor);
    [bestCompetitorPosition] is the smallest position among the hits.  The
    answer is sorted by best position, then by descending number of hits;
    no two elements share a normalised keyword; and at most [nResults]
    elements are returned. *)
Theorem content_gap_spec (baseKwList : list KwRow) (competitorsAll : list Competitor) :
  (0 <= nResults)%Z ->
  let res := content_gap baseKwList competitorsAll in
  Forall (entry_ok (baseBestRank baseKwList) (competitors competitorsAll)) res /\
  StronglySorted entry_before res /\
  NoDup (map (fun e => normalize (e_keyword e)) res) /\
  (Z.of_nat (length res) <= nResults)%Z.
Proof.
  intros Hn. cbv zeta. rewrite content_gap_eq. split_and!.
  - apply Forall_forall. intros e He. apply list_elem_of_fmap in He as (g & -> & Hg).
    apply Js.elem_of_slice0 in Hg. by apply entry_of_ok, gapList_ok.
  - apply (StronglySorted_fmap entry_of gap_before entry_before); [by intros x y|].
    apply Js.StronglySorted_slice0, gapList_sorted.
  - rewrite map_map. cbn [entry_of e_keyword].
    destruct (Js.slice0_take nResults (gapList baseKwList competitorsAll)) as [n ->].
    rewrite <- firstn_map. apply Js.NoDup_take, gapList_keys.
  - rewrite length_map. by apply Js.length_slice0.
Qed.

(** *** Nothing is missed *)

(** The map has the hit [h] under the key [k]. *)
Definition has_hit (m : list (string * Gap)) (k : string) (h : Hit) : Prop :=
  exists g, (k, g) ∈ m /\ h ∈ hits g.

Lemma add_hit_new (k kw : string) (h : Hit) (m : list (string * Gap)) :
  has_hit (add_hit k kw h m) k h.
Proof.
  induction m as [|[k0 g0] m IH]; cbn [add_hit].
  - eexists. split; [left|]. cbn. left.
  - destruct (String.eqb_spec k0 k) as [->|Hne].
    + eexists. split; [left|]. cbn. apply elem_of_app. right. left.
    + destruct IH as (g & Hg & Hh). exists g. split; [by right | exact Hh].
Qed.

Lemma add_hit_keeps (k kw : string) (h : Hit) (m : list (string * Gap)) (k' : string) (h' : Hit) :
  has_hit m k' h' -> has_hit (add_hit k kw h m) k' h'.
Proof.
  intros (g & Hg & Hh). induction m as [|[k0 g0] m IH]; [by apply elem_of_nil in Hg|].
  cbn [add_hit]. apply elem_of_cons in Hg as [[= <- <-]|Hg].
  - destruct (String.eqb_spec k' k) as [->|Hne].
    + eexists. split; [left|]. cbn. apply elem_of_app. by left.
    + exists g. split; [left | exact Hh].
  - destruct (IH Hg) as (g' & Hg' & Hh').
    destruct (String.eqb_spec k0 k) as [->|Hne].
    + exists g. split; [by right | exact Hh].
    + exists g'. split; [by right | exact Hh'].
Qed.

(** The row passes the filters of the loop. *)
Definition accepted (best : gmap string num) (comp : Competitor) (w : Win) : Prop :=
  let kwNorm := normalize (w_keyword w) in
  kwNorm <> "" /\ isSeedMatched kwNorm = true /\ base_wins best kwNorm = false /\
  excludeCompetitorBrand && isBrandedFor kwNorm (brandTokensFromHost (host comp)) = false.

Definition hit_of (comp : Competitor) (w : Win) : Hit :=
  {| competitor := host comp; position := w_rank w; hit_url := w_url w |}.

Lemma row_step_keeps (best : gmap string num) (comp : Competitor) (m : list (string * Gap))
    (w : Win) (k : string) (h : Hit) :
  has_hit m k h -> has_hit (row_step best comp m w) k h.
Proof.
  intros H. unfold row_step. cbv zeta.
  destruct (_ || _); [exact H|]. destruct (base_wins _ _); [exact H|].
  destruct (_ && _); [exact H|]. by apply add_hit_keeps.
Qed.

Lemma row_step_new (best : gmap string num) (comp : Competitor) (m : list (string * Gap))
    (w : Win) :
  accepted best comp w ->
  has_hit (row_step best comp m w) (normalize (w_keyword w)) (hit_of comp w).
Proof.
  intros (Hk & Hseed & Hbase & Hbrand). unfold row_step. cbv zeta.
  destruct (String.eqb_spec (normalize (w_keyword w)) "") as [|_]; [contradiction|].
  rewrite Hseed, Hbase, Hbrand. cbn [negb orb]. apply add_hit_new.
Qed.

Lemma rows_fold_keeps (best : gmap string num) (comp : Competitor) (ws : list Win)
    (m : list (string * Gap)) (k : string) (h : Hit) :
  has_hit m k h -> has_hit (fold_left (row_step best comp) ws m) k h.
Proof.
  revert m. induction ws as [|w ws IH]; intros m H; [exact H|].
  cbn [fold_left]. by apply IH, row_step_keeps.
Qed.

Lemma rows_fold_new (best : gmap string num) (comp : Competitor) (ws : list Win)
    (m : list (string * Gap)) (w : Win) :
  w ∈ ws -> accepted best comp w ->
  has_hit (fold_left (row_step best comp) ws m) (normalize (w_keyword w)) (hit_of comp w).
Proof.
  revert m. induction ws as [|w0 ws IH]; intros m Hw Hacc; [by apply elem_of_nil in Hw|].
  cbn [fold_left]. apply elem_of_cons in Hw as [->|Hw].
  - by apply rows_fold_keeps, row_step_new.
  - by apply IH.
Qed.

Lemma comp_step_keeps (best : gmap string num) (m : list (string * Gap)) (comp : Competitor)
    (k : string) (h : Hit) :
  has_hit m k h -> has_hit (comp_step best m comp) k h.
Proof.
  intros H. unfold comp_step. destruct (answer comp); [|exact H]. by apply rows_fold_keeps.
Qed.

Lemma comps_fold_keeps (best : gmap string num) (cs : list Competitor)
    (m : list (string * Gap)) (k : string) (h : Hit) :
  has_hit m k h -> has_hit (fold_left (comp_step best) cs m) k h.
Proof.
  revert m. induction cs as [|c cs IH]; intros m H; [exact H|].
  cbn [fold_left]. by apply IH, comp_step_keeps.
Qed.

Lemma comps_fold_new (best : gmap string num) (cs : list Competitor)
    (m : list (string * Gap)) (comp : Competitor) (rows : list KwRow) (w : Win) :
  comp ∈ cs -> answer comp = Some rows -> w ∈ winning positionThreshold rows ->
  accepted best comp w ->
  has_hit (fold_left (comp_step best) cs m) (normalize (w_keyword w)) (hit_of comp w).
Proof.
  revert m. induction cs as [|c cs IH]; intros m Hc Hans Hw Hacc; [by apply elem_of_nil in Hc|].
  cbn [fold_left]. apply elem_of_cons in Hc as [<-|Hc].
  - apply comps_fold_keeps. unfold comp_step. rewrite Hans. by apply rows_fold_new.
  - by eapply IH.
Qed.

(** X27: conversely, every row of a selected competitor that ranks within the
    threshold and passes the filters (keyword not empty once normalised,
    seed matched, not won by the base host, not branded when brand terms are
    excluded) is a hit of the element of the gap list for its normalised
    keyword. *)
Theorem content_gap_complete (baseKwList : list KwRow) (competitorsAll : list Competitor)
    (comp : Competitor) (rows : list KwRow) (r : KwRow) (q : Q) :
  comp ∈ competitors competitorsAll -> answer comp = Some rows -> r ∈ rows ->
  rank r = Fin q -> q <= positionThreshold ->
  let k := normalize (keyword r) in
  k <> "" -> isSeedMatched k = true -> base_wins (baseBestRank baseKwList) k = false ->
  excludeCompetitorBrand && isBrandedFor k (brandTokensFromHost (host comp)) = false ->
  exists g, g ∈ gapList baseKwList competitorsAll /\
            normalize (g_keyword g) = k /\
            {| competitor := host comp; position := q; hit_url := url r |} ∈ hits g /\
            numCompetitorsWinning g = length (hits g) /\
            bestCompetitorPosition g <= q.
Proof.
  intros Hcomp Hans Hr Hrank Hq k Hk Hseed Hbase Hbrand.
  set (w := {| w_keyword := keyword r; w_rank := q; w_url := url r |}).
  assert (Hw : w ∈ winning positionThreshold rows).
  { unfold winning. apply list_elem_of_omap. exists r. split; [exact Hr|].
    rewrite Hrank. apply Qle_bool_iff in Hq. by rewrite Hq. }
  assert (Hacc : accepted (baseBestRank baseKwList) comp w) by (by split_and!).
  destruct (comps_fold_new (baseBestRank baseKwList) (competitors competitorsAll) []
              comp rows w Hcomp Hans Hw Hacc) as (g & Hg & Hh).
  fold (gapMap baseKwList competitorsAll) in Hg. cbn [w_keyword w] in Hg.
  assert (Hin : g ∈ gapList baseKwList competitorsAll) by (apply elem_of_gapList; eauto).
  destruct (gapMap_ok baseKwList competitorsAll) as [_ Hall].
  rewrite Forall_forall in Hall. specialize (Hall _ Hg). cbn [fst snd] in Hall.
  destruct Hall as (Hkey & _ & _ & _ & Hnum & _ & Hmin & _).
  exists g. split_and!; try done.
  rewrite Forall_forall in Hmin. by apply (Hmin _ Hh).
Qed.

End WithStrings.

(** ** Example *)

Definition ex_localeCompare (a b : string) : Z :=
  match String.compare a b with
  | Lt => -1
  | Eq => 0
  | Gt => 1
  end%Z.

(** In the example every competitor has the one brand token [rival]. *)
Definition ex_brandTokens (h : string) : list string := ["rival"].

Definition kw (k : string) (r : Z) : KwRow :=
  {| keyword := k; rank := of_Z r; url := None |}.

Definition ex_base : list KwRow := [kw "widgets" 3; kw "gadgets" 40].

Definition ex_rival : Competitor :=
  {| host := "rival.example"; score := 9 # 10;
     answer := Some [kw "gadgets" 2; kw "widgets" 1; kw "rival shop" 1; kw "gizmos" 50] |}.

Definition ex_competitors : list Competitor :=
  [ {| host := "down.example"; score := 4 # 10; answer := None |};
    ex_rival;
    {| host := "other.example"; score := 5 # 10; answer := Some [kw "Gadgets" 5] |} ].

#[local] Abbreviation ex_content_gap :=
  (content_gap Keywords.lower AnchorRisk.includes String.length ex_brandTokens ex_localeCompare
     10 10 true [] 300).

(** The base host ranks 3rd on "widgets" and 40th on "gadgets": the one gap
    is "gadgets", won by two competitors. *)
Example content_gap_run :
  ex_content_gap ex_base ex_competitors =
  [ {| e_keyword := "gadgets"; e_bestCompetitorPosition := 2; e_numCompetitorsWinning := 2;
       e_competitors := [ {| competitor := "rival.example"; position := 2; hit_url := None |};
                          {| competitor := "other.example"; position := 5; hit_url := None |} ] |} ].
Proof. vm_compute. reflexivity. Qed.

Lemma content_gap_example :
  let res := ex_content_gap ex_base ex_competitors in
  Forall (entry_ok Keywords.lower AnchorRisk.includes String.length ex_brandTokens 10 true []
            (baseBestRank Keywords.lower ex_base) (competitors 10 ex_competitors)) res /\
  StronglySorted entry_before res /\
  NoDup (map (fun e => Keywords.lower (e_keyword e)) res) /\
  (Z.of_nat (length res) <= 300)%Z.
Proof.
  apply (content_gap_spec Keywords.lower AnchorRisk.includes String.length ex_brandTokens
           ex_localeCompare 10 10 true [] 300 ex_base ex_competitors).
  lia.
Defined.

Lemma content_gap_complete_example :
  exists g,
    g ∈ gapList Keywords.lower AnchorRisk.includes String.length ex_brandTokens ex_localeCompare
          10 10 true [] ex_base ex_competitors /\
    Keywords.lower (g_keyword g) = Keywords.lower (keyword (kw "gadgets" 2)) /\
    {| competitor := host ex_rival; position := 2; hit_url := url (kw "gadgets" 2) |} ∈ hits g /\
    numCompetitorsWinning g = length (hits g) /\
    bestCompetitorPosition g <= 2.
Proof.
  apply (content_gap_complete Keywords.lower AnchorRisk.includes String.length ex_brandTokens
           ex_localeCompare 10 10 true [] ex_base ex_competitors ex_rival
           [kw "gadgets" 2; kw "widgets" 1; kw "rival shop" 1; kw "gizmos" 50]
           (kw "gadgets" 2) 2).
  - apply list_elem_of_In. vm_compute. left. reflexivity.
  - reflexivity.
  - left.
  - reflexivity.
  - discriminate.
  - vm_compute. discriminate.
  - reflexivity.
  - reflexivity.
  - reflexivity.
Defined.

End ContentGap.

(* ===================================================================== *)
(** * Fetch status audit (tool [babbar_fetch_status_audit]) *)
(* ===================================================================== *)

Module FetchStatus.

(** A row of [/host/fetches/list]; the status and the code are numbers when
    present. *)
Record Row := {
  status : option Z;
  code : option Z
}.

(** [String(r.status || r.code || "unknown")]: the decimal writing of the
    first of the two numbers that is present and not zero. *)
Definition code_of (r : Row) : string :=
  match status r with
  | Some n => if (n =? 0)%Z
              then match code r with
                   | Some c => if (c =? 0)%Z then "unknown" else pretty c
                   | None => "unknown"
                   end
              else pretty n
  | None => match code r with
            | Some c => if (c =? 0)%Z then "unknown" else pretty c
            | None => "unknown"
            end
  end.

(** [counts[code] = (counts[code] || 0) + 1] *)
Definition count_step (counts : gmap string nat) (r : Row) : gmap string nat :=
  let code := code_of r in
  <[code := (match counts !! code with
             | Some n => if (n =? 0)%nat then 0 else n
             | None => 0
             end + 1)%nat]> counts.

Record Report := {
  counts : gmap string nat;
  total : nat;
  sample : list Row
}.

Definition fetch_status_audit (rows : list Row) : Report :=
  {| counts := fold_left count_step rows ∅;
     total := length rows;
     sample := Js.slice0 50 rows |}.

(** ** Facts *)

(** The rows with a given code. *)
Definition occurrences (key : string) (rows : list Row) : nat :=
  length (filter (fun r => code_of r = key) rows).

(** The sum of the values of [counts]. *)
Definition sum_counts (m : gmap string nat) : nat :=
  map_fold (fun _ n acc => n + acc) 0 m.

Lemma sum_counts_insert (m : gmap string nat) (k : string) (v : nat) :
  m !! k = None -> sum_counts (<[k := v]> m) = v + sum_counts m.
Proof.
  intros H. unfold sum_counts. apply (map_fold_insert_L (fun _ n acc => n + acc)); [|exact H].
  intros. lia.
Qed.

Lemma sum_counts_step (m : gmap string nat) (r : Row) :
  sum_counts (count_step m r) = S (sum_counts m).
Proof.
  unfold count_step. cbv zeta. destruct (m !! code_of r) as [n|] eqn:E.
  - rewrite <- (insert_delete_eq m).
    rewrite sum_counts_insert by apply lookup_delete_eq.
    rewrite <- (insert_delete_id m (code_of r) n E) at 2.
    rewrite sum_counts_insert by apply lookup_delete_eq.
    destruct (Nat.eqb_spec n 0); lia.
  - rewrite sum_counts_insert by exact E. lia.
Qed.

Lemma occurrences_snoc (key : string) (rows : list Row) (r : Row) :
  occurrences key (rows ++ [r]) =
  occurrences key rows + (if decide (code_of r = key) then 1 else 0).
Proof.
  unfold occurrences. rewrite filter_app, length_app, filter_cons, filter_nil.
  destruct (decide (code_of r = key)); cbn [length]; lia.
Qed.

(** X28: [counts] is the histogram of the codes: a code that occurs has its
    number of occurrences, a code that does not occur has no entry; the
    counts add up to [total], the number of rows; the sample holds the first
    50 rows. *)
Theorem fetch_status_audit_spec (rows : list Row) :
  let r := fetch_status_audit rows in
  (forall key,
     counts r !! key =
     if (occurrences key rows =? 0)%nat then None else Some (occurrences key rows)) /\
  sum_counts (counts r) = total r /\
  total r = length rows /\
  sample r = take 50 rows.
Proof.
  cbv zeta. unfold fetch_status_audit. cbn [counts total sample].
  split_and!; [| |reflexivity|reflexivity].
  - induction rows as [|r rows IH] using rev_ind; intros key.
    + cbn. apply lookup_empty.
    + rewrite fold_left_app. cbn [fold_left]. rewrite occurrences_snoc.
      unfold count_step. cbv zeta.
      destruct (decide (code_of r = key)) as [<-|Hne].
      * rewrite lookup_insert_eq, IH.
        destruct (Nat.eqb_spec (occurrences (code_of r) rows) 0) as [->|Hn]; cbn.
        -- reflexivity.
        -- destruct (Nat.eqb_spec (occurrences (code_of r) rows) 0); [lia|].
           destruct (Nat.eqb_spec (occurrences (code_of r) rows + 1) 0); [lia | reflexivity].
      * rewrite lookup_insert_ne by done. rewrite IH. by rewrite Nat.add_0_r.
  - induction rows as [|r rows IH] using rev_ind; [reflexivity|].
    rewrite fold_left_app. cbn [fold_left]. rewrite sum_counts_step, IH, length_app. cbn. lia.
Qed.

(** Four fetches: one answered 200, one 404, one without status, one with a
    status of zero and the code 200. *)
Example fetch_status_audit_run :
  let r := fetch_status_audit
     [ {| status := Some 200%Z; code := None |}; {| status := Some 404%Z; code := None |};
       {| status := None; code := None |}; {| status := Some 0%Z; code := Some 200%Z |} ] in
  counts r !! "200" = Some 2 /\ counts r !! "404" = Some 1 /\
  counts r !! "unknown" = Some 1 /\ counts r !! "500" = None /\ total r = 4.
Proof. vm_compute. by split_and!. Qed.

End FetchStatus.

(* ===================================================================== *)
(** * On-site quick wins (tool [babbar_onsite_quickwins]) *)
(* ===================================================================== *)

Module QuickWins.

Inductive Priority := High | Medium | Low.

(** A pair of [duplicateData.pairs]; only its [percent_from] is read. *)
Record Pair := {
  percent_from : option Q
}.

(** A suggestion of [/url/similar-links]. *)
Record Suggestion := {
  s_url : option string;
  s_score : option Q
}.

Record LinkingSuggestion := {
  sourceUrl : option string;
  suggestions : list (option string * option Q)
}.

Inductive Details :=
| NoDetails
| Pairs (l : list Pair)
| Links (l : list LinkingSuggestion).

(** A recommendation, without the texts of [issue] and [action]. *)
Record Recommendation := {
  type : string;
  priority : Priority;
  details : Details
}.

Record Report := {
  quickWins : list Recommendation;
  duplicatePairs : nat;
  criticalDuplicatePairs : nat;
  topPagesAnalyzed : nat
}.

(** [priorities[p] || 0] *)
Definition weight (p : Priority) : Z :=
  match p with High => 3 | Medium => 2 | Low => 1 end.

Definition by_priority (a b : Recommendation) : Z :=
  (weight (priority b) - weight (priority a))%Z.

(** [healthData.health < 90]; a missing score compares as false. *)
Definition health_low (health : option Q) : bool :=
  match health with
  | Some h => JsNum.Qltb h 90
  | None => false
  end.

(** [p.percent_from >= 87]; a missing value compares as false. *)
Definition is_critical (p : Pair) : bool :=
  match percent_from p with
  | Some q => Qle_bool 87 q
  | None => false
  end.

(** The loop over the first three top pages.  Each page comes with the
    answer to its call, [None] when the call fails, which ends the tool by
    an error. *)
Fixpoint linkingSuggestions (pages : list (option string * option (list Suggestion)))
  : option (list LinkingSuggestion) :=
  match pages with
  | [] => Some []
  | (_, None) :: _ => None
  | (url, Some sugg) :: rest =>
      match linkingSuggestions rest with
      | None => None
      | Some l =>
          Some (if (0 <? length sugg)%nat
                then {| sourceUrl := url;
                        suggestions := map (fun s => (s_url s, s_score s)) sugg |} :: l
                else l)
      end
  end.

(** The recommendations in the order in which they are pushed. *)
Definition recommendations (health : option Q) (criticalDuplicates : list Pair)
    (links : list LinkingSuggestion) : list Recommendation :=
  (if health_low health
   then [{| type := "Santé Technique"; priority := High; details := NoDetails |}] else [])
  ++ (if (0 <? length criticalDuplicates)%nat
      then [{| type := "Contenu Dupliqué"; priority := Medium;
               details := Pairs (Js.slice0 5 criticalDuplicates) |}] else [])
  ++ (if (0 <? length links)%nat
      then [{| type := "Maillage Interne"; priority := Low; details := Links links |}] else []).

(** The tool, from the health score, the duplicate pairs ([None] when the
    field is missing) and the top pages with the answers of their calls;
    [None] when a call of the loop fails. *)
Definition onsite_quickwins (health : option Q) (pairs : option (list Pair))
    (topPages : list (option string * option (list Suggestion))) : option Report :=
  let criticalDuplicates := List.filter is_critical (default [] pairs) in
  match linkingSuggestions (Js.slice0 3 topPages) with
  | None => None
  | Some links =>
      Some {| quickWins := Js.sortZ by_priority (recommendations health criticalDuplicates links);
              duplicatePairs := length (default [] pairs);
              criticalDuplicatePairs := length criticalDuplicates;
              topPagesAnalyzed := length topPages |}
  end.

(** ** Facts *)

Lemma linkingSuggestions_length (pages : list (option string * option (list Suggestion)))
    (links : list LinkingSuggestion) :
  linkingSuggestions pages = Some links ->
  length links <= length pages /\
  Forall (fun l => suggestions l <> []) links /\
  Forall (fun pa => snd pa <> None) pages.
Proof.
  revert links. induction pages as [|[url [sugg|]] pages IH]; intros links H; cbn in H.
  - injection H as <-. split_and!; [reflexivity | constructor | constructor].
  - destruct (linkingSuggestions pages) as [l|]; [|discriminate].
    destruct (IH l eq_refl) as (Hlen & Hne & Hok). injection H as <-.
    destruct sugg as [|s sugg]; cbn [length Nat.ltb Nat.leb].
    + split_and!; [cbn; lia | exact Hne | by constructor].
    + split_and!; [cbn; lia | by constructor | by constructor].
  - discriminate.
Qed.

(** X29: the quick wins come out in the order in which they are found, the final
    sort changing nothing: the health recommendation (priority High) when
    the health score is below 90, then the duplication recommendation
    (Medium) when a pair has a [percent_from] of at least 87, with at most
    five pairs as details, then the linking recommendation (Low) when one of
    the first three top pages has suggestions.  There are at most three of
    them, of strictly decreasing priority. *)
Theorem onsite_quickwins_spec (health : option Q) (pairs : option (list Pair))
    (topPages : list (option string * option (list Suggestion))) (r : Report) :
  onsite_quickwins health pairs topPages = Some r ->
  let criticalDuplicates := List.filter is_critical (default [] pairs) in
  exists links,
    linkingSuggestions (Js.slice0 3 topPages) = Some links /\
    length links <= 3 /\
    quickWins r = recommendations health criticalDuplicates links /\
    length (quickWins r) <= 3 /\
    StronglySorted (fun a b => (weight (priority b) < weight (priority a))%Z) (quickWins r) /\
    criticalDuplicatePairs r = length criticalDuplicates /\
    criticalDuplicatePairs r <= duplicatePairs r /\
    Forall (fun rec => match details rec with
                       | Pairs l => length l <= 5 /\ Forall (fun p => is_critical p = true) l
                       | _ => True
                       end) (quickWins r).
Proof.
  unfold onsite_quickwins. cbv zeta.
  destruct (linkingSuggestions (Js.slice0 3 topPages)) as [links|] eqn:Hl; [|discriminate].
  intros [= <-]. exists links. cbn [quickWins criticalDuplicatePairs duplicatePairs].
  set (crit := List.filter is_critical (default [] pairs)).
  assert (Hsort : Js.sortZ by_priority (recommendations health crit links) =
                  recommendations health crit links).
  { unfold recommendations.
    destruct (health_low health), (0 <? length crit)%nat, (0 <? length links)%nat; reflexivity. }
  assert (Hlen3 : length links <= 3).
  { apply linkingSuggestions_length in Hl as [Hl _].
    pose proof (Js.length_slice0 3 topPages). lia. }
  rewrite Hsort. split_and!; try done.
  - unfold recommendations.
    destruct (health_low health), (0 <? length crit)%nat, (0 <? length links)%nat; cbn; lia.
  - unfold recommendations.
    destruct (health_low health), (0 <? length crit)%nat, (0 <? length links)%nat; cbn;
      repeat (constructor; cbn; try lia).
  - apply List.filter_length_le.
  - assert (Hcrit : Forall (fun p => is_critical p = true) (Js.slice0 5 crit)).
    { apply Forall_forall. intros p Hp. apply Js.elem_of_slice0 in Hp.
      unfold crit in Hp. apply list_elem_of_In, filter_In in Hp. tauto. }
    assert (Hlen5 : length (Js.slice0 5 crit) <= 5).
    { pose proof (Js.length_slice0 5 crit). lia. }
    unfold recommendations.
    destruct (health_low health), (0 <? length crit)%nat, (0 <? length links)%nat; cbn;
      repeat (constructor; cbn; try done).
Qed.

(** A site with a health score of 72 and one pair duplicated at 91%; its
    one top page has no linking suggestion. *)
Definition ex_pairs : option (list Pair) := Some [{| percent_from := Some 91%Q |}].

Definition ex_topPages : list (option string * option (list Suggestion)) :=
  [(Some "https://site.example/", Some [])].

Definition ex_report : Report :=
  {| quickWins :=
       [ {| type := "Santé Technique"; priority := High; details := NoDetails |};
         {| type := "Contenu Dupliqué"; priority := Medium;
            details := Pairs [{| percent_from := Some 91%Q |}] |} ];
     duplicatePairs := 1; criticalDuplicatePairs := 1; topPagesAnalyzed := 1 |}.

Lemma onsite_quickwins_example :
  let criticalDuplicates := List.filter is_critical (default [] ex_pairs) in
  exists links,
    linkingSuggestions (Js.slice0 3 ex_topPages) = Some links /\
    length links <= 3 /\
    quickWins ex_report = recommendations (Some 72%Q) criticalDuplicates links /\
    length (quickWins ex_report) <= 3 /\
    StronglySorted (fun a b => (weight (priority b) < weight (priority a))%Z)
      (quickWins ex_report) /\
    criticalDuplicatePairs ex_report = length criticalDuplicates /\
    criticalDuplicatePairs ex_report <= duplicatePairs ex_report /\
    Forall (fun rec => match details rec with
                       | Pairs l => length l <= 5 /\ Forall (fun p => is_critical p = true) l
                       | _ => True
                       end) (quickWins ex_report).
Proof.
  apply (onsite_quickwins_spec (Some 72%Q) ex_pairs ex_topPages ex_report).
  reflexivity.
Defined.

End QuickWins.

(* ===================================================================== *)

Module Binary64.

(** The expression of [relevanceScore], as IEEE 754 binary64 evaluates it. *)
Definition relevanceScore64 (similarityScore commonCount len : PrimFloat.float)
  : PrimFloat.float :=
  PrimFloat.add
    (PrimFloat.mul similarityScore 0x1.3333333333333p-1%float)
    (PrimFloat.mul (PrimFloat.mul (PrimFloat.div commonCount len) 100%float)
       0x1.999999999999ap-2%float).

(** The worked example of the relevance scorer in doubles: 0.6 and 0.4 are
    the doubles nearest to them, and the result is the double nearest to
    52.8, above 50. *)
Example relevance_example_binary64 :
  PrimFloat.eqb (relevanceScore64 80 12 100) 0x1.a666666666666p+5%float = true /\
  PrimFloat.ltb 50 (relevanceScore64 80 12 100) = true.
Proof. split; reflexivity. Qed.

(** The arithmetic of [normPct] at 0.005 and then at 0.5 in doubles, where
    0x1.47ae147ae147bp-8 is the double nearest to 0.005: every product is an
    integer, which [Math.round] leaves as it is, so that the first
    application yields 0.5 and the second one 50. *)
Example normPct_steps_binary64 :
  let v := 0x1.47ae147ae147bp-8%float in
  PrimFloat.eqb (PrimFloat.mul v 100) 0.5 = true /\
  PrimFloat.eqb (PrimFloat.mul (PrimFloat.mul v 100) 100) 50 = true /\
  PrimFloat.eqb (PrimFloat.div 50 100) 0.5 = true /\
  PrimFloat.eqb (PrimFloat.mul (PrimFloat.mul 0.5 100) 100) 5000 = true /\
  PrimFloat.eqb (PrimFloat.div 5000 100) 50 = true.
Proof. cbv zeta. repeat split; reflexivity. Qed.

End Binary64.
